(** * safe-json-formatter: the parse / format pipeline of [JsonFormatter.tsx]

    The component keeps three pieces of React state that matter here
    ([input], [output], [error]) plus the formatting [options]; its logic is
    [parseJson], [formatJson] and the event handlers that call them.  Those
    are embedded below as programs of a small monad (explicit state passing,
    exceptions, and a log of the calls made to the two ECMAScript built-ins
    the code relies on, [JSON.parse] and [JSON.stringify]).

    The built-ins themselves, [String.prototype.trim], [startsWith],
    [endsWith], [JSON.parse] and [JSON.stringify] are modelled after
    ECMA-262: strings are sequences of UTF-16 code units, numbers are
    binary64 values, objects enumerate their own keys with array indices
    first. *)

From Stdlib Require Import String Ascii Bool ZArith NArith List Lia.
From Stdlib Require Import Floats.SpecFloat.
Import ListNotations.

Local Open Scope Z_scope.
Local Open Scope list_scope.

Set Warnings "-register-all".

(* ================================================================== *)
(** * ECMAScript strings *)
(* ================================================================== *)

(** A string value is a finite sequence of 16-bit code units. *)
Abbreviation code_unit := N (only parsing).
Abbreviation jsstring := (list N) (only parsing).

(** The code units of an ASCII literal. *)
Definition utf16 (s : string) : jsstring :=
  map N_of_ascii (list_ascii_of_string s).

(** WhiteSpace and LineTerminator code points (ECMA-262 12.2, 12.3): the
    characters [trim] strips. *)
Definition is_js_whitespace (c : code_unit) : bool :=
  ((c =? 0x9) || (c =? 0xA) || (c =? 0xB) || (c =? 0xC) || (c =? 0xD)
   || (c =? 0x20) || (c =? 0xA0) || (c =? 0x1680)
   || ((0x2000 <=? c) && (c <=? 0x200A))
   || (c =? 0x2028) || (c =? 0x2029) || (c =? 0x202F) || (c =? 0x205F)
   || (c =? 0x3000) || (c =? 0xFEFF))%N.

Fixpoint trimStart (s : jsstring) : jsstring :=
  match s with
  | c :: r => if is_js_whitespace c then trimStart r else s
  | [] => []
  end.

Definition trimEnd (s : jsstring) : jsstring := rev (trimStart (rev s)).

(** [String.prototype.trim]. *)
Definition trim (s : jsstring) : jsstring := trimEnd (trimStart s).

(** [String.prototype.startsWith] (position 0). *)
Fixpoint startsWith (s p : jsstring) {struct p} : bool :=
  match p, s with
  | [], _ => true
  | _ :: _, [] => false
  | a :: p', b :: s' => (a =? b)%N && startsWith s' p'
  end.

(** [String.prototype.endsWith] (end position = length). *)
Definition endsWith (s p : jsstring) : bool := startsWith (rev s) (rev p).

(** ToBoolean of a string: the empty string is falsy. *)
Definition truthy (s : jsstring) : bool :=
  match s with [] => false | _ :: _ => true end.

Fixpoint span (p : code_unit -> bool) (s : jsstring) : jsstring * jsstring :=
  match s with
  | c :: r => if p c then let '(a, b) := span p r in (c :: a, b) else ([], s)
  | [] => ([], [])
  end.

Fixpoint jsstring_eqb (a b : jsstring) : bool :=
  match a, b with
  | [], [] => true
  | x :: a', y :: b' => (x =? y)%N && jsstring_eqb a' b'
  | _, _ => false
  end.

(* ================================================================== *)
(** * ECMAScript numbers *)
(* ================================================================== *)

(** The Number type: IEEE 754 binary64, in the representation of the
    Standard Library ([S754_finite s m e] is [(-1)^s * m * 2^e]). *)
Definition number := spec_float.

Definition number_eqb (x y : number) : bool :=
  match x, y with
  | S754_zero a, S754_zero b => Bool.eqb a b
  | S754_infinity a, S754_infinity b => Bool.eqb a b
  | S754_nan, S754_nan => true
  | S754_finite a m e, S754_finite b m' e' =>
      Bool.eqb a b && Pos.eqb m m' && Z.eqb e e'
  | _, _ => false
  end.

(** Smallest exponent of a binary64 significand taken as an integer. *)
Definition emin : Z := -1074.
(** Largest such exponent: the largest finite value is [(2^53-1) * 2^971]. *)
Definition emax : Z := 971.

(** [p / q] with [q] multiplied by [2^e] (or [p] by [2^-e]). *)
Definition scale2 (p q e : Z) : Z * Z :=
  if 0 <=? e then (p, q * 2 ^ e) else (p * 2 ^ (- e), q).

(** The integer nearest to [p / q], ties to even. *)
Definition round_half_even (p q : Z) : Z :=
  let m := p / q in
  let r := p mod q in
  if 2 * r <? q then m
  else if q <? 2 * r then m + 1
  else if Z.even m then m else m + 1.

(** The exponent [e] for which [2^52 <= p / (q * 2^e) < 2^53]. *)
Definition binade (p q : Z) : Z :=
  let d := Z.log2 p - Z.log2 q - 52 in
  let '(p', q') := scale2 p q d in
  if p' <? 2 ^ 52 * q' then d - 1 else d.

(** The Number value for the positive rational [p / q] with sign [neg]:
    round to nearest, ties to even; overflow gives an infinity. *)
Definition round_to_number (neg : bool) (p q : Z) : number :=
  if p <=? 0 then S754_zero neg
  else
    let e := Z.max (binade p q) emin in
    let '(p', q') := scale2 p q e in
    let m := round_half_even p' q' in
    if m =? 0 then S754_zero neg
    else
      let '(m, e) := if m =? 2 ^ 53 then (2 ^ 52, e + 1) else (m, e) in
      if emax <? e then S754_infinity neg
      else S754_finite neg (Z.to_pos m) e.

(** The Number value for [m * 10^e]. *)
Definition number_of_decimal (neg : bool) (m e : Z) : number :=
  if 0 <=? e then round_to_number neg (m * 10 ^ e) 1
  else round_to_number neg m (10 ^ (- e)).

Definition is_digit (c : code_unit) : bool := ((48 <=? c) && (c <=? 57))%N.

Definition digit_value (c : code_unit) : Z := Z.of_N (c - 48).

Definition digits_value (ds : jsstring) : Z :=
  fold_left (fun a c => 10 * a + digit_value c) ds 0.

(** The JSON number grammar (ECMA-404): an optional minus sign; an integer
    part that is a single 0 or starts with a non-zero digit; an optional
    fraction (a dot and one or more digits); an optional exponent (e or E,
    an optional sign, one or more digits).  The result is the Number value
    of the literal. *)
Definition json_int_part (s : jsstring) : option (jsstring * jsstring) :=
  match span is_digit s with
  | ([], _) => None
  | ([d], r) => Some ([d], r)
  | (d :: ds, r) => if (d =? 48)%N then None else Some (d :: ds, r)
  end.

Definition json_frac_part (s : jsstring) : option (jsstring * jsstring) :=
  match s with
  | 46%N :: r =>
      match span is_digit r with
      | ([], _) => None
      | (ds, r') => Some (ds, r')
      end
  | _ => Some ([], s)
  end.

Definition json_exp_digits (neg : bool) (s : jsstring) : option Z :=
  match span is_digit s with
  | ([], _) => None
  | (ds, []) => Some (if neg then - digits_value ds else digits_value ds)
  | (_, _ :: _) => None
  end.

Definition json_exp_part (s : jsstring) : option Z :=
  match s with
  | [] => Some 0
  | c :: r =>
      if (c =? 101)%N || (c =? 69)%N then
        match r with
        | 43%N :: r' => json_exp_digits false r'
        | 45%N :: r' => json_exp_digits true r'
        | _ => json_exp_digits false r
        end
      else None
  end.

Definition number_of_literal (s : jsstring) : option number :=
  let '(neg, s1) :=
    match s with 45%N :: r => (true, r) | _ => (false, s) end in
  match json_int_part s1 with
  | None => None
  | Some (ip, s2) =>
      match json_frac_part s2 with
      | None => None
      | Some (fp, s3) =>
          match json_exp_part s3 with
          | None => None
          | Some ex =>
              Some (number_of_decimal neg (digits_value (ip ++ fp))
                      (ex - Z.of_nat (length fp)))
          end
      end
  end.

(** ** Number::toString (radix 10) *)

Definition digit_char (d : Z) : code_unit := (48 + Z.to_N d)%N.

(** The decimal digits of [z], most significant first, padded to [k]. *)
Fixpoint digits_of (k : nat) (z : Z) (acc : jsstring) : jsstring :=
  match k with
  | O => acc
  | S k' => digits_of k' (z / 10) (digit_char (z mod 10) :: acc)
  end.

(** Decimal rendering of a non-negative integer, no leading zeros. *)
Fixpoint count_digits (fuel : nat) (z : Z) : nat :=
  match fuel with
  | O => 1
  | S f => if z <? 10 then 1%nat else S (count_digits f (z / 10))
  end.

Definition nat_digits (z : Z) : nat := count_digits (Z.to_nat (Z.log2 z)) z.

Definition Z_toString (z : Z) : jsstring :=
  if z <? 0 then 45%N :: digits_of (nat_digits (- z)) (- z) []
  else digits_of (nat_digits z) z [].

(** [x / 10^t] as a fraction, for [x = p / q]. *)
Definition scale10 (p q t : Z) : Z * Z :=
  if 0 <=? t then (p, q * 10 ^ t) else (p * 10 ^ (- t), q).

(** The [n] with [10^(n-1) <= p / q < 10^n]. *)
Fixpoint small_exponent (fuel : nat) (p q : Z) (n : Z) : Z :=
  match fuel with
  | O => n
  | S f => if q <=? 10 * p then n else small_exponent f (10 * p) q (n - 1)
  end.

Definition decimal_exponent (p q : Z) : Z :=
  if q <=? p then Z.of_nat (nat_digits (p / q))
  else small_exponent (Z.to_nat (Z.log2 q)) p q 0.

(** The candidates with [k] digits for [x = p / q]: the two [k]-digit
    decimals around [x]; [None] when neither reads back as [x]. *)
Definition digits_candidate (x : number) (p q n : Z) (k : nat)
  : option (Z * Z) :=
  let t := n - Z.of_nat k in
  let '(p', q') := scale10 p q t in
  let lo := p' / q' in
  let hi := lo + 1 in
  let ok s := number_eqb (number_of_decimal false s t) x in
  let pick_lo := Some (lo, n) in
  let pick_hi :=
    if hi =? 10 ^ Z.of_nat k then Some (10 ^ (Z.of_nat k - 1), n + 1)
    else Some (hi, n) in
  match ok lo, ok hi with
  | true, true =>
      let r := p' mod q' in
      if 2 * r <? q' then pick_lo
      else if q' <? 2 * r then pick_hi
      else if Z.even lo then pick_lo else pick_hi
  | true, false => pick_lo
  | false, true => pick_hi
  | false, false => None
  end.

(** The least [k] with a candidate, searched upwards from [k]; 17 digits
    always identify a binary64 value. *)
Fixpoint shortest_digits (fuel : nat) (x : number) (p q n : Z) (k : nat)
  : nat * Z * Z :=
  match digits_candidate x p q n k with
  | Some (s, n') => (k, s, n')
  | None =>
      match fuel with
      | O => (k, round_half_even (fst (scale10 p q (n - Z.of_nat k)))
                                 (snd (scale10 p q (n - Z.of_nat k))), n)
      | S f => shortest_digits f x p q n (S k)
      end
  end.

Definition zeros (n : Z) : jsstring := repeat 48%N (Z.to_nat n).

(** Steps 6-10 of Number::toString: [s] has [k] digits and the value is
    [s * 10^(n-k)]. *)
Definition format_decimal (k : nat) (s n : Z) : jsstring :=
  let ds := digits_of k s [] in
  let kz := Z.of_nat k in
  if (kz <=? n) && (n <=? 21) then ds ++ zeros (n - kz)
  else if (0 <? n) && (n <=? 21) then
    firstn (Z.to_nat n) ds ++ 46%N :: skipn (Z.to_nat n) ds
  else if (-6 <? n) && (n <=? 0) then
    48%N :: 46%N :: zeros (- n) ++ ds
  else
    let ex := n - 1 in
    let exs := (if ex <? 0 then 45%N else 43%N) :: Z_toString (Z.abs ex) in
    match ds with
    | [d] => d :: 101%N :: exs
    | d :: rest => d :: 46%N :: rest ++ 101%N :: exs
    | [] => []
    end.

Definition positive_toString (x : number) (m : positive) (e : Z) : jsstring :=
  let '(p, q) := scale2 (Zpos m) 1 (- e) in
  let n := decimal_exponent p q in
  let '(k, s, n') := shortest_digits 16 x p q n 1 in
  format_decimal k s n'.

Definition Number_toString (x : number) : jsstring :=
  match x with
  | S754_nan => utf16 "NaN"
  | S754_zero _ => utf16 "0"
  | S754_infinity s => (if s then [45%N] else []) ++ utf16 "Infinity"
  | S754_finite s m e =>
      (if s then [45%N] else [])
        ++ positive_toString (S754_finite false m e) m e
  end.

(** ToIntegerOrInfinity, then the clamp [min(10, _)] of JSON.stringify and
    its test [< 1]: the number of spaces a numeric [space] argument asks
    for. *)
Definition space_width (n : number) : nat :=
  match n with
  | S754_nan | S754_zero _ => O
  | S754_infinity neg => if neg then O else 10%nat
  | S754_finite neg m e =>
      if neg then O
      else Z.to_nat (Z.min 10 (let '(p, q) := scale2 (Zpos m) 1 (- e) in p / q))
  end.

(** The Number value of an integer. *)
Definition Number_of_Z (z : Z) : number :=
  round_to_number (z <? 0) (Z.abs z) 1.

Definition is_finite (n : number) : bool :=
  match n with
  | S754_zero _ | S754_finite _ _ _ => true
  | S754_infinity _ | S754_nan => false
  end.

(* ================================================================== *)
(** * ECMAScript values, completions *)
(* ================================================================== *)

(** The language values that matter to [JSON.stringify]: what the code
    types as [unknown].  Objects are plain objects, given by their own
    enumerable string-keyed properties in [OrdinaryOwnPropertyKeys] order. *)
Inductive value : Type :=
| VUndefined
| VNull
| VBoolean (b : bool)
| VNumber (n : number)
| VBigInt (z : Z)
| VString (s : jsstring)
| VArray (elems : list value)
| VObject (props : list (jsstring * value)).

Inductive error_class := ErrorClass | SyntaxErrorClass | TypeErrorClass | RangeErrorClass.

(** What a [throw] carries: an Error object of some class with its
    [message], or any other value. *)
Inductive thrown :=
| ErrorObject (cls : error_class) (message : jsstring)
| NonError (v : value).

Inductive completion (A : Type) : Type :=
| Normal (a : A)
| Throw (e : thrown).
Arguments Normal {A} a.
Arguments Throw {A} e.

(** [err instanceof SyntaxError] *)
Definition instanceof_SyntaxError (err : thrown) : bool :=
  match err with
  | ErrorObject SyntaxErrorClass _ => true
  | _ => false
  end.

(** [err instanceof Error] *)
Definition instanceof_Error (err : thrown) : bool :=
  match err with
  | ErrorObject _ _ => true
  | NonError _ => false
  end.

(* ================================================================== *)
(** * JSON.stringify (ECMA-262 25.5.2) *)
(* ================================================================== *)

Definition is_high_surrogate (c : code_unit) : bool :=
  ((0xD800 <=? c) && (c <=? 0xDBFF))%N.
Definition is_low_surrogate (c : code_unit) : bool :=
  ((0xDC00 <=? c) && (c <=? 0xDFFF))%N.

Definition hex_char (d : N) : code_unit :=
  (if d <? 10 then 48 + d else 87 + d)%N.

(** UnicodeEscape: a backslash, [u] and four lowercase hexadecimal digits. *)
Definition UnicodeEscape (c : code_unit) : jsstring :=
  [92; 117; hex_char ((c / 4096) mod 16); hex_char ((c / 256) mod 16);
   hex_char ((c / 16) mod 16); hex_char (c mod 16)]%N.

(** Table 75 (JSON single character escape sequences), then control
    characters; anything else stands for itself. *)
Definition escape_unit (c : code_unit) : jsstring :=
  (if c =? 0x8 then [92; 98]
   else if c =? 0x9 then [92; 116]
   else if c =? 0xA then [92; 110]
   else if c =? 0xC then [92; 102]
   else if c =? 0xD then [92; 114]
   else if c =? 0x22 then [92; 34]
   else if c =? 0x5C then [92; 92]
   else if c <? 0x20 then UnicodeEscape c
   else [c])%N.

(** The body of QuoteJSONString, code point by code point: a surrogate pair
    is copied, a lone surrogate is escaped. *)
Fixpoint quote_units (s : jsstring) : jsstring :=
  match s with
  | [] => []
  | c :: r =>
      if is_high_surrogate c then
        match r with
        | d :: r' =>
            if is_low_surrogate d then c :: d :: quote_units r'
            else UnicodeEscape c ++ quote_units r
        | [] => UnicodeEscape c
        end
      else if is_low_surrogate c then UnicodeEscape c ++ quote_units r
      else escape_unit c ++ quote_units r
  end.

Definition QuoteJSONString (s : jsstring) : jsstring :=
  34%N :: quote_units s ++ [34%N].

Fixpoint join (sep : jsstring) (parts : list jsstring) : jsstring :=
  match parts with
  | [] => []
  | [p] => p
  | p :: ps => p ++ sep ++ join sep ps
  end.

(** The last steps of SerializeJSONObject and SerializeJSONArray: the
    brackets around the serialized members. *)
Definition wrap_partial (opening closing : code_unit)
    (stepback indent gap : jsstring) (partial : list jsstring) : jsstring :=
  match partial with
  | [] => [opening; closing]
  | _ :: _ =>
      match gap with
      | [] => opening :: join [44%N] partial ++ [closing]
      | _ :: _ =>
          let separator := 44%N :: 10%N :: indent in
          opening :: 10%N :: indent ++ join separator partial
            ++ 10%N :: stepback ++ [closing]
      end
  end.

(** One member of an object: the quoted key, a colon, a space when there is
    a gap, the serialized value. *)
Definition member_text (gap key strP : jsstring) : jsstring :=
  QuoteJSONString key ++ 58%N :: (match gap with [] => [] | _ :: _ => [32%N] end)
    ++ strP.

(** SerializeJSONProperty with SerializeJSONArray and SerializeJSONObject
    inlined; [None] is [undefined].  [indent] is the current indentation,
    [gap] the unit added per level. *)
Fixpoint SerializeJSONProperty (indent gap : jsstring) (v : value)
  : completion (option jsstring) :=
  match v with
  | VUndefined => Normal None
  | VNull => Normal (Some (utf16 "null"))
  | VBoolean true => Normal (Some (utf16 "true"))
  | VBoolean false => Normal (Some (utf16 "false"))
  | VString s => Normal (Some (QuoteJSONString s))
  | VNumber n =>
      if is_finite n then Normal (Some (Number_toString n))
      else Normal (Some (utf16 "null"))
  | VBigInt _ =>
      Throw (ErrorObject TypeErrorClass
               (utf16 "Do not know how to serialize a BigInt"))
  | VArray elems =>
      let stepback := indent in
      let indent := indent ++ gap in
      let fix elements (l : list value) : completion (list jsstring) :=
        match l with
        | [] => Normal []
        | e :: l' =>
            match SerializeJSONProperty indent gap e with
            | Throw t => Throw t
            | Normal strP =>
                match elements l' with
                | Throw t => Throw t
                | Normal partial =>
                    Normal (match strP with
                            | None => utf16 "null"
                            | Some s => s
                            end :: partial)
                end
            end
        end in
      match elements elems with
      | Throw t => Throw t
      | Normal partial =>
          Normal (Some (wrap_partial 91%N 93%N stepback indent gap partial))
      end
  | VObject props =>
      let stepback := indent in
      let indent := indent ++ gap in
      let fix members (l : list (jsstring * value)) : completion (list jsstring) :=
        match l with
        | [] => Normal []
        | (k, e) :: l' =>
            match SerializeJSONProperty indent gap e with
            | Throw t => Throw t
            | Normal strP =>
                match members l' with
                | Throw t => Throw t
                | Normal partial =>
                    Normal (match strP with
                            | None => partial
                            | Some s => member_text gap k s :: partial
                            end)
                end
            end
        end in
      match members props with
      | Throw t => Throw t
      | Normal partial =>
          Normal (Some (wrap_partial 123%N 125%N stepback indent gap partial))
      end
  end.

(** The gap of [JSON.stringify(value, null, space)]: [space] is absent or a
    Number. *)
Definition gap_of_space (space : option number) : jsstring :=
  match space with
  | None => []
  | Some n => repeat 32%N (space_width n)
  end.

(** [JSON.stringify(value)] and [JSON.stringify(value, null, space)]. *)
Definition JSON_stringify (v : value) (space : option number)
  : completion (option jsstring) :=
  SerializeJSONProperty [] (gap_of_space space) v.

(* ================================================================== *)
(** * JSON.parse (ECMA-262 25.5.1, ECMA-404) *)
(* ================================================================== *)

(** An array index: a canonical numeric string (it is the decimal rendering
    of its own value) for an integer below [2^32 - 1]. *)
Definition array_index (k : jsstring) : option Z :=
  let i := digits_value k in
  if forallb is_digit k && jsstring_eqb (Z_toString i) k && (i <=? 4294967294)
  then Some i else None.

Fixpoint has_key (k : jsstring) (o : list (jsstring * value)) : bool :=
  match o with
  | [] => false
  | (k', _) :: r => jsstring_eqb k k' || has_key k r
  end.

Fixpoint replace_value (k : jsstring) (v : value) (o : list (jsstring * value))
  : list (jsstring * value) :=
  match o with
  | [] => []
  | (k', v') :: r =>
      if jsstring_eqb k k' then (k', v) :: r
      else (k', v') :: replace_value k v r
  end.

Fixpoint insert_index (i : Z) (k : jsstring) (v : value)
    (o : list (jsstring * value)) : list (jsstring * value) :=
  match o with
  | [] => [(k, v)]
  | (k', v') :: r =>
      match array_index k' with
      | Some j => if j <? i then (k', v') :: insert_index i k v r
                  else (k, v) :: o
      | None => (k, v) :: o
      end
  end.

(** CreateDataProperty on a plain object, seen through the order in which
    its keys are then enumerated: an existing key keeps its place, a new
    array index goes among the indices in ascending order, any other new
    key goes last. *)
Definition CreateDataProperty (o : list (jsstring * value)) (k : jsstring)
    (v : value) : list (jsstring * value) :=
  if has_key k o then replace_value k v o
  else match array_index k with
       | Some i => insert_index i k v o
       | None => o ++ [(k, v)]
       end.

Definition build_object (ms : list (jsstring * value)) : list (jsstring * value) :=
  fold_left (fun o m => CreateDataProperty o (fst m) (snd m)) ms [].

Inductive presult (A : Type) : Type :=
| POk (a : A) (rest : jsstring)
| PErr (msg : jsstring)
| POutOfFuel.
Arguments POk {A} a rest.
Arguments PErr {A} msg.
Arguments POutOfFuel {A}.

Definition pmap {A B} (f : A -> B) (r : presult A) : presult B :=
  match r with
  | POk a rest => POk (f a) rest
  | PErr msg => PErr msg
  | POutOfFuel => POutOfFuel
  end.

Definition is_json_ws (c : code_unit) : bool :=
  ((c =? 0x20) || (c =? 0x9) || (c =? 0xA) || (c =? 0xD))%N.

Fixpoint skip_ws (s : jsstring) : jsstring :=
  match s with
  | c :: r => if is_json_ws c then skip_ws r else s
  | [] => []
  end.

Definition is_number_char (c : code_unit) : bool :=
  (is_digit c || (c =? 43) || (c =? 45) || (c =? 46) || (c =? 101) || (c =? 69))%N.

Definition hex_value (c : code_unit) : option N :=
  (if (48 <=? c) && (c <=? 57) then Some (c - 48)
   else if (97 <=? c) && (c <=? 102) then Some (c - 87)
   else if (65 <=? c) && (c <=? 70) then Some (c - 55)
   else None)%N.

Definition hex4 (a b c d : code_unit) : option code_unit :=
  match hex_value a, hex_value b, hex_value c, hex_value d with
  | Some x, Some y, Some z, Some w => Some (x * 4096 + y * 256 + z * 16 + w)%N
  | _, _, _, _ => None
  end.

Definition simple_escape (e : code_unit) : option code_unit :=
  (if e =? 34 then Some 34
   else if e =? 92 then Some 92
   else if e =? 47 then Some 47
   else if e =? 98 then Some 0x8
   else if e =? 102 then Some 0xC
   else if e =? 110 then Some 0xA
   else if e =? 114 then Some 0xD
   else if e =? 116 then Some 0x9
   else None)%N.

(** The diagnostics of the parser.  Their wording is left to the
    implementation by the standard; one text per failure site here. *)
Definition msg_end := utf16 "Unexpected end of JSON input".
Definition msg_token := utf16 "Unexpected token in JSON".
Definition msg_unterminated := utf16 "Unterminated string in JSON".
Definition msg_control := utf16 "Bad control character in string literal in JSON".
Definition msg_escape := utf16 "Bad escaped character in JSON".
Definition msg_unicode := utf16 "Bad Unicode escape in JSON".
Definition msg_number := utf16 "Invalid number in JSON".
Definition msg_element := utf16 "Expected ',' or ']' after array element in JSON".
Definition msg_property := utf16 "Expected ',' or '}' after property value in JSON".
Definition msg_name := utf16 "Expected double-quoted property name in JSON".
Definition msg_colon := utf16 "Expected ':' after property name in JSON".
Definition msg_trailing := utf16 "Unexpected non-whitespace character after JSON".
Definition msg_stack := utf16 "Maximum call stack size exceeded".

(** A string literal after its opening quote. *)
Fixpoint parse_string_body (s : jsstring) : presult jsstring :=
  match s with
  | [] => PErr msg_unterminated
  | c :: r =>
      if (c =? 34)%N then POk [] r
      else if (c =? 92)%N then
        match r with
        | [] => PErr msg_unterminated
        | e :: r' =>
            if (e =? 117)%N then
              match r' with
              | h1 :: h2 :: h3 :: h4 :: r'' =>
                  match hex4 h1 h2 h3 h4 with
                  | Some u => pmap (cons u) (parse_string_body r'')
                  | None => PErr msg_unicode
                  end
              | _ => PErr msg_unicode
              end
            else
              match simple_escape e with
              | Some u => pmap (cons u) (parse_string_body r')
              | None => PErr msg_escape
              end
        end
      else if (c <? 0x20)%N then PErr msg_control
      else pmap (cons c) (parse_string_body r)
  end.

(** The rest of a literal name ([true], [false], [null]). *)
Definition expect (word : jsstring) (v : value) (s : jsstring) : presult value :=
  if startsWith s word then POk v (skipn (length word) s)
  else match s with [] => PErr msg_end | _ :: _ => PErr msg_token end.

(** After an opening bracket: is the next token the closing one? *)
Definition closes (closing : code_unit) (s : jsstring) : option jsstring :=
  match skip_ws s with
  | c :: r => if (c =? closing)%N then Some r else None
  | [] => None
  end.

(** The first and the last character a value's text can have. *)
Definition is_value_start (c : code_unit) : bool :=
  ((c =? 123) || (c =? 91) || (c =? 34) || (c =? 116) || (c =? 102)
   || (c =? 110) || (c =? 45) || is_digit c)%N.

Definition is_value_end (c : code_unit) : bool :=
  ((c =? 125) || (c =? 93) || (c =? 34) || (c =? 108) || (c =? 101)
   || is_digit c)%N.

Fixpoint parse_value (fuel : nat) (s : jsstring) : presult value :=
  match fuel with
  | O => POutOfFuel
  | S f =>
      match skip_ws s with
      | [] => PErr msg_end
      | c :: r =>
          if (c =? 123)%N then
            match closes 125%N r with
            | Some r' => POk (VObject []) r'
            | None => pmap (fun ms => VObject (build_object ms)) (parse_members f r)
            end
          else if (c =? 91)%N then
            match closes 93%N r with
            | Some r' => POk (VArray []) r'
            | None => pmap VArray (parse_elements f r)
            end
          else if (c =? 34)%N then pmap VString (parse_string_body r)
          else if (c =? 116)%N then expect (utf16 "rue") (VBoolean true) r
          else if (c =? 102)%N then expect (utf16 "alse") (VBoolean false) r
          else if (c =? 110)%N then expect (utf16 "ull") VNull r
          else if (c =? 45)%N || is_digit c then
            let '(lit, r') := span is_number_char (c :: r) in
            match number_of_literal lit with
            | Some n => POk (VNumber n) r'
            | None => PErr msg_number
            end
          else PErr msg_token
      end
  end

with parse_elements (fuel : nat) (s : jsstring) : presult (list value) :=
  match fuel with
  | O => POutOfFuel
  | S f =>
      match parse_value f s with
      | POk v r =>
          match skip_ws r with
          | [] => PErr msg_end
          | c :: r' =>
              if (c =? 44)%N then pmap (cons v) (parse_elements f r')
              else if (c =? 93)%N then POk [v] r'
              else PErr msg_element
          end
      | PErr msg => PErr msg
      | POutOfFuel => POutOfFuel
      end
  end

with parse_members (fuel : nat) (s : jsstring)
  : presult (list (jsstring * value)) :=
  match fuel with
  | O => POutOfFuel
  | S f =>
      match skip_ws s with
      | [] => PErr msg_end
      | q :: r =>
          if (q =? 34)%N then
            match parse_string_body r with
            | POk k r1 =>
                match skip_ws r1 with
                | [] => PErr msg_end
                | colon :: r2 =>
                    if (colon =? 58)%N then
                      match parse_value f r2 with
                      | POk v r3 =>
                          match skip_ws r3 with
                          | [] => PErr msg_end
                          | c :: r4 =>
                              if (c =? 44)%N then
                                pmap (cons (k, v)) (parse_members f r4)
                              else if (c =? 125)%N then POk [(k, v)] r4
                              else PErr msg_property
                          end
                      | PErr msg => PErr msg
                      | POutOfFuel => POutOfFuel
                      end
                    else PErr msg_colon
                end
            | PErr msg => PErr msg
            | POutOfFuel => POutOfFuel
            end
          else PErr msg_name
      end
  end.

Definition parse_fuel (text : jsstring) : nat := 2 * length text + 2.

(** [JSON.parse(text)] (no reviver): the value, or a SyntaxError. *)
Definition JSON_parse (text : jsstring) : completion value :=
  match parse_value (parse_fuel text) text with
  | POk v rest =>
      match skip_ws rest with
      | [] => Normal v
      | _ :: _ => Throw (ErrorObject SyntaxErrorClass msg_trailing)
      end
  | PErr msg => Throw (ErrorObject SyntaxErrorClass msg)
  | POutOfFuel => Throw (ErrorObject RangeErrorClass msg_stack)
  end.

(* ================================================================== *)
(** * The component: state, effects, handlers *)
(* ================================================================== *)

(** [interface FormatOptions] *)
Record FormatOptions := mkFormatOptions {
  indent : number;
  minify : bool
}.

(** The [useState] cells of [JsonFormatter].  [output] holds what
    [setOutput] was given, which for [JSON.stringify] may be [undefined]
    ([None]); [error] is [string | null]. *)
Record State := mkState {
  input : jsstring;
  output : option jsstring;
  error : option jsstring;
  copied : bool;
  options : FormatOptions
}.

(** Initial values of the cells. *)
Definition initial_state : State :=
  {| input := []; output := Some []; error := None; copied := false;
     options := {| indent := Number_of_Z 2; minify := false |} |}.

(** The calls a run makes to the two built-ins, in order. *)
Inductive call :=
| CallParse (text : jsstring)
| CallStringify (v : value) (space : option number).

Record World := mkWorld {
  react : State;
  calls : list call
}.

(** Computations: they read and write the cells, call the built-ins, and
    complete normally or throw. *)
Definition M (A : Type) : Type := World -> completion A * World.

Definition ret {A} (a : A) : M A := fun w => (Normal a, w).

Definition bind {A B} (m : M A) (k : A -> M B) : M B :=
  fun w =>
    match m w with
    | (Normal a, w') => k a w'
    | (Throw e, w') => (Throw e, w')
    end.

Definition throw {A} (e : thrown) : M A := fun w => (Throw e, w).

(** [try { body } catch (err) { handler }]: what [body] wrote stays. *)
Definition try_catch {A} (body : M A) (handler : thrown -> M A) : M A :=
  fun w =>
    match body w with
    | (Normal a, w') => (Normal a, w')
    | (Throw e, w') => handler e w'
    end.

Declare Scope monad_scope.
Delimit Scope monad_scope with monad.
Notation "x <- m ;; k" := (bind m (fun x => k))
  (at level 61, m at next level, right associativity) : monad_scope.
Notation "m ;;; k" := (bind m (fun _ => k))
  (at level 61, right associativity) : monad_scope.
Local Open Scope monad_scope.

Definition lift {A} (c : completion A) : M A := fun w => (c, w).

Definition record (c : call) : M unit :=
  fun w => (Normal tt, {| react := react w; calls := calls w ++ [c] |}).

Definition modify (f : State -> State) : M unit :=
  fun w => (Normal tt, {| react := f (react w); calls := calls w |}).

Definition read {A} (f : State -> A) : M A :=
  fun w => (Normal (f (react w)), w).

(** The cells, updated. *)
Definition with_input (s : jsstring) (st : State) : State :=
  {| input := s; output := output st; error := error st;
     copied := copied st; options := options st |}.
Definition with_output (s : option jsstring) (st : State) : State :=
  {| input := input st; output := s; error := error st;
     copied := copied st; options := options st |}.
Definition with_error (e : option jsstring) (st : State) : State :=
  {| input := input st; output := output st; error := e;
     copied := copied st; options := options st |}.
Definition with_options (o : FormatOptions) (st : State) : State :=
  {| input := input st; output := output st; error := error st;
     copied := copied st; options := o |}.

Definition setInput (s : jsstring) : M unit := modify (with_input s).
Definition setOutput (s : option jsstring) : M unit := modify (with_output s).
Definition setError (e : option jsstring) : M unit := modify (with_error e).
Definition setOptions (o : FormatOptions) : M unit := modify (with_options o).

(** The built-ins as calls. *)
Definition call_JSON_parse (text : jsstring) : M value :=
  record (CallParse text) ;;; lift (JSON_parse text).

Definition call_JSON_stringify (v : value) (space : option number)
  : M (option jsstring) :=
  record (CallStringify v space) ;;; lift (JSON_stringify v space).

(** The test of the double-encoding heuristic (lines 77-78). *)
Definition looks_like_json (trimmedString : jsstring) : bool :=
  (startsWith trimmedString (utf16 "{") && endsWith trimmedString (utf16 "}"))
  || (startsWith trimmedString (utf16 "[") && endsWith trimmedString (utf16 "]")).

(** [parseJson] (lines 61-96). *)
Definition parseJson (text : jsstring) : M value :=
  try_catch
    (let cleaned := trim text in
     if negb (truthy cleaned) then ret VNull
     else
       parsed <- call_JSON_parse cleaned ;;
       match parsed with
       | VString str =>
           let trimmedString := trim str in
           if looks_like_json trimmedString then
             try_catch (call_JSON_parse trimmedString)
                       (fun _ => ret parsed)
           else ret parsed
       | _ => ret parsed
       end)
    (fun err =>
       if instanceof_SyntaxError err then
         match err with
         | ErrorObject _ message =>
             throw (ErrorObject ErrorClass (utf16 "Invalid JSON: " ++ message))
         | NonError _ => throw err
         end
       else throw err).

(** [formatJson] (lines 98-114). *)
Definition formatJson (text : jsstring) (opts : FormatOptions) : M unit :=
  try_catch
    (setError None ;;;
     parsed <- parseJson text ;;
     if minify opts then
       out <- call_JSON_stringify parsed None ;;
       setOutput out
     else
       out <- call_JSON_stringify parsed (Some (indent opts)) ;;
       setOutput out)
    (fun err =>
       let errorMessage :=
         match err with
         | ErrorObject _ message => message
         | NonError _ => utf16 "Unknown error occurred"
         end in
       setError (Some errorMessage) ;;;
       setOutput (Some [])).

(** [handleInputChange] (lines 116-127); [newInput] is [e.target.value]. *)
Definition handleInputChange (newInput : jsstring) : M unit :=
  options <- read options ;;
  setInput newInput ;;;
  if truthy (trim newInput) then formatJson newInput options
  else
    setOutput (Some []) ;;;
    setError None.

(** [handleFormat] (lines 129-133). *)
Definition handleFormat : M unit :=
  input <- read input ;;
  options <- read options ;;
  if truthy (trim input) then formatJson input options
  else ret tt.

(** [handleClear] (lines 135-139). *)
Definition handleClear : M unit :=
  setInput [] ;;;
  setOutput (Some []) ;;;
  setError None.

(** [handleOptionsChange] (lines 170-176); a [Partial<FormatOptions>] is a
    pair of optional fields. *)
Definition handleOptionsChange
    (newOptions : option number * option bool) : M unit :=
  input <- read input ;;
  options <- read options ;;
  let updatedOptions :=
    {| indent := match fst newOptions with Some i => i | None => indent options end;
       minify := match snd newOptions with Some b => b | None => minify options end |} in
  setOptions updatedOptions ;;;
  if truthy (trim input) then formatJson input updatedOptions
  else ret tt.

(** [isValid] (line 180). *)
Definition isValid (st : State) : bool :=
  match error st, output st with
  | None, Some (_ :: _) => true
  | _, _ => false
  end.

(** The events of the user interface that reach the pipeline. *)
Inductive ui_event :=
| InputChange (newInput : jsstring)
| Format
| Clear
| OptionsChange (newOptions : option number * option bool).

Definition handle (ev : ui_event) : M unit :=
  match ev with
  | InputChange s => handleInputChange s
  | Format => handleFormat
  | Clear => handleClear
  | OptionsChange o => handleOptionsChange o
  end.

(** A run from a fresh world: the result and the final world. *)
Definition fresh (st : State) : World := {| react := st; calls := [] |}.

(* ================================================================== *)
(** * The data model of the specification *)
(* ================================================================== *)

(** Keys in [OrdinaryOwnPropertyKeys] order: array indices ascending, then
    the other keys, none twice. *)
Fixpoint plain_keys (o : list (jsstring * value)) : bool :=
  match o with
  | [] => true
  | (k, _) :: r =>
      match array_index k with
      | Some _ => false
      | None => negb (has_key k r) && plain_keys r
      end
  end.

Fixpoint ordered_from (lo : Z) (o : list (jsstring * value)) : bool :=
  match o with
  | [] => true
  | (k, _) :: r =>
      match array_index k with
      | Some i => (lo <=? i) && ordered_from (i + 1) r
      | None => plain_keys o
      end
  end.

Definition own_property_order (o : list (jsstring * value)) : bool :=
  ordered_from 0 o.

(** ParsedValue: null, a boolean, a number, a string, a sequence of
    ParsedValues, or a mapping from keys to ParsedValues (a plain object,
    so its keys are in own-property order). *)
Fixpoint is_ParsedValue (v : value) : bool :=
  match v with
  | VUndefined | VBigInt _ => false
  | VNull | VBoolean _ | VNumber _ | VString _ => true
  | VArray elems => forallb is_ParsedValue elems
  | VObject props =>
      own_property_order props
      && (fix all (l : list (jsstring * value)) : bool :=
            match l with
            | [] => true
            | (_, e) :: l' => is_ParsedValue e && all l'
            end) props
  end.

(** A number reads back: it is finite and the literal [Number::toString]
    writes for it denotes it again. *)
Definition number_reads_back (n : number) : bool :=
  is_finite n &&
  match number_of_literal (Number_toString n) with
  | Some n' => number_eqb n' n
  | None => false
  end.

(** Every number in the value reads back. *)
Fixpoint reads_back (v : value) : bool :=
  match v with
  | VNumber n => number_reads_back n
  | VArray elems => forallb reads_back elems
  | VObject props =>
      (fix all (l : list (jsstring * value)) : bool :=
         match l with
         | [] => true
         | (_, e) :: l' => reads_back e && all l'
         end) props
  | _ => true
  end.

(** Every number in the value is finite. *)
Fixpoint all_finite (v : value) : bool :=
  match v with
  | VNumber n => is_finite n
  | VArray elems => forallb all_finite elems
  | VObject props =>
      (fix all (l : list (jsstring * value)) : bool :=
         match l with
         | [] => true
         | (_, e) :: l' => all_finite e && all l'
         end) props
  | _ => true
  end.

(** The string [JSON.stringify] returns for a value it can serialize. *)
Definition text_of (indent gap : jsstring) (v : value) : jsstring :=
  match SerializeJSONProperty indent gap v with
  | Normal (Some s) => s
  | _ => []
  end.

(** Number of nodes of a value. *)
Fixpoint size (v : value) : nat :=
  match v with
  | VArray elems => S (list_sum (map size elems))
  | VObject props =>
      S ((fix sum (l : list (jsstring * value)) : nat :=
            match l with
            | [] => O
            | (_, e) :: l' => (size e + sum l')%nat
            end) props)
  | _ => 1%nat
  end.

(** The part of a text that lies outside string literals: the scanner
    tracks whether it is inside a literal and whether the previous
    character was a backslash. *)
Fixpoint outside_strings (in_string escaped : bool) (s : jsstring) : jsstring :=
  match s with
  | [] => []
  | c :: r =>
      if in_string then
        if escaped then outside_strings true false r
        else if (c =? 92)%N then outside_strings true true r
        else if (c =? 34)%N then outside_strings false false r
        else outside_strings true false r
      else if (c =? 34)%N then outside_strings true false r
      else c :: outside_strings false false r
  end.

(** The state of a run from [st] and its result. *)
Definition run_state {A} (m : M A) (st : State) : State :=
  react (snd (m (fresh st))).
Definition run_result {A} (m : M A) (st : State) : completion A :=
  fst (m (fresh st)).
Definition run_calls {A} (m : M A) (st : State) : list call :=
  calls (snd (m (fresh st))).

(** The states the component can be in: those reached from the initial
    state through its handlers. *)
Inductive reachable : State -> Prop :=
| reachable_initial : reachable initial_state
| reachable_step st ev :
    reachable st -> reachable (run_state (handle ev) st).

(** The two loops of [SerializeJSONProperty], on their own. *)
Definition serialize_elements (indent gap : jsstring)
  : list value -> completion (list jsstring) :=
  fix elements (l : list value) : completion (list jsstring) :=
    match l with
    | [] => Normal []
    | e :: l' =>
        match SerializeJSONProperty indent gap e with
        | Throw t => Throw t
        | Normal strP =>
            match elements l' with
            | Throw t => Throw t
            | Normal partial =>
                Normal (match strP with
                        | None => utf16 "null"
                        | Some s => s
                        end :: partial)
            end
        end
    end.

Definition serialize_members (indent gap : jsstring)
  : list (jsstring * value) -> completion (list jsstring) :=
  fix members (l : list (jsstring * value)) : completion (list jsstring) :=
    match l with
    | [] => Normal []
    | (k, e) :: l' =>
        match SerializeJSONProperty indent gap e with
        | Throw t => Throw t
        | Normal strP =>
            match members l' with
            | Throw t => Throw t
            | Normal partial =>
                Normal (match strP with
                        | None => partial
                        | Some s => member_text gap k s :: partial
                        end)
            end
        end
    end.

(* ================================================================== *)
(** * The specification's two components, in its own words *)
(* ================================================================== *)

(** Step 3 of the Normalizer as section 4.1 of the specification words it:
    a string whose trimmed content is bracket-delimited is parsed again;
    success replaces the outer value, failure keeps it. *)
Definition spec_recover (outer : value) : value :=
  match outer with
  | VString str =>
      let trimmed := trim str in
      if looks_like_json trimmed then
        match JSON_parse trimmed with
        | Normal inner => inner
        | Throw _ => outer
        end
      else outer
  | _ => outer
  end.

(** [normalize(raw)] as the specification words it: steps 1 to 3, a
    syntax error of step 2 reported with the prefix, any other error
    passed on. *)
Definition spec_normalize (raw : jsstring) : completion value :=
  match trim raw with
  | [] => Normal VNull
  | cleaned =>
      match JSON_parse cleaned with
      | Normal outer => Normal (spec_recover outer)
      | Throw (ErrorObject SyntaxErrorClass message) =>
          Throw (ErrorObject ErrorClass (utf16 "Invalid JSON: " ++ message))
      | Throw err => Throw err
      end
  end.

(** The Normalizer of the code: the result of [parseJson]. *)
Definition normalize (raw : jsstring) : completion value :=
  run_result (parseJson raw) initial_state.

(** The Formatter of the code: what [formatJson] hands to [setOutput] for
    a parsed value (lines 104-108). *)
Definition format (v : value) (opts : FormatOptions)
  : completion (option jsstring) :=
  if minify opts then JSON_stringify v None
  else JSON_stringify v (Some (indent opts)).

(** A world with more calls logged. *)
Definition logged (w : World) (cs : list call) : World :=
  {| react := react w; calls := calls w ++ cs |}.

(** What [parseJson] throws for what [JSON.parse] threw (lines 90-95). *)
Definition rethrown (err : thrown) : thrown :=
  match err with
  | ErrorObject SyntaxErrorClass message =>
      ErrorObject ErrorClass (utf16 "Invalid JSON: " ++ message)
  | _ => err
  end.

(** The calls [parseJson] makes after a first parse that gave [outer]. *)
Definition recovery_calls (outer : value) : list call :=
  match outer with
  | VString str =>
      if looks_like_json (trim str) then [CallParse (trim str)] else []
  | _ => []
  end.

(** The result of [parseJson] and the calls it makes, from a fresh world. *)
Definition parseJson_outcome (text : jsstring) : completion value * list call :=
  (run_result (parseJson text) initial_state,
   run_calls (parseJson text) initial_state).

(** The [space] argument [formatJson] passes to [JSON.stringify]. *)
Definition space_of (opts : FormatOptions) : option number :=
  if minify opts then None else Some (indent opts).

(** [errorMessage] of line 110. *)
Definition errorMessage (err : thrown) : jsstring :=
  match err with
  | ErrorObject _ message => message
  | NonError _ => utf16 "Unknown error occurred"
  end.

(** The world [formatJson] leaves. *)
Definition formatJson_world (text : jsstring) (opts : FormatOptions)
    (w : World) : World :=
  match parseJson_outcome text with
  | (Normal parsed, cs) =>
      match format parsed opts with
      | Normal out =>
          {| react := with_output out (with_error None (react w));
             calls := calls w ++ cs ++ [CallStringify parsed (space_of opts)] |}
      | Throw err =>
          {| react := with_output (Some [])
                        (with_error (Some (errorMessage err))
                           (with_error None (react w)));
             calls := calls w ++ cs ++ [CallStringify parsed (space_of opts)] |}
      end
  | (Throw err, cs) =>
      {| react := with_output (Some [])
                    (with_error (Some (errorMessage err))
                       (with_error None (react w)));
         calls := calls w ++ cs |}
  end.

(** What may follow a value without being swallowed by a number. *)
Definition follow_ok (rest : jsstring) : Prop :=
  match rest with
  | [] => True
  | c :: _ => is_number_char c = false
  end.

(** A non-empty array or object. *)
Definition nonempty_structure (v : value) : bool :=
  match v with
  | VArray (_ :: _) | VObject (_ :: _) => true
  | _ => false
  end.

Definition spaces (n : nat) : jsstring := repeat 32%N n.

(** Pretty-printing as section 4.2 of the specification words it: each
    member of an array or object on a line of its own, indented by [n]
    spaces per nesting level ([d] is the level of the value itself); keys
    and elements in the order the value holds them. *)
Definition pretty_line (n d : nat) (s : jsstring) : jsstring :=
  spaces (n * S d) ++ s.

Definition pretty_block (n d : nat) (opening closing : code_unit)
    (lines : list jsstring) : jsstring :=
  match lines with
  | [] => [opening; closing]
  | _ :: _ =>
      opening :: 10%N :: join [44%N; 10%N] lines
        ++ 10%N :: spaces (n * d) ++ [closing]
  end.

Fixpoint spec_pretty (n d : nat) (v : value) : jsstring :=
  match v with
  | VArray elems =>
      pretty_block n d 91%N 93%N
        (map (fun e => pretty_line n d (spec_pretty n (S d) e)) elems)
  | VObject props =>
      pretty_block n d 123%N 125%N
        ((fix members (l : list (jsstring * value)) : list jsstring :=
            match l with
            | [] => []
            | (k, e) :: l' =>
                pretty_line n d
                  (QuoteJSONString k ++ utf16 ": " ++ spec_pretty n (S d) e)
                  :: members l'
            end) props)
  | _ => text_of [] [] v
  end.

(** A JSON string literal with ASCII content that needs no escape. *)
Definition quoted (s : string) : jsstring := 34%N :: utf16 s ++ [34%N].

(** The world [handleInputChange] leaves. *)
Definition handleInputChange_world (newInput : jsstring) (w : World) : World :=
  if truthy (trim newInput) then
    formatJson_world newInput (options (react w))
      {| react := with_input newInput (react w); calls := calls w |}
  else
    {| react := with_error None
                  (with_output (Some []) (with_input newInput (react w)));
       calls := calls w |}.

(** A text is compact when nothing outside its string literals is white
    space (and it ends outside a literal). *)
Definition compact (s : jsstring) : Prop :=
  exists t,
    forallb (fun c => negb (is_json_ws c)) t = true
    /\ forall r, outside_strings false false (s ++ r)
                 = t ++ outside_strings false false r.

(** The text of one value: it starts and ends with characters a value can
    start and end with. *)
Definition value_text (pre : jsstring) : Prop :=
  exists c t, pre = c :: t /\ is_value_start c = true
              /\ is_value_end (last pre 0%N) = true.

(** A value is read back at indentation [i] with gap [g]: the parser,
    given enough fuel and the value's text followed by [rest], returns the
    value and [rest]. *)
Definition reads (i g : jsstring) (e : value) : Prop :=
  forall fuel rest, (2 * size e <= S fuel)%nat -> follow_ok rest ->
  parse_value fuel (text_of i g e ++ rest) = POk e rest.

(* ================================================================== *)
(** * What the component shows *)
(* ================================================================== *)

(** The output and the error [formatJson] leaves for a text and options
    (from the initial cells; they do not depend on the cells). *)
Definition shown (text : jsstring) (opts : FormatOptions)
  : option jsstring * option jsstring :=
  (output (run_state (formatJson text opts) initial_state),
   error (run_state (formatJson text opts) initial_state)).

(** What the two panes should hold for the current input and options:
    nothing for a blank input, the result of [formatJson] otherwise. *)
Definition expected_display (st : State) : option jsstring * option jsstring :=
  if truthy (trim (input st)) then shown (input st) (options st)
  else (Some [], None).

(** An array or an object. *)
Definition is_structure (v : value) : bool :=
  match v with
  | VArray _ | VObject _ => true
  | _ => false
  end.

(** Not a control character. *)
Definition printable (c : code_unit) : bool := (32 <=? c)%N.

(* ================================================================== *)
(** * The copy and download buttons *)
(* ================================================================== *)

Definition with_copied (b : bool) (st : State) : State :=
  {| input := input st; output := output st; error := error st;
     copied := b; options := options st |}.

(** What the two handlers do outside the cells: the text handed to
    [navigator.clipboard.writeText], and the file offered through the
    temporary anchor (its [download] name and the text put in the Blob). *)
Inductive effect :=
| ClipboardWrite (text : jsstring)
| FileDownload (name text : jsstring).

Definition effect_text (e : effect) : jsstring :=
  match e with
  | ClipboardWrite text => text
  | FileDownload _ text => text
  end.

(** The page: the cells, the clipboard writes whose promise has not
    settled yet, the [setTimeout] callbacks of line 147 not yet run, and
    the effects so far. *)
Record Page := mkPage {
  view : State;
  awaiting : nat;
  timers : nat;
  effects : list effect
}.

Definition initial_page : Page :=
  {| view := initial_state; awaiting := 0; timers := 0; effects := [] |}.

(** [handleCopy] (lines 141-154) up to its [await]: the test of [output]
    and the call of [writeText]. *)
Definition handleCopy (p : Page) : Page :=
  match output (view p) with
  | Some (c :: t) =>
      {| view := view p; awaiting := S (awaiting p); timers := timers p;
         effects := effects p ++ [ClipboardWrite (c :: t)] |}
  | _ => p
  end.

(** [handleCopy] after its [await]: lines 145-149 when the promise is
    fulfilled, line 151 when it is rejected. *)
Definition handleCopy_settled (fulfilled : bool) (p : Page) : Page :=
  if fulfilled then
    {| view := with_copied true (view p); awaiting := pred (awaiting p);
       timers := S (timers p); effects := effects p |}
  else
    {| view := with_error (Some (utf16 "Failed to copy to clipboard")) (view p);
       awaiting := pred (awaiting p); timers := timers p;
       effects := effects p |}.

(** The callback of line 147. *)
Definition handleCopy_timeout (p : Page) : Page :=
  {| view := with_copied false (view p); awaiting := awaiting p;
     timers := pred (timers p); effects := effects p |}.

(** [handleDownload] (lines 156-168): the anchor is created, clicked and
    removed, and the URL revoked, within the handler; what remains is the
    file offered. *)
Definition handleDownload (p : Page) : Page :=
  match output (view p) with
  | Some (c :: t) =>
      {| view := view p; awaiting := awaiting p; timers := timers p;
         effects := effects p ++ [FileDownload (utf16 "formatted.json") (c :: t)] |}
  | _ => p
  end.

(** Everything that can happen to the page: an event of the pipeline, a
    click on one of the two buttons, the clipboard promise settling, a
    timer running. *)
Inductive page_event :=
| Ui (ev : ui_event)
| CopyClick
| ClipboardSettled (fulfilled : bool)
| CopyTimeout
| DownloadClick.

(** One step; [None] when the event cannot happen (no promise to settle,
    no timer to run). *)
Definition page_step (ev : page_event) (p : Page) : option Page :=
  match ev with
  | Ui e =>
      Some {| view := run_state (handle e) (view p); awaiting := awaiting p;
              timers := timers p; effects := effects p |}
  | CopyClick => Some (handleCopy p)
  | ClipboardSettled fulfilled =>
      match awaiting p with
      | O => None
      | S _ => Some (handleCopy_settled fulfilled p)
      end
  | CopyTimeout =>
      match timers p with
      | O => None
      | S _ => Some (handleCopy_timeout p)
      end
  | DownloadClick => Some (handleDownload p)
  end.

Inductive page_reachable : Page -> Prop :=
| page_reachable_initial : page_reachable initial_page
| page_reachable_step p ev p' :
    page_reachable p -> page_step ev p = Some p' -> page_reachable p'.

(** The run of a list of events, while they can happen. *)
Fixpoint page_run (evs : list page_event) (p : Page) : option Page :=
  match evs with
  | [] => Some p
  | ev :: evs' =>
      match page_step ev p with
      | Some p' => page_run evs' p'
      | None => None
      end
  end.

(* ================================================================== *)
(** * Object literals *)
(* ================================================================== *)

(** The value of a property: the first entry with the key. *)
Fixpoint get_property (k : jsstring) (o : list (jsstring * value))
  : option value :=
  match o with
  | [] => None
  | (k', v) :: r => if jsstring_eqb k k' then Some v else get_property k r
  end.

(** The compact text of an object literal whose members are [ms], in this
    order: the keys may come in any order and may repeat. *)
Definition object_literal (ms : list (jsstring * value)) : jsstring :=
  wrap_partial 123%N 125%N [] [] []
    (map (fun m => member_text [] (fst m) (text_of [] [] (snd m))) ms).

(* ================================================================== *)
(** * Safe integers *)
(* ================================================================== *)

(** The integer a Number stands for when it is one (its value rounded
    towards zero otherwise). *)
Definition integer_part (n : number) : Z :=
  match n with
  | S754_finite s m e =>
      let a := if 0 <=? e then Zpos m * 2 ^ e else Zpos m / 2 ^ (- e) in
      if s then - a else a
  | _ => 0
  end.

(** [Number.isSafeInteger]: the Number of an integer of absolute value
    below [2^53] (negative zero is not one). *)
Definition safe_integer (n : number) : bool :=
  number_eqb (Number_of_Z (integer_part n)) n
  && (Z.abs (integer_part n) <? 2 ^ 53).

(** Every number in the value is a safe integer. *)
Fixpoint safe_integers (v : value) : bool :=
  match v with
  | VNumber n => safe_integer n
  | VArray elems => forallb safe_integers elems
  | VObject props =>
      (fix all (l : list (jsstring * value)) : bool :=
         match l with
         | [] => true
         | (_, e) :: l' => safe_integers e && all l'
         end) props
  | _ => true
  end.

(* ================================================================== *)
(** * Well-formed strings *)
(* ================================================================== *)

(** [String.prototype.isWellFormed]: no lone surrogate. *)
Fixpoint isWellFormed (s : jsstring) : bool :=
  match s with
  | [] => true
  | c :: t =>
      if is_high_surrogate c then
        match t with
        | d :: t' => is_low_surrogate d && isWellFormed t'
        | [] => false
        end
      else negb (is_low_surrogate c) && isWellFormed t
  end.

(* ================================================================== *)
(** * Strings: equality, white space, trimming *)
(* ================================================================== *)

Lemma jsstring_eqb_eq (a b : jsstring) : jsstring_eqb a b = true <-> a = b.
Proof.
  revert b; induction a as [|x a IH]; intros [|y b]; simpl; split;
    try congruence; try reflexivity.
  - intros H. apply andb_true_iff in H as [Hx Hab].
    apply N.eqb_eq in Hx. apply IH in Hab. congruence.
  - intros H. injection H as -> ->. rewrite N.eqb_refl. simpl.
    apply IH. reflexivity.
Qed.

Lemma jsstring_eqb_refl (a : jsstring) : jsstring_eqb a a = true.
Proof. apply jsstring_eqb_eq. reflexivity. Qed.

Lemma jsstring_eqb_neq (a b : jsstring) : jsstring_eqb a b = false <-> a <> b.
Proof.
  split.
  - intros H E. apply jsstring_eqb_eq in E. congruence.
  - intros H. destruct (jsstring_eqb a b) eqn:E; [|reflexivity].
    apply jsstring_eqb_eq in E. contradiction.
Qed.

Lemma json_ws_is_js_whitespace (c : code_unit) :
  is_json_ws c = true -> is_js_whitespace c = true.
Proof.
  unfold is_json_ws, is_js_whitespace. intros H.
  repeat (apply orb_true_iff in H as [H|H]);
    apply N.eqb_eq in H; subst c; reflexivity.
Qed.

Lemma skip_ws_app (ws s : jsstring) :
  forallb is_json_ws ws = true -> skip_ws (ws ++ s) = skip_ws s.
Proof.
  induction ws as [|c ws IH]; simpl; [reflexivity|].
  intros H. apply andb_true_iff in H as [Hc Hws]. rewrite Hc. auto.
Qed.

Lemma skip_ws_stop (c : code_unit) (s : jsstring) :
  is_json_ws c = false -> skip_ws (c :: s) = c :: s.
Proof. simpl. intros ->. reflexivity. Qed.

Lemma skip_ws_length (s : jsstring) : (length (skip_ws s) <= length s)%nat.
Proof.
  induction s as [|c s IH]; simpl; [lia|].
  destruct (is_json_ws c); simpl; lia.
Qed.

Lemma skip_ws_idem (s : jsstring) : skip_ws (skip_ws s) = skip_ws s.
Proof.
  induction s as [|c s IH]; simpl; [reflexivity|].
  destruct (is_json_ws c) eqn:E; [assumption|]. simpl. rewrite E. reflexivity.
Qed.

Lemma forallb_repeat_space (n : nat) : forallb is_json_ws (repeat 32%N n) = true.
Proof. induction n; simpl; auto. Qed.

Lemma trimStart_stop (c : code_unit) (s : jsstring) :
  is_js_whitespace c = false -> trimStart (c :: s) = c :: s.
Proof. simpl. intros ->. reflexivity. Qed.

Lemma trimStart_whitespace (s : jsstring) :
  forallb is_js_whitespace s = true -> trimStart s = [].
Proof.
  induction s as [|c s IH]; simpl; [reflexivity|].
  intros H. apply andb_true_iff in H as [-> H]. auto.
Qed.

(** [trim] leaves a text alone when its first and last characters are not
    white space. *)
Lemma trim_fixed (c d : code_unit) (s : jsstring) :
  is_js_whitespace c = false -> is_js_whitespace d = false ->
  trim (c :: s ++ [d]) = c :: s ++ [d].
Proof.
  intros Hc Hd. unfold trim, trimEnd. rewrite trimStart_stop by assumption.
  assert (E : rev (c :: s ++ [d]) = d :: rev (c :: s)).
  { change (c :: s ++ [d]) with ((c :: s) ++ [d]).
    rewrite rev_app_distr. reflexivity. }
  rewrite E, trimStart_stop by assumption. rewrite <- E.
  apply rev_involutive.
Qed.

Lemma trim_single (c : code_unit) :
  is_js_whitespace c = false -> trim [c] = [c].
Proof.
  intros Hc. unfold trim, trimEnd. rewrite trimStart_stop by assumption.
  simpl rev at 2. rewrite trimStart_stop by assumption. reflexivity.
Qed.

(** White-space-only input trims to the empty string. *)
Lemma trim_whitespace (s : jsstring) :
  forallb is_js_whitespace s = true -> trim s = [].
Proof.
  intros H. unfold trim. rewrite trimStart_whitespace by assumption.
  reflexivity.
Qed.

Lemma trimStart_nil_whitespace (s : jsstring) :
  trimStart s = [] -> forallb is_js_whitespace s = true.
Proof.
  induction s as [|c s IH]; simpl; [reflexivity|].
  destruct (is_js_whitespace c); [auto|discriminate].
Qed.

Lemma trimStart_suffix (s : jsstring) :
  exists ws, s = ws ++ trimStart s /\ forallb is_js_whitespace ws = true.
Proof.
  induction s as [|c s [ws [E H]]]; simpl.
  - exists []. auto.
  - destruct (is_js_whitespace c) eqn:Hc.
    + exists (c :: ws). simpl. rewrite Hc, H. split; [congruence|reflexivity].
    + exists []. auto.
Qed.

(** Conversely, a text that trims to the empty string is white space only. *)
Lemma trim_nil_whitespace (s : jsstring) :
  trim s = [] -> forallb is_js_whitespace s = true.
Proof.
  unfold trim, trimEnd. intros H.
  assert (H1 : trimStart (rev (trimStart s)) = []).
  { rewrite <- (rev_involutive (trimStart (rev (trimStart s)))), H.
    reflexivity. }
  apply trimStart_nil_whitespace in H1.
  destruct (trimStart_suffix s) as [ws [E Hws]].
  rewrite E, forallb_app, Hws. simpl.
  apply forallb_forall. intros x Hx.
  rewrite forallb_forall in H1. apply H1. apply in_rev in Hx. exact Hx.
Qed.


(* ================================================================== *)
(** * String literals: [QuoteJSONString] is read back by the parser *)
(* ================================================================== *)


Ltac bool_to_prop :=
  repeat match goal with
  | H : (_ && _)%bool = true |- _ => apply andb_true_iff in H as [? ?]
  | H : (_ || _)%bool = false |- _ => apply orb_false_iff in H as [? ?]
  | H : negb _ = true |- _ => apply negb_true_iff in H
  | H : negb _ = false |- _ => apply negb_false_iff in H
  | H : (_ =? _)%N = true |- _ => apply N.eqb_eq in H
  | H : (_ =? _)%N = false |- _ => apply N.eqb_neq in H
  | H : (_ <=? _)%N = true |- _ => apply N.leb_le in H
  | H : (_ <=? _)%N = false |- _ => apply N.leb_gt in H
  | H : (_ <? _)%N = true |- _ => apply N.ltb_lt in H
  | H : (_ <? _)%N = false |- _ => apply N.ltb_ge in H
  | H : (_ =? _)%Z = true |- _ => apply Z.eqb_eq in H
  | H : (_ =? _)%Z = false |- _ => apply Z.eqb_neq in H
  | H : (_ <=? _)%Z = true |- _ => apply Z.leb_le in H
  | H : (_ <=? _)%Z = false |- _ => apply Z.leb_gt in H
  | H : (_ <? _)%Z = true |- _ => apply Z.ltb_lt in H
  | H : (_ <? _)%Z = false |- _ => apply Z.ltb_ge in H
  end.

(** Split on the comparisons of code units that appear in the goal. *)
Ltac case_units :=
  repeat match goal with
  | |- context [(?a =? ?b)%N] =>
      let E := fresh "E" in destruct (a =? b)%N eqn:E
  | |- context [(?a <=? ?b)%N] =>
      let E := fresh "E" in destruct (a <=? b)%N eqn:E
  | |- context [(?a <? ?b)%N] =>
      let E := fresh "E" in destruct (a <? b)%N eqn:E
  end.

(** Settle the comparisons of code units that the hypotheses decide. *)
Ltac settle_units :=
  repeat match goal with
  | |- context [(?a =? ?b)%N] =>
      first [ replace (a =? b)%N with false by (symmetry; apply N.eqb_neq; lia)
            | replace (a =? b)%N with true by (symmetry; apply N.eqb_eq; lia) ]
  | |- context [(?a <=? ?b)%N] =>
      first [ replace (a <=? b)%N with false by (symmetry; apply N.leb_gt; lia)
            | replace (a <=? b)%N with true by (symmetry; apply N.leb_le; lia) ]
  | |- context [(?a <? ?b)%N] =>
      first [ replace (a <? b)%N with false by (symmetry; apply N.ltb_ge; lia)
            | replace (a <? b)%N with true by (symmetry; apply N.ltb_lt; lia) ]
  end.

Lemma hex_value_hex_char (d : N) :
  (d < 16)%N -> hex_value (hex_char d) = Some d.
Proof.
  intros H. unfold hex_value, hex_char.
  case_units; cbn [andb]; bool_to_prop; try lia; f_equal; lia.
Qed.

Lemma hex_digits_sum (c : N) : (c < 65536)%N -> ((c / 4096) mod 16 * 4096 + (c / 256) mod 16 * 256 + (c / 16) mod 16 * 16 + c mod 16 = c)%N.
Proof.
  intros H.
  pose proof (N.div_mod' c 16) as A0.
  pose proof (N.div_mod' (c / 16) 16) as A1.
  pose proof (N.div_mod' (c / 256) 16) as A2.
  rewrite N.Div0.div_div in A1. rewrite N.Div0.div_div in A2.
  change (16 * 16)%N with 256%N in A1. change (256 * 16)%N with 4096%N in A2.
  assert (A3 : ((c / 4096) mod 16 = c / 4096)%N).
  { apply N.mod_small. apply N.Div0.div_lt_upper_bound. exact H. }
  rewrite A3.
  set (a := (c / 4096)%N) in *. set (b := (c / 256)%N) in *. set (d := (c / 16)%N) in *.
  set (b' := (b mod 16)%N) in *. set (d' := (d mod 16)%N) in *. set (e' := (c mod 16)%N) in *.
  clearbody a b d b' d' e'. lia.
Qed.

Lemma hex4_UnicodeEscape (c : code_unit) :
  (c < 65536)%N ->
  hex4 (hex_char ((c / 4096) mod 16)) (hex_char ((c / 256) mod 16))
       (hex_char ((c / 16) mod 16)) (hex_char (c mod 16)) = Some c.
Proof.
  intros H. unfold hex4.
  rewrite !hex_value_hex_char by (apply N.mod_lt; discriminate).
  f_equal. apply hex_digits_sum. assumption.
Qed.

Lemma parse_literal_unit (c : code_unit) (t : jsstring) :
  c <> 34%N -> c <> 92%N -> (32 <= c)%N ->
  parse_string_body (c :: t) = pmap (cons c) (parse_string_body t).
Proof.
  intros H1 H2 H3. simpl.
  apply N.eqb_neq in H1. apply N.eqb_neq in H2. rewrite H1, H2.
  destruct (c <? 32)%N eqn:E; [apply N.ltb_lt in E; lia|reflexivity].
Qed.

Lemma parse_UnicodeEscape (c : code_unit) (t : jsstring) :
  (c < 65536)%N ->
  parse_string_body (UnicodeEscape c ++ t)
  = pmap (cons c) (parse_string_body t).
Proof.
  intros H. unfold UnicodeEscape.
  cbn [app parse_string_body]. change (92 =? 34)%N with false.
  change (92 =? 92)%N with true. change (117 =? 117)%N with true.
  cbv iota. rewrite hex4_UnicodeEscape by assumption. reflexivity.
Qed.

Lemma parse_escape_unit (c : code_unit) (t : jsstring) :
  parse_string_body (escape_unit c ++ t)
  = pmap (cons c) (parse_string_body t).
Proof.
  unfold escape_unit.
  destruct (c =? 8)%N eqn:E8; [apply N.eqb_eq in E8; subst c; reflexivity|].
  destruct (c =? 9)%N eqn:E9; [apply N.eqb_eq in E9; subst c; reflexivity|].
  destruct (c =? 10)%N eqn:E10; [apply N.eqb_eq in E10; subst c; reflexivity|].
  destruct (c =? 12)%N eqn:E12; [apply N.eqb_eq in E12; subst c; reflexivity|].
  destruct (c =? 13)%N eqn:E13; [apply N.eqb_eq in E13; subst c; reflexivity|].
  destruct (c =? 34)%N eqn:E34; [apply N.eqb_eq in E34; subst c; reflexivity|].
  destruct (c =? 92)%N eqn:E92; [apply N.eqb_eq in E92; subst c; reflexivity|].
  destruct (c <? 32)%N eqn:E32; bool_to_prop.
  - apply parse_UnicodeEscape. lia.
  - apply parse_literal_unit; assumption.
Qed.

Lemma parse_quote_units_bounded (n : nat) :
  forall s rest, (length s <= n)%nat ->
  parse_string_body (quote_units s ++ 34%N :: rest) = POk s rest.
Proof.
  induction n as [|n IH]; intros s rest Hn.
  - destruct s; [reflexivity|simpl in Hn; lia].
  - destruct s as [|c r]; [reflexivity|].
    simpl in Hn. cbn [quote_units].
    destruct (is_high_surrogate c) eqn:Hh.
    + unfold is_high_surrogate in Hh. bool_to_prop.
      destruct r as [|d r'].
      * rewrite parse_UnicodeEscape by lia. reflexivity.
      * destruct (is_low_surrogate d) eqn:Hl.
        -- unfold is_low_surrogate in Hl. bool_to_prop.
           cbn [app]. rewrite parse_literal_unit by lia.
           rewrite parse_literal_unit by lia.
           rewrite IH by (simpl in Hn; lia). reflexivity.
        -- rewrite <- app_assoc, parse_UnicodeEscape by lia.
           rewrite IH by lia. reflexivity.
    + destruct (is_low_surrogate c) eqn:Hl.
      * unfold is_low_surrogate in Hl. bool_to_prop.
        rewrite <- app_assoc, parse_UnicodeEscape by lia.
        rewrite IH by lia. reflexivity.
      * rewrite <- app_assoc, parse_escape_unit.
        rewrite IH by lia. reflexivity.
Qed.

(** The parser reads a quoted string back, whatever follows it. *)
Lemma parse_quote_units (s rest : jsstring) :
  parse_string_body (quote_units s ++ 34%N :: rest) = POk s rest.
Proof. apply (parse_quote_units_bounded (length s)). lia. Qed.


(* ================================================================== *)
(** * Number literals *)
(* ================================================================== *)

Lemma span_spec (p : code_unit -> bool) (s a b : jsstring) :
  span p s = (a, b) ->
  s = a ++ b /\ forallb p a = true
  /\ match b with [] => True | c :: _ => p c = false end.
Proof.
  revert a b; induction s as [|c s IH]; simpl; intros a b H.
  - injection H as <- <-. auto.
  - destruct (p c) eqn:Hc.
    + destruct (span p s) as [a' b'] eqn:E. injection H as <- <-.
      destruct (IH _ _ eq_refl) as (-> & Ha & Hb).
      simpl. rewrite Hc, Ha. auto.
    + injection H as <- <-. simpl. auto.
Qed.

Lemma span_app (p : code_unit -> bool) (a rest : jsstring) :
  forallb p a = true ->
  match rest with [] => True | c :: _ => p c = false end ->
  span p (a ++ rest) = (a, rest).
Proof.
  intros Ha Hr. induction a as [|c a IH]; simpl in *.
  - destruct rest as [|c r]; [reflexivity|]. simpl. rewrite Hr. reflexivity.
  - apply andb_true_iff in Ha as [Hc Ha]. rewrite Hc, IH by assumption.
    reflexivity.
Qed.

Lemma digit_is_number_char (c : code_unit) :
  is_digit c = true -> is_number_char c = true.
Proof. unfold is_number_char. intros ->. reflexivity. Qed.

Lemma digits_are_number_chars (ds : jsstring) :
  forallb is_digit ds = true -> forallb is_number_char ds = true.
Proof.
  induction ds as [|c ds IH]; simpl; [reflexivity|].
  intros H. apply andb_true_iff in H as [Hc H].
  rewrite digit_is_number_char, IH by assumption. reflexivity.
Qed.

Lemma last_app_digits (pre ds : jsstring) :
  ds <> [] -> forallb is_digit ds = true ->
  is_digit (last (pre ++ ds) 0%N) = true.
Proof.
  intros Hne Hds.
  destruct (exists_last Hne) as (ds' & d & ->).
  rewrite app_assoc, last_last.
  rewrite forallb_app in Hds. apply andb_true_iff in Hds as [_ Hd].
  simpl in Hd. apply andb_true_iff in Hd as [Hd _]. exact Hd.
Qed.

Lemma json_int_part_spec (s ip r : jsstring) :
  json_int_part s = Some (ip, r) ->
  s = ip ++ r /\ ip <> [] /\ forallb is_digit ip = true.
Proof.
  unfold json_int_part. destruct (span is_digit s) as [a b] eqn:E.
  apply span_spec in E as (-> & Ha & _).
  intros H. destruct a as [|d [|d' a]]; [discriminate| |].
  - injection H as <- <-. repeat split; [discriminate|assumption].
  - destruct (d =? 48)%N; [discriminate|]. injection H as <- <-.
    repeat split; [discriminate|assumption].
Qed.

Lemma json_frac_part_spec (s fp r : jsstring) :
  json_frac_part s = Some (fp, r) ->
  (fp = [] /\ s = r)
  \/ (s = 46%N :: fp ++ r /\ fp <> [] /\ forallb is_digit fp = true).
Proof.
  unfold json_frac_part. intros H.
  assert (D : (exists t, s = 46%N :: t) \/ json_frac_part s = Some ([], s)).
  { destruct s as [|c t]; [right; reflexivity|].
    destruct (N.eq_dec c 46) as [->|Hc]; [left; eauto|right].
    unfold json_frac_part.
    destruct c as [|p]; [reflexivity|].
    do 6 (destruct p as [p|p|]; try reflexivity). congruence. }
  destruct D as [[t ->]|D].
  - destruct (span is_digit t) as [a b] eqn:E.
    apply span_spec in E as (-> & Ha & _).
    destruct a as [|d a]; [discriminate|]. injection H as <- <-.
    right. repeat split; [discriminate|assumption].
  - unfold json_frac_part in D. rewrite D in H. injection H as <- <-.
    left. auto.
Qed.

Lemma json_exp_digits_spec (neg : bool) (s : jsstring) (ex : Z) :
  json_exp_digits neg s = Some ex -> s <> [] /\ forallb is_digit s = true.
Proof.
  unfold json_exp_digits. destruct (span is_digit s) as [a b] eqn:E.
  apply span_spec in E as (-> & Ha & _).
  destruct a as [|d a]; [discriminate|]. destruct b; [|discriminate].
  intros _. rewrite app_nil_r. split; [discriminate|assumption].
Qed.

Lemma json_exp_part_spec (s : jsstring) (ex : Z) :
  json_exp_part s = Some ex ->
  s = [] \/ exists pre ds, s = pre ++ ds /\ ds <> []
                           /\ forallb is_digit ds = true
                           /\ forallb is_number_char pre = true.
Proof.
  destruct s as [|c r]; [auto|]. simpl. intros H. right.
  destruct ((c =? 101)%N || (c =? 69)%N) eqn:Hc; [|discriminate].
  assert (Hc' : is_number_char c = true).
  { unfold is_number_char. apply orb_true_iff in Hc as [Hc|Hc];
      rewrite Hc; rewrite ?orb_true_r; reflexivity. }
  assert (D : (exists t, r = 43%N :: t /\ json_exp_digits false t = Some ex)
              \/ (exists t, r = 45%N :: t /\ json_exp_digits true t = Some ex)
              \/ json_exp_digits false r = Some ex).
  { destruct r as [|d t]; [right; right; exact H|].
    destruct (N.eq_dec d 43) as [->|H43]; [left; eauto|].
    destruct (N.eq_dec d 45) as [->|H45]; [right; left; eauto|].
    right; right. revert H.
    destruct d as [|p]; [auto|].
    do 6 (destruct p as [p|p|]; auto); congruence. }
  destruct D as [(t & -> & D)|[(t & -> & D)|D]];
    apply json_exp_digits_spec in D as [Hne Hds].
  - exists [c; 43%N], t. simpl. rewrite Hc'. auto.
  - exists [c; 45%N], t. simpl. rewrite Hc'. auto.
  - exists [c], r. simpl. rewrite Hc'. auto.
Qed.

(** What a text accepted as a number literal looks like: it starts with a
    minus sign or a digit, ends with a digit, and is made of the characters
    of numbers. *)
Lemma number_of_literal_shape (s : jsstring) (n : number) :
  number_of_literal s = Some n ->
  (exists c r, s = c :: r /\ (c = 45%N \/ is_digit c = true))
  /\ forallb is_number_char s = true
  /\ is_digit (last s 0%N) = true.
Proof.
  unfold number_of_literal. intros H.
  assert (D : exists sign s1,
             s = sign ++ s1 /\ (sign = [] \/ sign = [45%N])
             /\ exists ip s2, json_int_part s1 = Some (ip, s2)
             /\ exists fp s3, json_frac_part s2 = Some (fp, s3)
             /\ exists ex, json_exp_part s3 = Some ex).
  { assert (D : (exists t, s = 45%N :: t) \/
                (let '(neg, s1) := match s with 45%N :: r => (true, r) | _ => (false, s) end in
                 s1) = s /\ (let '(neg, s1) := match s with 45%N :: r => (true, r) | _ => (false, s) end in neg) = false).
    { destruct s as [|c t]; [right; auto|].
      destruct (N.eq_dec c 45) as [->|Hc]; [left; eauto|right].
      destruct c as [|p]; [auto|].
      do 6 (destruct p as [p|p|]; auto); congruence. }
    destruct D as [[t ->]|[D1 D2]].
    - exists [45%N], t. split; [reflexivity|]. split; [auto|].
      destruct (json_int_part t) as [[ip s2]|]; [|discriminate].
      exists ip, s2. split; [reflexivity|].
      destruct (json_frac_part s2) as [[fp s3]|]; [|discriminate].
      exists fp, s3. split; [reflexivity|].
      destruct (json_exp_part s3) as [ex|]; [|discriminate]. eauto.
    - exists [], s. split; [reflexivity|]. split; [auto|].
      destruct (match s with 45%N :: r => (true, r) | _ => (false, s) end)
        as [neg s1]. subst s1.
      destruct (json_int_part s) as [[ip s2]|]; [|discriminate].
      exists ip, s2. split; [reflexivity|].
      destruct (json_frac_part s2) as [[fp s3]|]; [|discriminate].
      exists fp, s3. split; [reflexivity|].
      destruct (json_exp_part s3) as [ex|]; [|discriminate]. eauto. }
  clear H.
  destruct D as (sign & s1 & -> & Hsign & ip & s2 & Hip & fp & s3 & Hfp & ex & Hex).
  apply json_int_part_spec in Hip as (-> & Hipne & Hipd).
  apply json_frac_part_spec in Hfp.
  apply json_exp_part_spec in Hex.
  assert (Hsignc : forallb is_number_char sign = true)
    by (destruct Hsign as [->| ->]; reflexivity).
  assert (Hhead : exists c r, sign ++ ip ++ s2 = c :: r
                              /\ (c = 45%N \/ is_digit c = true)).
  { destruct Hsign as [->| ->].
    - destruct ip as [|d ip]; [congruence|]. simpl in Hipd.
      apply andb_true_iff in Hipd as [Hd _]. simpl. eauto.
    - simpl. eauto. }
  split; [exact Hhead|]. clear Hhead.
  pose proof (digits_are_number_chars _ Hipd) as Hipc.
  destruct Hfp as [[-> ->]|(-> & Hfpne & Hfpd)].
  - destruct Hex as [->|(pre & ds & -> & Hne & Hds & Hpre)].
    + rewrite app_nil_r. split.
      * rewrite forallb_app, Hsignc, Hipc. reflexivity.
      * apply last_app_digits; assumption.
    + split.
      * rewrite !forallb_app, Hsignc, Hipc, Hpre,
          (digits_are_number_chars _ Hds). reflexivity.
      * rewrite !app_assoc. apply last_app_digits; assumption.
  - pose proof (digits_are_number_chars _ Hfpd) as Hfpc.
    destruct Hex as [->|(pre & ds & -> & Hne & Hds & Hpre)].
    + rewrite app_nil_r. split.
      * repeat first [rewrite forallb_app | progress cbn [forallb]].
        rewrite Hsignc, Hipc, Hfpc. reflexivity.
      * change (46%N :: fp) with ([46%N] ++ fp).
        rewrite !app_assoc. apply last_app_digits; assumption.
    + split.
      * repeat first [rewrite forallb_app | progress cbn [forallb]].
        rewrite Hsignc, Hipc, Hfpc, Hpre, (digits_are_number_chars _ Hds).
        reflexivity.
      * change (46%N :: fp ++ pre ++ ds) with ([46%N] ++ fp ++ pre ++ ds).
        rewrite !app_assoc. apply last_app_digits; assumption.
Qed.

Lemma number_eqb_eq (x y : number) : number_eqb x y = true -> x = y.
Proof.
  destruct x, y; simpl; try discriminate; intros H.
  - apply eqb_prop in H. congruence.
  - apply eqb_prop in H. congruence.
  - reflexivity.
  - apply andb_true_iff in H as [H He]. apply andb_true_iff in H as [Hs Hm].
    apply eqb_prop in Hs. apply Pos.eqb_eq in Hm. apply Z.eqb_eq in He.
    congruence.
Qed.

Lemma number_eqb_refl (x : number) : number_eqb x x = true.
Proof.
  destruct x; simpl; rewrite ?eqb_reflx, ?Pos.eqb_refl, ?Z.eqb_refl;
    reflexivity.
Qed.

Lemma number_reads_back_spec (n : number) :
  number_reads_back n = true ->
  is_finite n = true /\ number_of_literal (Number_toString n) = Some n.
Proof.
  unfold number_reads_back. intros H. apply andb_true_iff in H as [Hf H].
  split; [assumption|].
  destruct (number_of_literal (Number_toString n)) as [n'|]; [|discriminate].
  apply number_eqb_eq in H. congruence.
Qed.

Lemma number_char_range (c : code_unit) :
  is_number_char c = true -> (43 <= c <= 101)%N.
Proof.
  unfold is_number_char, is_digit. intros H.
  repeat (apply orb_true_iff in H as [H|H]); bool_to_prop; lia.
Qed.

Lemma number_char_not_ws (c : code_unit) :
  is_number_char c = true -> is_js_whitespace c = false.
Proof.
  intros H. apply number_char_range in H. unfold is_js_whitespace.
  settle_units. reflexivity.
Qed.


(* ================================================================== *)
(** * Values: induction, and the serializer on ParsedValues *)
(* ================================================================== *)

Lemma value_induction (P : value -> Prop) :
  P VUndefined -> P VNull -> (forall b, P (VBoolean b)) ->
  (forall n, P (VNumber n)) -> (forall z, P (VBigInt z)) ->
  (forall s, P (VString s)) ->
  (forall l, Forall P l -> P (VArray l)) ->
  (forall l, Forall (fun m => P (snd m)) l -> P (VObject l)) ->
  forall v, P v.
Proof.
  intros Hu Hn Hb Hnum Hbig Hs Ha Ho.
  fix IH 1. intros [| |b|n|z|s|l|l].
  - exact Hu.
  - exact Hn.
  - apply Hb.
  - apply Hnum.
  - apply Hbig.
  - apply Hs.
  - apply Ha. induction l as [|e l IHl]; constructor; [apply IH|exact IHl].
  - apply Ho. induction l as [|[k e] l IHl]; constructor; [apply IH|exact IHl].
Qed.

Lemma is_ParsedValue_object (props : list (jsstring * value)) :
  is_ParsedValue (VObject props)
  = own_property_order props
    && forallb (fun m => is_ParsedValue (snd m)) props.
Proof.
  cbn [is_ParsedValue]. f_equal.
  induction props as [|[k e] l IH]; [reflexivity|].
  cbn [forallb snd]. rewrite <- IH. reflexivity.
Qed.

Lemma reads_back_object (props : list (jsstring * value)) :
  reads_back (VObject props) = forallb (fun m => reads_back (snd m)) props.
Proof.
  cbn [reads_back].
  induction props as [|[k e] l IH]; [reflexivity|].
  cbn [forallb snd]. rewrite <- IH. reflexivity.
Qed.

Lemma all_finite_object (props : list (jsstring * value)) :
  all_finite (VObject props) = forallb (fun m => all_finite (snd m)) props.
Proof.
  cbn [all_finite].
  induction props as [|[k e] l IH]; [reflexivity|].
  cbn [forallb snd]. rewrite <- IH. reflexivity.
Qed.

Lemma size_object (props : list (jsstring * value)) :
  size (VObject props) = S (list_sum (map (fun m => size (snd m)) props)).
Proof.
  cbn [size]. f_equal.
  induction props as [|[k e] l IH]; [reflexivity|].
  change (list_sum (map (fun m => size (snd m)) ((k, e) :: l)))
    with (size e + list_sum (map (fun m => size (snd m)) l))%nat.
  rewrite <- IH. reflexivity.
Qed.

Lemma SerializeJSONProperty_array (i g : jsstring) (l : list value) :
  SerializeJSONProperty i g (VArray l)
  = match serialize_elements (i ++ g) g l with
    | Throw t => Throw t
    | Normal partial =>
        Normal (Some (wrap_partial 91%N 93%N i (i ++ g) g partial))
    end.
Proof. reflexivity. Qed.

Lemma SerializeJSONProperty_object (i g : jsstring) (l : list (jsstring * value)) :
  SerializeJSONProperty i g (VObject l)
  = match serialize_members (i ++ g) g l with
    | Throw t => Throw t
    | Normal partial =>
        Normal (Some (wrap_partial 123%N 125%N i (i ++ g) g partial))
    end.
Proof. reflexivity. Qed.

Lemma serialize_elements_cons (i g : jsstring) (e : value) (l : list value) :
  serialize_elements i g (e :: l)
  = match SerializeJSONProperty i g e with
    | Throw t => Throw t
    | Normal strP =>
        match serialize_elements i g l with
        | Throw t => Throw t
        | Normal partial =>
            Normal (match strP with
                    | None => utf16 "null"
                    | Some s => s
                    end :: partial)
        end
    end.
Proof. reflexivity. Qed.

Lemma serialize_members_cons (i g k : jsstring) (e : value)
    (l : list (jsstring * value)) :
  serialize_members i g ((k, e) :: l)
  = match SerializeJSONProperty i g e with
    | Throw t => Throw t
    | Normal strP =>
        match serialize_members i g l with
        | Throw t => Throw t
        | Normal partial =>
            Normal (match strP with
                    | None => partial
                    | Some s => member_text g k s :: partial
                    end)
        end
    end.
Proof. reflexivity. Qed.

Lemma serialize_elements_defined (i g : jsstring) (l : list value) :
  Forall (fun v => SerializeJSONProperty i g v = Normal (Some (text_of i g v))) l ->
  serialize_elements i g l = Normal (map (text_of i g) l).
Proof.
  induction 1 as [|e l He _ IH]; [reflexivity|].
  rewrite serialize_elements_cons, He, IH. reflexivity.
Qed.

Lemma serialize_members_defined (i g : jsstring) (l : list (jsstring * value)) :
  Forall (fun m => SerializeJSONProperty i g (snd m)
                   = Normal (Some (text_of i g (snd m)))) l ->
  serialize_members i g l
  = Normal (map (fun m => member_text g (fst m) (text_of i g (snd m))) l).
Proof.
  induction 1 as [|[k e] l He _ IH]; [reflexivity|].
  cbn [snd] in He. rewrite serialize_members_cons, He, IH. reflexivity.
Qed.

(** On a ParsedValue the serializer neither throws nor answers
    [undefined]. *)
Lemma SerializeJSONProperty_ParsedValue (v : value) :
  is_ParsedValue v = true ->
  forall i g, SerializeJSONProperty i g v = Normal (Some (text_of i g v)).
Proof.
  induction v as [| |b|n|z|s|l IH|l IH] using value_induction;
    intros Hv i g; try discriminate; try reflexivity.
  - destruct b; reflexivity.
  - unfold text_of. cbn [SerializeJSONProperty].
    destruct (is_finite n); reflexivity.
  - assert (E : serialize_elements (i ++ g) g l
                = Normal (map (text_of (i ++ g) g) l)).
    { apply serialize_elements_defined. cbn [is_ParsedValue] in Hv.
      rewrite forallb_forall in Hv. rewrite Forall_forall in *.
      intros e He. apply IH; auto. }
    unfold text_of. rewrite SerializeJSONProperty_array, E. reflexivity.
  - rewrite is_ParsedValue_object in Hv. apply andb_true_iff in Hv as [_ Hv].
    assert (E : serialize_members (i ++ g) g l
                = Normal (map (fun m => member_text g (fst m)
                                          (text_of (i ++ g) g (snd m))) l)).
    { apply serialize_members_defined.
      rewrite forallb_forall in Hv. rewrite Forall_forall in *.
      intros e He. apply IH; auto. }
    unfold text_of. rewrite SerializeJSONProperty_object, E. reflexivity.
Qed.

Lemma text_of_array (i g : jsstring) (l : list value) :
  forallb is_ParsedValue l = true ->
  text_of i g (VArray l)
  = wrap_partial 91%N 93%N i (i ++ g) g (map (text_of (i ++ g) g) l).
Proof.
  intros Hl. unfold text_of at 1. rewrite SerializeJSONProperty_array.
  rewrite serialize_elements_defined; [reflexivity|].
  rewrite forallb_forall in Hl. apply Forall_forall. intros e He.
  apply SerializeJSONProperty_ParsedValue. auto.
Qed.

Lemma text_of_object (i g : jsstring) (l : list (jsstring * value)) :
  forallb (fun m => is_ParsedValue (snd m)) l = true ->
  text_of i g (VObject l)
  = wrap_partial 123%N 125%N i (i ++ g) g
      (map (fun m => member_text g (fst m) (text_of (i ++ g) g (snd m))) l).
Proof.
  intros Hl. unfold text_of at 1. rewrite SerializeJSONProperty_object.
  rewrite serialize_members_defined; [reflexivity|].
  rewrite forallb_forall in Hl. apply Forall_forall. intros e He.
  apply SerializeJSONProperty_ParsedValue. auto.
Qed.

Lemma text_of_number (i g : jsstring) (n : number) :
  is_finite n = true -> text_of i g (VNumber n) = Number_toString n.
Proof. intros H. unfold text_of. cbn. rewrite H. reflexivity. Qed.


(* ================================================================== *)
(** * Objects: own-property order *)
(* ================================================================== *)

Lemma jsstring_eqb_sym (a b : jsstring) : jsstring_eqb a b = jsstring_eqb b a.
Proof.
  destruct (jsstring_eqb a b) eqn:E.
  - apply jsstring_eqb_eq in E. subst. symmetry. apply jsstring_eqb_refl.
  - apply jsstring_eqb_neq in E. symmetry. apply jsstring_eqb_neq. congruence.
Qed.

Lemma has_key_app (k : jsstring) (a b : list (jsstring * value)) :
  has_key k (a ++ b) = has_key k a || has_key k b.
Proof.
  induction a as [|[k' v'] a IH]; simpl; [reflexivity|].
  rewrite IH, orb_assoc. reflexivity.
Qed.

Lemma array_index_inj (k k' : jsstring) (i : Z) :
  array_index k = Some i -> array_index k' = Some i -> k = k'.
Proof.
  unfold array_index. intros H H'.
  destruct (forallb is_digit k && jsstring_eqb (Z_toString (digits_value k)) k
            && (digits_value k <=? 4294967294)) eqn:E; [|discriminate].
  destruct (forallb is_digit k' && jsstring_eqb (Z_toString (digits_value k')) k'
            && (digits_value k' <=? 4294967294)) eqn:E'; [|discriminate].
  injection H as H. injection H' as H'.
  apply andb_true_iff in E as [E _]. apply andb_true_iff in E as [_ E].
  apply andb_true_iff in E' as [E' _]. apply andb_true_iff in E' as [_ E'].
  apply jsstring_eqb_eq in E, E'. congruence.
Qed.

Lemma plain_keys_middle (done t : list (jsstring * value)) (k : jsstring) (v : value) :
  plain_keys (done ++ (k, v) :: t) = true ->
  array_index k = None /\ has_key k done = false.
Proof.
  induction done as [|[k' v'] d IH]; cbn [app plain_keys has_key]; intros H.
  - destruct (array_index k); [discriminate|]. auto.
  - destruct (array_index k') eqn:Ek'; [discriminate|].
    apply andb_true_iff in H as [Hk' H]. apply negb_true_iff in Hk'.
    destruct (IH H) as [Hk Hd]. split; [assumption|].
    rewrite has_key_app in Hk'. apply orb_false_iff in Hk' as [_ Hk'].
    cbn [has_key] in Hk'. apply orb_false_iff in Hk' as [Hk' _].
    rewrite jsstring_eqb_sym, Hk', Hd. reflexivity.
Qed.

Lemma ordered_from_bound (done t : list (jsstring * value)) (k : jsstring)
    (v : value) (lo i : Z) :
  ordered_from lo (done ++ (k, v) :: t) = true ->
  array_index k = Some i -> lo <= i.
Proof.
  revert lo; induction done as [|[k' v'] d IH]; intros lo H Hk.
  - cbn [app ordered_from] in H. rewrite Hk in H.
    apply andb_true_iff in H as [H _]. apply Z.leb_le in H. exact H.
  - cbn [app ordered_from] in H. destruct (array_index k') as [j|] eqn:Ek'.
    + apply andb_true_iff in H as [Hj H]. apply Z.leb_le in Hj.
      specialize (IH _ H Hk). lia.
    + change ((k', v') :: d ++ (k, v) :: t) with (((k', v') :: d) ++ (k, v) :: t) in H.
      apply plain_keys_middle in H as [H _]. congruence.
Qed.

Lemma ordered_from_middle (done t : list (jsstring * value)) (k : jsstring)
    (v : value) (lo : Z) :
  ordered_from lo (done ++ (k, v) :: t) = true ->
  has_key k done = false
  /\ forall i, array_index k = Some i ->
               insert_index i k v done = done ++ [(k, v)].
Proof.
  revert lo; induction done as [|[k' v'] d IH]; intros lo H.
  - split; [reflexivity|]. intros i _. reflexivity.
  - cbn [app ordered_from] in H. destruct (array_index k') as [j|] eqn:Ek'.
    + apply andb_true_iff in H as [Hj H].
      destruct (IH _ H) as [Hd Hins]. split.
      * cbn [has_key]. rewrite Hd, orb_false_r. apply jsstring_eqb_neq.
        intros ->. pose proof (ordered_from_bound _ _ _ _ _ _ H Ek'). lia.
      * intros i Hi. pose proof (ordered_from_bound _ _ _ _ _ _ H Hi) as Hb.
        cbn [insert_index app]. rewrite Ek'.
        destruct (j <? i) eqn:Hji; [|apply Z.ltb_ge in Hji; lia].
        rewrite (Hins _ Hi). reflexivity.
    + change ((k', v') :: d ++ (k, v) :: t) with (((k', v') :: d) ++ (k, v) :: t) in H.
      apply plain_keys_middle in H as [Hk Hd]. split; [assumption|].
      intros i Hi. congruence.
Qed.

Lemma build_object_from (todo done : list (jsstring * value)) :
  own_property_order (done ++ todo) = true ->
  fold_left (fun o m => CreateDataProperty o (fst m) (snd m)) todo done
  = done ++ todo.
Proof.
  revert done; induction todo as [|[k v] t IH]; intros done H.
  - rewrite app_nil_r. reflexivity.
  - cbn [fold_left fst snd].
    destruct (ordered_from_middle _ _ _ _ _ H) as [Hk Hins].
    assert (E : CreateDataProperty done k v = done ++ [(k, v)]).
    { unfold CreateDataProperty. rewrite Hk.
      destruct (array_index k) as [i|] eqn:Ei; [apply Hins|]; reflexivity. }
    rewrite E, IH; rewrite <- app_assoc; [reflexivity|exact H].
Qed.

(** Members already in own-property order are stored as they come. *)
Lemma build_object_ordered (l : list (jsstring * value)) :
  own_property_order l = true -> build_object l = l.
Proof. intros H. apply (build_object_from l []). exact H. Qed.

(** [CreateDataProperty] keeps the keys in own-property order. *)
Lemma has_key_replace_value (k k0 : jsstring) (v : value) (o : list (jsstring * value)) :
  has_key k0 (replace_value k v o) = has_key k0 o.
Proof.
  induction o as [|[k' v'] r IH]; [reflexivity|]. cbn [replace_value].
  destruct (jsstring_eqb k k'); cbn [has_key]; [reflexivity|].
  rewrite IH. reflexivity.
Qed.

Lemma plain_keys_replace_value (k : jsstring) (v : value) (o : list (jsstring * value)) :
  plain_keys (replace_value k v o) = plain_keys o.
Proof.
  induction o as [|[k' v'] r IH]; [reflexivity|]. cbn [replace_value].
  destruct (jsstring_eqb k k'); cbn [plain_keys]; [reflexivity|].
  rewrite IH, has_key_replace_value. reflexivity.
Qed.

Lemma ordered_from_replace_value (k : jsstring) (v : value) (lo : Z)
    (o : list (jsstring * value)) :
  ordered_from lo (replace_value k v o) = ordered_from lo o.
Proof.
  revert lo; induction o as [|[k' v'] r IH]; intros lo; [reflexivity|].
  cbn [replace_value].
  destruct (jsstring_eqb k k') eqn:E; cbn [ordered_from plain_keys];
    [reflexivity|].
  destruct (array_index k').
  - rewrite IH. reflexivity.
  - rewrite plain_keys_replace_value, has_key_replace_value. reflexivity.
Qed.

Lemma ordered_from_plain (lo lo' : Z) (k : jsstring) (v : value)
    (o : list (jsstring * value)) :
  array_index k = None ->
  ordered_from lo ((k, v) :: o) = ordered_from lo' ((k, v) :: o).
Proof. intros H. cbn [ordered_from]. rewrite H. reflexivity. Qed.

Lemma ordered_from_weaken (lo lo' : Z) (o : list (jsstring * value)) :
  lo' <= lo -> ordered_from lo o = true -> ordered_from lo' o = true.
Proof.
  intros Hlo. destruct o as [|[k v] r]; [reflexivity|]. cbn [ordered_from].
  destruct (array_index k) as [i|]; [|auto].
  intros H. apply andb_true_iff in H as [Hi H]. apply Z.leb_le in Hi.
  rewrite H, andb_true_r. apply Z.leb_le. lia.
Qed.

Lemma ordered_from_cons (lo : Z) (k : jsstring) (v : value)
    (o : list (jsstring * value)) :
  ordered_from lo ((k, v) :: o)
  = match array_index k with
    | Some i => (lo <=? i) && ordered_from (i + 1) o
    | None => plain_keys ((k, v) :: o)
    end.
Proof. reflexivity. Qed.

Lemma ordered_from_insert_index (i : Z) (k : jsstring) (v : value) (lo : Z)
    (o : list (jsstring * value)) :
  array_index k = Some i -> has_key k o = false -> lo <= i ->
  ordered_from lo o = true ->
  ordered_from lo (insert_index i k v o) = true.
Proof.
  intros Hk. revert lo; induction o as [|[k' v'] r IH]; intros lo Hfresh Hlo Ho.
  - cbn [insert_index]. rewrite ordered_from_cons, Hk.
    apply andb_true_iff. split; [apply Z.leb_le; lia|reflexivity].
  - cbn [has_key] in Hfresh. apply orb_false_iff in Hfresh as [Hne Hfresh].
    apply jsstring_eqb_neq in Hne.
    cbn [insert_index]. destruct (array_index k') as [j|] eqn:Ek'.
    + rewrite ordered_from_cons, Ek' in Ho.
      apply andb_true_iff in Ho as [Hj Ho]. apply Z.leb_le in Hj.
      destruct (j <? i) eqn:Hji.
      * apply Z.ltb_lt in Hji. rewrite ordered_from_cons, Ek'.
        apply andb_true_iff. split; [apply Z.leb_le; lia|].
        apply IH; [assumption|lia|assumption].
      * apply Z.ltb_ge in Hji.
        assert (i <> j).
        { intros ->. apply Hne. eapply array_index_inj; eassumption. }
        rewrite ordered_from_cons, Hk.
        apply andb_true_iff. split; [apply Z.leb_le; lia|].
        rewrite ordered_from_cons, Ek'.
        apply andb_true_iff. split; [apply Z.leb_le; lia|exact Ho].
    + rewrite ordered_from_cons, Hk.
      apply andb_true_iff. split; [apply Z.leb_le; lia|].
      rewrite (ordered_from_plain (i + 1) lo) by assumption. exact Ho.
Qed.

Lemma plain_keys_snoc (k : jsstring) (v : value) (o : list (jsstring * value)) :
  array_index k = None -> has_key k o = false ->
  plain_keys o = true -> plain_keys (o ++ [(k, v)]) = true.
Proof.
  intros Hk. induction o as [|[k' v'] r IH]; intros Hfresh Ho.
  - cbn [app plain_keys has_key]. rewrite Hk. reflexivity.
  - cbn [has_key] in Hfresh. apply orb_false_iff in Hfresh as [Hne Hfresh].
    cbn [app plain_keys] in *. destruct (array_index k'); [discriminate|].
    apply andb_true_iff in Ho as [Hk' Ho]. apply negb_true_iff in Hk'.
    rewrite has_key_app, Hk'. cbn [has_key].
    rewrite jsstring_eqb_sym, Hne. cbn [orb negb andb]. auto.
Qed.

Lemma ordered_from_snoc (k : jsstring) (v : value) (lo : Z)
    (o : list (jsstring * value)) :
  array_index k = None -> has_key k o = false ->
  ordered_from lo o = true -> ordered_from lo (o ++ [(k, v)]) = true.
Proof.
  intros Hk. revert lo; induction o as [|[k' v'] r IH]; intros lo Hfresh Ho.
  - cbn [app ordered_from plain_keys has_key]. rewrite Hk. reflexivity.
  - cbn [app ordered_from] in *. destruct (array_index k') as [j|] eqn:Ek'.
    + apply andb_true_iff in Ho as [Hj Ho]. rewrite Hj. cbn [andb].
      cbn [has_key] in Hfresh. apply orb_false_iff in Hfresh as [_ Hfresh].
      apply IH; assumption.
    + change ((k', v') :: r ++ [(k, v)]) with (((k', v') :: r) ++ [(k, v)]).
      apply plain_keys_snoc; assumption.
Qed.

Lemma CreateDataProperty_ordered (o : list (jsstring * value)) (k : jsstring)
    (v : value) :
  own_property_order o = true ->
  own_property_order (CreateDataProperty o k v) = true.
Proof.
  unfold own_property_order, CreateDataProperty. intros Ho.
  destruct (has_key k o) eqn:Hk.
  - rewrite ordered_from_replace_value. exact Ho.
  - destruct (array_index k) as [i|] eqn:Ei.
    + apply ordered_from_insert_index; try assumption.
      unfold array_index in Ei.
      destruct (forallb is_digit k) eqn:Hd; [|discriminate].
      cbn [andb] in Ei.
      destruct (jsstring_eqb _ k && _); [|discriminate].
      injection Ei as <-. unfold digits_value.
      assert (G : forall l a, 0 <= a ->
                 0 <= fold_left (fun a c => 10 * a + digit_value c) l a).
      { induction l as [|c l IHl]; intros a Ha; [exact Ha|].
        cbn [fold_left]. apply IHl. unfold digit_value. lia. }
      apply G. lia.
    + apply ordered_from_snoc; assumption.
Qed.

Lemma build_object_own_property_order (ms : list (jsstring * value)) :
  own_property_order (build_object ms) = true.
Proof.
  unfold build_object.
  assert (G : forall o, own_property_order o = true ->
              own_property_order
                (fold_left (fun o m => CreateDataProperty o (fst m) (snd m)) ms o)
              = true).
  { induction ms as [|[k v] ms IH]; intros o Ho; [exact Ho|].
    cbn [fold_left fst snd]. apply IH. apply CreateDataProperty_ordered.
    exact Ho. }
  apply G. reflexivity.
Qed.

(** The values of the built object are values of the members. *)
Section ObjectValues.
Variable P : value -> bool.

Lemma forallb_replace_value (k : jsstring) (v : value) (o : list (jsstring * value)) :
  P v = true -> forallb (fun m => P (snd m)) o = true ->
  forallb (fun m => P (snd m)) (replace_value k v o) = true.
Proof.
  intros Hv. induction o as [|[k' v'] r IH]; [auto|].
  cbn [replace_value forallb snd]. intros H.
  apply andb_true_iff in H as [Hv' Hr].
  destruct (jsstring_eqb k k'); cbn [forallb snd].
  - rewrite Hv, Hr. reflexivity.
  - rewrite Hv', IH by assumption. reflexivity.
Qed.

Lemma forallb_insert_index (i : Z) (k : jsstring) (v : value)
    (o : list (jsstring * value)) :
  P v = true -> forallb (fun m => P (snd m)) o = true ->
  forallb (fun m => P (snd m)) (insert_index i k v o) = true.
Proof.
  intros Hv. induction o as [|[k' v'] r IH]; intros H.
  - cbn. rewrite Hv. reflexivity.
  - cbn [insert_index].
    pose proof H as H0. cbn [forallb snd] in H.
    apply andb_true_iff in H as [Hv' Hr].
    destruct (array_index k') as [j|]; [destruct (j <? i)|];
      cbn [forallb snd]; rewrite ?Hv, ?Hv', ?Hr, ?IH by assumption;
      reflexivity.
Qed.

Lemma forallb_CreateDataProperty (o : list (jsstring * value)) (k : jsstring)
    (v : value) :
  P v = true -> forallb (fun m => P (snd m)) o = true ->
  forallb (fun m => P (snd m)) (CreateDataProperty o k v) = true.
Proof.
  intros Hv Ho. unfold CreateDataProperty.
  destruct (has_key k o); [apply forallb_replace_value; assumption|].
  destruct (array_index k); [apply forallb_insert_index; assumption|].
  rewrite forallb_app, Ho. cbn. rewrite Hv. reflexivity.
Qed.

Lemma forallb_build_object (ms : list (jsstring * value)) :
  forallb (fun m => P (snd m)) ms = true ->
  forallb (fun m => P (snd m)) (build_object ms) = true.
Proof.
  unfold build_object.
  assert (G : forall o, forallb (fun m => P (snd m)) o = true ->
              forallb (fun m => P (snd m)) ms = true ->
              forallb (fun m => P (snd m))
                (fold_left (fun o m => CreateDataProperty o (fst m) (snd m)) ms o)
              = true).
  { induction ms as [|[k v] ms IH]; intros o Ho Hms; [exact Ho|].
    cbn [fold_left fst snd]. cbn [forallb snd] in Hms.
    apply andb_true_iff in Hms as [Hv Hms].
    apply IH; [|assumption]. apply forallb_CreateDataProperty; assumption. }
  intros H. apply G; [reflexivity|assumption].
Qed.
End ObjectValues.


(* ================================================================== *)
(** * The parser reads back what the serializer writes *)
(* ================================================================== *)

Lemma parse_value_S (f : nat) (s : jsstring) :
  parse_value (S f) s
  = match skip_ws s with
    | [] => PErr msg_end
    | c :: r =>
        if (c =? 123)%N then
          match closes 125%N r with
          | Some r' => POk (VObject []) r'
          | None => pmap (fun ms => VObject (build_object ms)) (parse_members f r)
          end
        else if (c =? 91)%N then
          match closes 93%N r with
          | Some r' => POk (VArray []) r'
          | None => pmap VArray (parse_elements f r)
          end
        else if (c =? 34)%N then pmap VString (parse_string_body r)
        else if (c =? 116)%N then expect (utf16 "rue") (VBoolean true) r
        else if (c =? 102)%N then expect (utf16 "alse") (VBoolean false) r
        else if (c =? 110)%N then expect (utf16 "ull") VNull r
        else if (c =? 45)%N || is_digit c then
          let '(lit, r') := span is_number_char (c :: r) in
          match number_of_literal lit with
          | Some n => POk (VNumber n) r'
          | None => PErr msg_number
          end
        else PErr msg_token
    end.
Proof. reflexivity. Qed.

Lemma parse_elements_S (f : nat) (s : jsstring) :
  parse_elements (S f) s
  = match parse_value f s with
    | POk v r =>
        match skip_ws r with
        | [] => PErr msg_end
        | c :: r' =>
            if (c =? 44)%N then pmap (cons v) (parse_elements f r')
            else if (c =? 93)%N then POk [v] r'
            else PErr msg_element
        end
    | PErr msg => PErr msg
    | POutOfFuel => POutOfFuel
    end.
Proof. reflexivity. Qed.

Lemma parse_members_S (f : nat) (s : jsstring) :
  parse_members (S f) s
  = match skip_ws s with
    | [] => PErr msg_end
    | q :: r =>
        if (q =? 34)%N then
          match parse_string_body r with
          | POk k r1 =>
              match skip_ws r1 with
              | [] => PErr msg_end
              | colon :: r2 =>
                  if (colon =? 58)%N then
                    match parse_value f r2 with
                    | POk v r3 =>
                        match skip_ws r3 with
                        | [] => PErr msg_end
                        | c :: r4 =>
                            if (c =? 44)%N then
                              pmap (cons (k, v)) (parse_members f r4)
                            else if (c =? 125)%N then POk [(k, v)] r4
                            else PErr msg_property
                        end
                    | PErr msg => PErr msg
                    | POutOfFuel => POutOfFuel
                    end
                  else PErr msg_colon
              end
          | PErr msg => PErr msg
          | POutOfFuel => POutOfFuel
          end
        else PErr msg_name
    end.
Proof. reflexivity. Qed.

Lemma parse_value_skip_ws (f : nat) (w s : jsstring) :
  forallb is_json_ws w = true -> parse_value f (w ++ s) = parse_value f s.
Proof.
  intros Hw. destruct f; [reflexivity|].
  rewrite !parse_value_S, skip_ws_app by assumption. reflexivity.
Qed.

Lemma parse_members_skip_ws (f : nat) (w s : jsstring) :
  forallb is_json_ws w = true -> parse_members f (w ++ s) = parse_members f s.
Proof.
  intros Hw. destruct f; [reflexivity|].
  rewrite !parse_members_S, skip_ws_app by assumption. reflexivity.
Qed.

Lemma parse_elements_skip_ws (f : nat) (w s : jsstring) :
  forallb is_json_ws w = true -> parse_elements f (w ++ s) = parse_elements f s.
Proof.
  intros Hw. destruct f; [reflexivity|].
  rewrite !parse_elements_S, parse_value_skip_ws by assumption. reflexivity.
Qed.


Lemma json_ws_not_number_char (c : code_unit) :
  is_json_ws c = true -> is_number_char c = false.
Proof.
  intros H. destruct (is_number_char c) eqn:E; [|reflexivity].
  apply number_char_not_ws in E. apply json_ws_is_js_whitespace in H.
  congruence.
Qed.

Lemma follow_ok_ws (w : jsstring) (c : code_unit) (rest : jsstring) :
  forallb is_json_ws w = true -> is_number_char c = false ->
  follow_ok (w ++ c :: rest).
Proof.
  destruct w as [|d w]; simpl; [auto|]. intros H _.
  apply andb_true_iff in H as [H _]. apply json_ws_not_number_char. exact H.
Qed.

Lemma value_start_not_ws (c : code_unit) :
  is_value_start c = true -> is_json_ws c = false.
Proof.
  unfold is_value_start, is_digit, is_json_ws. intros H.
  repeat (apply orb_true_iff in H as [H|H]); bool_to_prop;
    try (subst c; reflexivity); settle_units; reflexivity.
Qed.

Lemma value_start_not_js_whitespace (c : code_unit) :
  is_value_start c = true -> is_js_whitespace c = false.
Proof.
  unfold is_value_start, is_digit, is_js_whitespace. intros H.
  repeat (apply orb_true_iff in H as [H|H]); bool_to_prop;
    try (subst c; reflexivity); settle_units; reflexivity.
Qed.

Lemma value_end_not_js_whitespace (c : code_unit) :
  is_value_end c = true -> is_js_whitespace c = false.
Proof.
  unfold is_value_end, is_digit, is_js_whitespace. intros H.
  repeat (apply orb_true_iff in H as [H|H]); bool_to_prop;
    try (subst c; reflexivity); settle_units; reflexivity.
Qed.

Lemma size_positive (v : value) : (1 <= size v)%nat.
Proof. destruct v; cbn [size]; lia. Qed.

Lemma list_sum_cons (x : nat) (l : list nat) :
  list_sum (x :: l) = (x + list_sum l)%nat.
Proof. reflexivity. Qed.

Lemma join_cons2 (sep p q : jsstring) (ps : list jsstring) :
  join sep (p :: q :: ps) = p ++ sep ++ join sep (q :: ps).
Proof. reflexivity. Qed.

Lemma wrap_partial_shape (o c : code_unit) (sb i g : jsstring)
    (parts : list jsstring) :
  exists mid, wrap_partial o c sb i g parts = o :: mid ++ [c].
Proof.
  unfold wrap_partial. destruct parts as [|p ps].
  - exists []. reflexivity.
  - destruct g as [|x g].
    + eexists. reflexivity.
    + eexists (10%N :: i ++ join _ _ ++ 10%N :: sb).
      cbn [app]. repeat rewrite <- app_assoc. reflexivity.
Qed.

(** The first and last characters of a serialized ParsedValue. *)
Lemma text_of_ends (v : value) :
  is_ParsedValue v = true -> reads_back v = true ->
  forall i g, exists c t,
    text_of i g v = c :: t /\ is_value_start c = true
    /\ is_value_end (last (c :: t) 0%N) = true.
Proof.
  intros Hv Hr i g. destruct v as [| |b|n|z|s|l|l]; try discriminate.
  - exists 110%N, (utf16 "ull"). auto.
  - destruct b; [exists 116%N, (utf16 "rue")|exists 102%N, (utf16 "alse")]; auto.
  - cbn [reads_back] in Hr. apply number_reads_back_spec in Hr as [Hf Hn].
    rewrite text_of_number by assumption.
    apply number_of_literal_shape in Hn as ((c & r & E & Hc) & _ & Hl).
    exists c, r. rewrite <- E. split; [reflexivity|]. split.
    + unfold is_value_start. destruct Hc as [->|Hc]; [reflexivity|].
      rewrite Hc, !orb_true_r. reflexivity.
    + unfold is_value_end. rewrite Hl, !orb_true_r. reflexivity.
  - exists 34%N, (quote_units s ++ [34%N]). repeat split.
    change (34%N :: quote_units s ++ [34%N])
      with ((34%N :: quote_units s) ++ [34%N]).
    rewrite last_last. reflexivity.
  - cbn [is_ParsedValue] in Hv. rewrite text_of_array by assumption.
    destruct (wrap_partial_shape 91 93 i (i ++ g) g
                (map (text_of (i ++ g) g) l)) as [mid ->].
    exists 91%N, (mid ++ [93%N]). repeat split.
    change (91%N :: mid ++ [93%N]) with ((91%N :: mid) ++ [93%N]).
    rewrite last_last. reflexivity.
  - rewrite is_ParsedValue_object in Hv. apply andb_true_iff in Hv as [_ Hv].
    rewrite text_of_object by assumption.
    destruct (wrap_partial_shape 123 125 i (i ++ g) g
                (map (fun m => member_text g (fst m)
                                 (text_of (i ++ g) g (snd m))) l)) as [mid ->].
    exists 123%N, (mid ++ [125%N]). repeat split.
    change (123%N :: mid ++ [125%N]) with ((123%N :: mid) ++ [125%N]).
    rewrite last_last. reflexivity.
Qed.

Lemma parse_value_number (f : nat) (lit rest : jsstring) (n : number) :
  number_of_literal lit = Some n -> follow_ok rest ->
  parse_value (S f) (lit ++ rest) = POk (VNumber n) rest.
Proof.
  intros Hn Hrest.
  destruct (number_of_literal_shape _ _ Hn) as ((c & r & E & Hc) & Hchars & _).
  assert (Hspan : span is_number_char (lit ++ rest) = (lit, rest)).
  { apply span_app; [assumption|]. destruct rest; [exact I|exact Hrest]. }
  subst lit. rewrite parse_value_S. cbn [app] in *.
  assert (Hws : is_json_ws c = false).
  { apply value_start_not_ws. unfold is_value_start.
    destruct Hc as [->|Hc]; [reflexivity|].
    rewrite Hc, !orb_true_r. reflexivity. }
  rewrite skip_ws_stop by assumption.
  rewrite Hspan, Hn.
  destruct Hc as [->|Hc]; [reflexivity|].
  rewrite Hc, orb_true_r. unfold is_digit in Hc. bool_to_prop.
  settle_units. reflexivity.
Qed.

Lemma parse_value_string (f : nat) (s rest : jsstring) :
  parse_value (S f) (QuoteJSONString s ++ rest) = POk (VString s) rest.
Proof.
  rewrite parse_value_S. unfold QuoteJSONString. cbn [app].
  rewrite skip_ws_stop by reflexivity.
  change (34 =? 123)%N with false. change (34 =? 91)%N with false.
  change (34 =? 34)%N with true. cbv iota.
  rewrite <- app_assoc. cbn [app]. rewrite parse_quote_units. reflexivity.
Qed.

Section RoundTrip.
(** The indentation in force for the members, and the gap. *)
Variables i g : jsstring.

Lemma parse_elements_join (sepw w' : jsstring) :
  forallb is_json_ws sepw = true -> forallb is_json_ws w' = true ->
  forall l, Forall (reads i g) l -> l <> [] ->
  forall w fuel rest, forallb is_json_ws w = true ->
    (2 * list_sum (map size l) <= fuel)%nat ->
    parse_elements fuel
      (w ++ join (44%N :: sepw) (map (text_of i g) l) ++ w' ++ 93%N :: rest)
    = POk l rest.
Proof.
  intros Hsepw Hw'. induction 1 as [|e l He Hl IH]; [congruence|].
  intros _ w fuel rest Hw Hfuel.
  pose proof (size_positive e) as Hpos.
  rewrite map_cons, list_sum_cons in Hfuel.
  destruct fuel as [|f]; [lia|].
  rewrite parse_elements_S, parse_value_skip_ws by assumption.
  destruct l as [|e2 l'].
  - cbn [map join].
    rewrite (He f (w' ++ 93%N :: rest)); [|lia|apply follow_ok_ws; auto].
    rewrite skip_ws_app, skip_ws_stop by auto. reflexivity.
  - rewrite (map_cons _ e), (map_cons _ e2), join_cons2.
    rewrite <- (map_cons (text_of i g) e2).
    repeat first [rewrite <- app_assoc | progress cbn [app]].
    rewrite (He f (44%N :: sepw ++ join (44%N :: sepw)
                                  (map (text_of i g) (e2 :: l'))
                          ++ w' ++ 93%N :: rest)); [|lia|reflexivity].
    rewrite skip_ws_stop by reflexivity.
    change (44 =? 44)%N with true. cbv iota.
    rewrite (IH ltac:(discriminate) sepw f rest Hsepw); [reflexivity|].
    rewrite map_cons, list_sum_cons in *. lia.
Qed.

Lemma parse_members_join (sepw w' : jsstring) (gap : jsstring) :
  forallb is_json_ws sepw = true -> forallb is_json_ws w' = true ->
  forall l, Forall (fun m => reads i g (snd m)) l -> l <> [] ->
  forall w fuel rest, forallb is_json_ws w = true ->
    (2 * list_sum (map (fun m => size (snd m)) l) <= fuel)%nat ->
    parse_members fuel
      (w ++ join (44%N :: sepw)
              (map (fun m => member_text gap (fst m) (text_of i g (snd m))) l)
         ++ w' ++ 125%N :: rest)
    = POk l rest.
Proof.
  intros Hsepw Hw'. induction 1 as [|[k e] l He Hl IH]; [congruence|].
  intros _ w fuel rest Hw Hfuel. cbn [snd] in He.
  pose proof (size_positive e) as Hpos.
  rewrite map_cons, list_sum_cons in Hfuel. cbn [snd] in Hfuel.
  destruct fuel as [|f]; [lia|].
  rewrite parse_members_skip_ws by assumption.
  rewrite parse_members_S.
  set (sp := match gap with [] => [] | _ :: _ => [32%N] end).
  assert (Hsp : forallb is_json_ws sp = true) by (destruct gap; reflexivity).
  assert (Hmember : forall t R,
    member_text gap k t ++ R
    = 34%N :: quote_units k ++ 34%N :: 58%N :: sp ++ t ++ R).
  { intros t R. unfold member_text, QuoteJSONString. fold sp.
    repeat first [rewrite <- app_assoc | progress cbn [app]]. reflexivity. }
  destruct l as [|m2 l'].
  - cbn [map join fst snd]. rewrite Hmember.
    rewrite skip_ws_stop by reflexivity.
    change (34 =? 34)%N with true. cbv iota.
    rewrite parse_quote_units, skip_ws_stop by reflexivity.
    change (58 =? 58)%N with true. cbv iota.
    rewrite parse_value_skip_ws by assumption.
    rewrite (He f (w' ++ 125%N :: rest)); [|lia|apply follow_ok_ws; auto].
    rewrite skip_ws_app, skip_ws_stop by auto. reflexivity.
  - set (mt := fun m : jsstring * value =>
                 member_text gap (fst m) (text_of i g (snd m))) in *.
    rewrite (map_cons mt (k, e)), (map_cons mt m2), join_cons2.
    rewrite <- (map_cons mt m2).
    unfold mt at 1. cbn [fst snd].
    rewrite <- app_assoc, Hmember.
    rewrite skip_ws_stop by reflexivity.
    change (34 =? 34)%N with true. cbv iota.
    rewrite parse_quote_units, skip_ws_stop by reflexivity.
    change (58 =? 58)%N with true. cbv iota.
    rewrite parse_value_skip_ws by assumption.
    repeat first [rewrite <- app_assoc | progress cbn [app]].
    rewrite (He f (44%N :: sepw ++ join (44%N :: sepw) (map mt (m2 :: l'))
                          ++ w' ++ 125%N :: rest)); [|lia|reflexivity].
    rewrite skip_ws_stop by reflexivity.
    change (44 =? 44)%N with true. cbv iota.
    rewrite (IH ltac:(discriminate) sepw f rest Hsepw); [reflexivity|].
    rewrite map_cons, list_sum_cons in *. lia.
Qed.
End RoundTrip.


Lemma closes_none (closing : code_unit) (w : jsstring) (c : code_unit)
    (t : jsstring) :
  forallb is_json_ws w = true -> is_json_ws c = false -> c <> closing ->
  closes closing (w ++ c :: t) = None.
Proof.
  intros Hw Hc Hne. unfold closes.
  rewrite skip_ws_app, skip_ws_stop by assumption.
  apply N.eqb_neq in Hne. rewrite Hne. reflexivity.
Qed.

Lemma value_start_not_closing (c : code_unit) :
  is_value_start c = true -> c <> 93%N /\ c <> 125%N.
Proof.
  unfold is_value_start, is_digit. intros H.
  repeat (apply orb_true_iff in H as [H|H]); bool_to_prop;
    split; try (subst c; discriminate); lia.
Qed.

Lemma join_head (sep p : jsstring) (ps : list jsstring) (c : code_unit)
    (t : jsstring) :
  p = c :: t -> exists t', join sep (p :: ps) = c :: t'.
Proof.
  intros ->. destruct ps as [|q ps]; cbn [join]; eauto.
  cbn [app]. eauto.
Qed.

(** The layout of a non-empty array or object: white space, the members
    joined by a comma and white space, white space, the closing bracket. *)
Lemma wrap_partial_layout (o c : code_unit) (sb ind g : jsstring)
    (p : jsstring) (ps : list jsstring) :
  forallb is_json_ws sb = true -> forallb is_json_ws ind = true ->
  exists w w',
    forallb is_json_ws w = true /\ forallb is_json_ws w' = true
    /\ forall rest,
        wrap_partial o c sb ind g (p :: ps) ++ rest
        = o :: w ++ join (44%N :: w) (p :: ps) ++ w' ++ c :: rest.
Proof.
  intros Hsb Hind. unfold wrap_partial. destruct g as [|x g].
  - exists [], []. repeat split. intros rest.
    cbn [app]. rewrite <- app_assoc. reflexivity.
  - exists (10%N :: ind), (10%N :: sb). cbn [forallb].
    rewrite Hsb, Hind. repeat split. intros rest.
    cbn [app]. repeat (rewrite <- app_assoc; cbn [app]). reflexivity.
Qed.

(** Any ParsedValue whose numbers read back is parsed back from its
    serialization, compact or indented, whatever follows it. *)
Lemma parse_text_of (v : value) :
  is_ParsedValue v = true -> reads_back v = true ->
  forall i g,
    forallb is_json_ws i = true -> forallb is_json_ws g = true ->
    reads i g v.
Proof.
  induction v as [| |b|n|z|s|l IH|l IH] using value_induction;
    intros Hv Hr i g Hi Hg fuel rest Hfuel Hrest; try discriminate.
  - destruct fuel; [cbn in Hfuel; lia|]. reflexivity.
  - destruct fuel; [cbn in Hfuel; lia|]. destruct b; reflexivity.
  - destruct fuel; [cbn in Hfuel; lia|].
    cbn [reads_back] in Hr. apply number_reads_back_spec in Hr as [Hf Hn].
    rewrite text_of_number by assumption.
    apply parse_value_number; assumption.
  - destruct fuel; [cbn in Hfuel; lia|]. apply parse_value_string.
  - cbn [is_ParsedValue] in Hv. cbn [reads_back] in Hr.
    rewrite text_of_array by assumption.
    cbn [size] in Hfuel. destruct fuel as [|f]; [lia|].
    destruct l as [|e l'].
    + reflexivity.
    + assert (Hws : forallb is_json_ws (i ++ g) = true)
        by (rewrite forallb_app, Hi, Hg; reflexivity).
      assert (Hreads : Forall (reads (i ++ g) g) (e :: l')).
      { rewrite Forall_forall in *. rewrite forallb_forall in Hv, Hr.
        intros x Hx. apply IH; auto. }
      cbn [map].
      destruct (wrap_partial_layout 91 93 i (i ++ g) g
                  (text_of (i ++ g) g e) (map (text_of (i ++ g) g) l') Hi Hws)
        as (w & w' & Hw & Hw' & ->).
      rewrite parse_value_S, skip_ws_stop by reflexivity.
      change (91 =? 123)%N with false. change (91 =? 91)%N with true.
      cbv iota.
      assert (Hc : closes 93%N
                     (w ++ join (44%N :: w)
                             (text_of (i ++ g) g e :: map (text_of (i ++ g) g) l')
                        ++ w' ++ 93%N :: rest) = None).
      { cbn [forallb] in Hv, Hr.
        apply andb_true_iff in Hv as [Hve _]. apply andb_true_iff in Hr as [Hre _].
        destruct (text_of_ends e Hve Hre (i ++ g) g) as (c & t & E & Hc & _).
        destruct (join_head (44%N :: w) _ (map (text_of (i ++ g) g) l') _ _ E)
          as [t' ->].
        cbn [app]. apply closes_none;
          [assumption|apply value_start_not_ws; assumption|].
        apply value_start_not_closing. assumption. }
      rewrite Hc.
      change (text_of (i ++ g) g e :: map (text_of (i ++ g) g) l')
        with (map (text_of (i ++ g) g) (e :: l')).
      rewrite (parse_elements_join (i ++ g) g w w' Hw Hw' (e :: l') Hreads);
        [reflexivity|discriminate|assumption|lia].
  - rewrite is_ParsedValue_object in Hv. apply andb_true_iff in Hv as [Ho Hv].
    rewrite reads_back_object in Hr.
    rewrite text_of_object by assumption.
    rewrite size_object in Hfuel. destruct fuel as [|f]; [lia|].
    destruct l as [|[k e] l'].
    + reflexivity.
    + assert (Hws : forallb is_json_ws (i ++ g) = true)
        by (rewrite forallb_app, Hi, Hg; reflexivity).
      assert (Hreads : Forall (fun m => reads (i ++ g) g (snd m)) ((k, e) :: l')).
      { rewrite Forall_forall in *. rewrite forallb_forall in Hv, Hr.
        intros x Hx. apply IH; auto. }
      cbn [map fst snd].
      destruct (wrap_partial_layout 123 125 i (i ++ g) g
                  (member_text g k (text_of (i ++ g) g e))
                  (map (fun m => member_text g (fst m)
                                   (text_of (i ++ g) g (snd m))) l') Hi Hws)
        as (w & w' & Hw & Hw' & ->).
      rewrite parse_value_S, skip_ws_stop by reflexivity.
      change (123 =? 123)%N with true. cbv iota.
      assert (Hc : closes 125%N
                     (w ++ join (44%N :: w)
                             (member_text g k (text_of (i ++ g) g e)
                                :: map (fun m => member_text g (fst m)
                                                   (text_of (i ++ g) g (snd m))) l')
                        ++ w' ++ 125%N :: rest) = None).
      { destruct (join_head (44%N :: w)
                    (member_text g k (text_of (i ++ g) g e))
                    (map (fun m => member_text g (fst m)
                                     (text_of (i ++ g) g (snd m))) l')
                    34%N (quote_units k ++ [34%N] ++ 58%N
                            :: (match g with [] => [] | _ :: _ => [32%N] end)
                            ++ text_of (i ++ g) g e)) as [t' ->].
        { unfold member_text, QuoteJSONString. cbn [app].
          rewrite <- app_assoc. reflexivity. }
        cbn [app]. apply closes_none; [assumption|reflexivity|discriminate]. }
      rewrite Hc.
      change (member_text g k (text_of (i ++ g) g e)
                :: map (fun m => member_text g (fst m)
                                   (text_of (i ++ g) g (snd m))) l')
        with (map (fun m => member_text g (fst m) (text_of (i ++ g) g (snd m)))
                  ((k, e) :: l')).
      rewrite (parse_members_join (i ++ g) g w w' g Hw Hw' ((k, e) :: l') Hreads);
        [|discriminate|assumption|lia].
      cbn [pmap]. rewrite build_object_ordered by assumption. reflexivity.
Qed.

(** Each node of a value costs at least one character. *)
Lemma length_join (sep : jsstring) (parts : list jsstring) :
  (list_sum (map (@length _) parts) <= length (join sep parts))%nat.
Proof.
  induction parts as [|p [|q ps] IH].
  - cbn. lia.
  - cbn. lia.
  - rewrite join_cons2, map_cons, list_sum_cons, !length_app. lia.
Qed.

Lemma length_wrap_partial (o c : code_unit) (sb ind g : jsstring)
    (parts : list jsstring) :
  (2 + list_sum (map (@length _) parts)
   <= length (wrap_partial o c sb ind g parts))%nat.
Proof.
  pose proof (length_join [44%N] parts) as H1.
  pose proof (length_join (44%N :: 10%N :: ind) parts) as H2.
  unfold wrap_partial. destruct parts as [|p ps]; [cbn; lia|].
  destruct g; cbn [length]; rewrite ?length_app; cbn [length];
    rewrite ?length_app; cbn [length]; lia.
Qed.

Lemma length_member_text (g k t : jsstring) :
  (length t <= length (member_text g k t))%nat.
Proof.
  unfold member_text. rewrite !length_app. cbn [length].
  rewrite length_app. lia.
Qed.

Lemma size_le_length (v : value) :
  is_ParsedValue v = true -> reads_back v = true ->
  forall i g, (size v <= length (text_of i g v))%nat.
Proof.
  induction v as [| |b|n|z|s|l IH|l IH] using value_induction;
    intros Hv Hr i g; try discriminate;
    try (destruct (text_of_ends _ Hv Hr i g) as (c & t & -> & _);
         cbn; lia).
  - cbn [is_ParsedValue] in Hv. cbn [reads_back] in Hr.
    rewrite text_of_array by assumption.
    pose proof (length_wrap_partial 91 93 i (i ++ g) g
                  (map (text_of (i ++ g) g) l)) as H.
    cbn [size].
    assert (list_sum (map size l)
            <= list_sum (map (@length _) (map (text_of (i ++ g) g) l)))%nat.
    { clear H. induction l as [|e l IHl]; [cbn; lia|].
      cbn [forallb] in Hv, Hr. apply andb_true_iff in Hv as [Hve Hv].
      apply andb_true_iff in Hr as [Hre Hr].
      inversion IH as [|? ? He Hl]; subst.
      rewrite !map_cons, !list_sum_cons. specialize (IHl Hl Hv Hr).
      specialize (He Hve Hre (i ++ g) g). lia. }
    lia.
  - rewrite is_ParsedValue_object in Hv. apply andb_true_iff in Hv as [_ Hv].
    rewrite reads_back_object in Hr.
    rewrite text_of_object by assumption.
    pose proof (length_wrap_partial 123 125 i (i ++ g) g
                  (map (fun m => member_text g (fst m)
                                   (text_of (i ++ g) g (snd m))) l)) as H.
    rewrite size_object.
    assert (list_sum (map (fun m => size (snd m)) l)
            <= list_sum (map (@length _)
                 (map (fun m => member_text g (fst m)
                                  (text_of (i ++ g) g (snd m))) l)))%nat.
    { clear H. induction l as [|[k e] l IHl]; [cbn; lia|].
      cbn [forallb snd] in Hv, Hr. apply andb_true_iff in Hv as [Hve Hv].
      apply andb_true_iff in Hr as [Hre Hr].
      inversion IH as [|? ? He Hl]; subst. cbn [snd] in He.
      rewrite !map_cons, !list_sum_cons. cbn [fst snd].
      specialize (IHl Hl Hv Hr).
      specialize (He Hve Hre (i ++ g) g).
      pose proof (length_member_text g k (text_of (i ++ g) g e)). lia. }
    lia.
Qed.

(** [JSON.parse] of the text [JSON.stringify] writes for a ParsedValue
    whose numbers read back is that value. *)
Lemma JSON_parse_text_of (v : value) (i g : jsstring) :
  is_ParsedValue v = true -> reads_back v = true ->
  forallb is_json_ws i = true -> forallb is_json_ws g = true ->
  JSON_parse (text_of i g v) = Normal v.
Proof.
  intros Hv Hr Hi Hg. unfold JSON_parse.
  pose proof (size_le_length v Hv Hr i g) as Hsize.
  pose proof (parse_text_of v Hv Hr i g Hi Hg
                (parse_fuel (text_of i g v)) []) as H.
  rewrite app_nil_r in H. rewrite H; [reflexivity| |exact I].
  unfold parse_fuel. lia.
Qed.

Lemma trim_ends (s : jsstring) (c : code_unit) (t : jsstring) :
  s = c :: t -> is_js_whitespace c = false ->
  is_js_whitespace (last s 0%N) = false -> trim s = s.
Proof.
  intros -> Hc Hl. destruct t as [|d t].
  - apply trim_single. assumption.
  - assert (Hne : d :: t <> []) by discriminate.
    destruct (exists_last Hne) as (t' & z & E). rewrite E in *.
    change (c :: t' ++ [z]) with ((c :: t') ++ [z]) in Hl.
    rewrite last_last in Hl. apply trim_fixed; assumption.
Qed.

Lemma trim_text_of (v : value) (i g : jsstring) :
  is_ParsedValue v = true -> reads_back v = true ->
  trim (text_of i g v) = text_of i g v.
Proof.
  intros Hv Hr. destruct (text_of_ends v Hv Hr i g) as (c & t & E & Hc & Hl).
  rewrite <- E in Hl. eapply trim_ends; [exact E| |].
  - apply value_start_not_js_whitespace. assumption.
  - apply value_end_not_js_whitespace. assumption.
Qed.


(* ================================================================== *)
(** * The parser: termination, range *)
(* ================================================================== *)

Lemma pmap_ok_inv {A B} (f : A -> B) (x : presult A) (b : B) (r : jsstring) :
  pmap f x = POk b r -> exists a, x = POk a r /\ b = f a.
Proof. destruct x; simpl; intros H; inversion H; eauto. Qed.

Lemma pmap_fuel {A B} (f : A -> B) (x : presult A) :
  pmap f x = POutOfFuel -> x = POutOfFuel.
Proof. destruct x; simpl; intros H; inversion H; reflexivity. Qed.

(** Destruct the subject of the first [match] of hypothesis [H]. *)
Ltac split_match H :=
  match type of H with
  | context [match ?x with _ => _ end] =>
      let E := fresh "E" in destruct x eqn:E
  end.

Lemma parse_string_body_rest_bounded (n : nat) :
  forall s k r, (length s <= n)%nat ->
  parse_string_body s = POk k r -> (length r < length s)%nat.
Proof.
  induction n as [|n IH]; intros s k r Hn H.
  - destruct s; [discriminate|simpl in Hn; lia].
  - destruct s as [|c s]; [discriminate|]. cbn [parse_string_body] in H.
    cbn [length] in *.
    destruct (c =? 34)%N; [injection H as <- <-; lia|].
    destruct (c =? 92)%N.
    + destruct s as [|e s]; [discriminate|]. cbn [length] in *.
      destruct (e =? 117)%N.
      * destruct s as [|h1 [|h2 [|h3 [|h4 s]]]]; try discriminate.
        destruct (hex4 h1 h2 h3 h4); [|discriminate].
        apply pmap_ok_inv in H as (a & H & _).
        apply IH in H; cbn [length] in *; lia.
      * destruct (simple_escape e); [|discriminate].
        apply pmap_ok_inv in H as (a & H & _). apply IH in H; lia.
    + destruct (c <? 32)%N; [discriminate|].
      apply pmap_ok_inv in H as (a & H & _). apply IH in H; lia.
Qed.

Lemma parse_string_body_rest (s k r : jsstring) :
  parse_string_body s = POk k r -> (length r < length s)%nat.
Proof. apply (parse_string_body_rest_bounded (length s)). lia. Qed.

Lemma parse_string_body_fuel_bounded (n : nat) :
  forall s, (length s <= n)%nat -> parse_string_body s <> POutOfFuel.
Proof.
  induction n as [|n IH]; intros s Hn H.
  - destruct s; [discriminate|simpl in Hn; lia].
  - destruct s as [|c s]; [discriminate|]. cbn [parse_string_body] in H.
    cbn [length] in *.
    destruct (c =? 34)%N; [discriminate|].
    destruct (c =? 92)%N.
    + destruct s as [|e s]; [discriminate|]. cbn [length] in *.
      destruct (e =? 117)%N.
      * destruct s as [|h1 [|h2 [|h3 [|h4 s]]]]; try discriminate.
        destruct (hex4 h1 h2 h3 h4); [|discriminate].
        apply pmap_fuel in H. apply IH in H; [assumption|].
        cbn [length] in *; lia.
      * destruct (simple_escape e); [|discriminate].
        apply pmap_fuel in H. apply IH in H; [assumption|lia].
    + destruct (c <? 32)%N; [discriminate|].
      apply pmap_fuel in H. apply IH in H; [assumption|lia].
Qed.

Lemma parse_string_body_fuel (s : jsstring) : parse_string_body s <> POutOfFuel.
Proof. apply (parse_string_body_fuel_bounded (length s)). lia. Qed.

Lemma expect_inv (word : jsstring) (v v' : value) (s r : jsstring) :
  expect word v s = POk v' r -> v' = v /\ (length r <= length s)%nat.
Proof.
  unfold expect. destruct (startsWith s word).
  - intros H. injection H as <- <-. split; [reflexivity|].
    rewrite length_skipn. lia.
  - destruct s; discriminate.
Qed.

Lemma expect_fuel (word : jsstring) (v : value) (s : jsstring) :
  expect word v s <> POutOfFuel.
Proof. unfold expect. destruct (startsWith s word); [|destruct s]; discriminate. Qed.

Lemma skip_ws_cons_length (s : jsstring) (c : code_unit) (r : jsstring) :
  skip_ws s = c :: r -> (length r < length s)%nat.
Proof.
  intros H. pose proof (skip_ws_length s) as L. rewrite H in L.
  cbn [length] in L. lia.
Qed.

Lemma closes_length (closing : code_unit) (s r : jsstring) :
  closes closing s = Some r -> (length r < length s)%nat.
Proof.
  unfold closes. destruct (skip_ws s) as [|c t] eqn:E; [discriminate|].
  destruct (c =? closing)%N; [|discriminate]. intros H. injection H as <-.
  eapply skip_ws_cons_length. eassumption.
Qed.

(** The parser hands back a suffix no longer than what it was given. *)
Lemma parse_rest (f : nat) :
  (forall s v r, parse_value f s = POk v r -> (length r <= length s)%nat)
  /\ (forall s l r, parse_elements f s = POk l r -> (length r <= length s)%nat)
  /\ (forall s l r, parse_members f s = POk l r -> (length r <= length s)%nat).
Proof.
  induction f as [|f (IHv & IHe & IHm)]; [repeat split; discriminate|].
  repeat split.
  - intros s v r H. rewrite parse_value_S in H.
    destruct (skip_ws s) as [|c t] eqn:Es; [discriminate|].
    apply skip_ws_cons_length in Es.
    repeat split_match H; try discriminate.
    + injection H as <- <-. apply closes_length in E0. lia.
    + apply pmap_ok_inv in H as (a & H & _). apply IHm in H. lia.
    + injection H as <- <-. apply closes_length in E1. lia.
    + apply pmap_ok_inv in H as (a & H & _). apply IHe in H. lia.
    + apply pmap_ok_inv in H as (a & H & _).
      apply parse_string_body_rest in H. lia.
    + apply expect_inv in H as [_ H]. lia.
    + apply expect_inv in H as [_ H]. lia.
    + apply expect_inv in H as [_ H]. lia.
    + injection H as <- <-. apply span_spec in E6 as (E6 & _).
      apply (f_equal (@length _)) in E6. rewrite length_app in E6.
      cbn [length] in *. lia.
  - intros s l r H. rewrite parse_elements_S in H.
    destruct (parse_value f s) as [v t| |] eqn:Ev; try discriminate.
    apply IHv in Ev.
    destruct (skip_ws t) as [|c t'] eqn:Et; [discriminate|].
    apply skip_ws_cons_length in Et.
    repeat split_match H; try discriminate.
    + apply pmap_ok_inv in H as (a & H & _). apply IHe in H. lia.
    + injection H as <- <-. lia.
  - intros s l r H. rewrite parse_members_S in H.
    destruct (skip_ws s) as [|q t] eqn:Es; [discriminate|].
    apply skip_ws_cons_length in Es.
    destruct (q =? 34)%N; [|discriminate].
    destruct (parse_string_body t) as [k r1| |] eqn:Ek; try discriminate.
    apply parse_string_body_rest in Ek.
    destruct (skip_ws r1) as [|colon r2] eqn:E1; [discriminate|].
    apply skip_ws_cons_length in E1.
    destruct (colon =? 58)%N; [|discriminate].
    destruct (parse_value f r2) as [v r3| |] eqn:Ev; try discriminate.
    apply IHv in Ev.
    destruct (skip_ws r3) as [|c r4] eqn:E3; [discriminate|].
    apply skip_ws_cons_length in E3.
    repeat split_match H; try discriminate.
    + apply pmap_ok_inv in H as (a & H & _). apply IHm in H. lia.
    + injection H as <- <-. lia.
Qed.

(** With fuel above twice the length of the text the parser never runs
    out of it. *)
Lemma parse_fuel_enough (f : nat) :
  (forall s, (2 * length s + 1 <= f)%nat -> parse_value f s <> POutOfFuel)
  /\ (forall s, (2 * length s + 2 <= f)%nat -> parse_elements f s <> POutOfFuel)
  /\ (forall s, (2 * length s + 2 <= f)%nat -> parse_members f s <> POutOfFuel).
Proof.
  induction f as [|f (IHv & IHe & IHm)]; [repeat split; intros; lia|].
  repeat split.
  - intros s Hf H. rewrite parse_value_S in H.
    destruct (skip_ws s) as [|c t] eqn:Es; [discriminate|].
    apply skip_ws_cons_length in Es.
    repeat split_match H; try discriminate.
    + apply pmap_fuel in H. apply IHm in H; [assumption|lia].
    + apply pmap_fuel in H. apply IHe in H; [assumption|lia].
    + apply pmap_fuel in H. apply parse_string_body_fuel in H. assumption.
    + apply expect_fuel in H. assumption.
    + apply expect_fuel in H. assumption.
    + apply expect_fuel in H. assumption.
  - intros s Hf H. rewrite parse_elements_S in H.
    destruct (parse_value f s) as [v t| |] eqn:Ev; try discriminate.
    + apply (proj1 (parse_rest f)) in Ev.
      destruct (skip_ws t) as [|c t'] eqn:Et; [discriminate|].
      apply skip_ws_cons_length in Et.
      repeat split_match H; try discriminate.
      apply pmap_fuel in H. apply IHe in H; [assumption|lia].
    + apply IHv in Ev; [assumption|lia].
  - intros s Hf H. rewrite parse_members_S in H.
    destruct (skip_ws s) as [|q t] eqn:Es; [discriminate|].
    apply skip_ws_cons_length in Es.
    destruct (q =? 34)%N; [|discriminate].
    destruct (parse_string_body t) as [k r1| |] eqn:Ek; try discriminate.
    + apply parse_string_body_rest in Ek.
      destruct (skip_ws r1) as [|colon r2] eqn:E1; [discriminate|].
      apply skip_ws_cons_length in E1.
      destruct (colon =? 58)%N; [|discriminate].
      destruct (parse_value f r2) as [v r3| |] eqn:Ev; try discriminate.
      * apply (proj1 (parse_rest f)) in Ev.
        destruct (skip_ws r3) as [|c r4] eqn:E3; [discriminate|].
        apply skip_ws_cons_length in E3.
        repeat split_match H; try discriminate.
        apply pmap_fuel in H. apply IHm in H; [assumption|lia].
      * apply IHv in Ev; [assumption|lia].
    + apply parse_string_body_fuel in Ek. assumption.
Qed.

(** [JSON.parse] returns a value or throws a SyntaxError, nothing else. *)
Lemma JSON_parse_total (text : jsstring) :
  (exists v, JSON_parse text = Normal v)
  \/ (exists msg, JSON_parse text = Throw (ErrorObject SyntaxErrorClass msg)).
Proof.
  unfold JSON_parse.
  destruct (parse_value (parse_fuel text) text) as [v r|msg|] eqn:E.
  - destruct (skip_ws r); eauto.
  - eauto.
  - exfalso. apply (proj1 (parse_fuel_enough (parse_fuel text))) in E;
      [assumption|]. unfold parse_fuel. lia.
Qed.

(** Everything the parser builds is a ParsedValue. *)
Lemma parse_ParsedValue (f : nat) :
  (forall s v r, parse_value f s = POk v r -> is_ParsedValue v = true)
  /\ (forall s l r, parse_elements f s = POk l r ->
        forallb is_ParsedValue l = true)
  /\ (forall s l r, parse_members f s = POk l r ->
        forallb (fun m => is_ParsedValue (snd m)) l = true).
Proof.
  induction f as [|f (IHv & IHe & IHm)]; [repeat split; discriminate|].
  repeat split.
  - intros s v r H. rewrite parse_value_S in H.
    destruct (skip_ws s) as [|c t] eqn:Es; [discriminate|].
    repeat split_match H; try discriminate.
    + injection H as <- <-. reflexivity.
    + apply pmap_ok_inv in H as (a & H & ->). apply IHm in H.
      rewrite is_ParsedValue_object, build_object_own_property_order.
      apply forallb_build_object. assumption.
    + injection H as <- <-. reflexivity.
    + apply pmap_ok_inv in H as (a & H & ->). apply IHe in H. exact H.
    + apply pmap_ok_inv in H as (a & H & ->). reflexivity.
    + apply expect_inv in H as [-> _]. reflexivity.
    + apply expect_inv in H as [-> _]. reflexivity.
    + apply expect_inv in H as [-> _]. reflexivity.
    + injection H as <- <-. reflexivity.
  - intros s l r H. rewrite parse_elements_S in H.
    destruct (parse_value f s) as [v t| |] eqn:Ev; try discriminate.
    apply IHv in Ev.
    destruct (skip_ws t) as [|c t'] eqn:Et; [discriminate|].
    repeat split_match H; try discriminate.
    + apply pmap_ok_inv in H as (a & H & ->). apply IHe in H.
      cbn [forallb]. rewrite Ev, H. reflexivity.
    + injection H as <- <-. cbn [forallb]. rewrite Ev. reflexivity.
  - intros s l r H. rewrite parse_members_S in H.
    destruct (skip_ws s) as [|q t] eqn:Es; [discriminate|].
    destruct (q =? 34)%N; [|discriminate].
    destruct (parse_string_body t) as [k r1| |] eqn:Ek; try discriminate.
    destruct (skip_ws r1) as [|colon r2] eqn:E1; [discriminate|].
    destruct (colon =? 58)%N; [|discriminate].
    destruct (parse_value f r2) as [v r3| |] eqn:Ev; try discriminate.
    apply IHv in Ev.
    destruct (skip_ws r3) as [|c r4] eqn:E3; [discriminate|].
    repeat split_match H; try discriminate.
    + apply pmap_ok_inv in H as (a & H & ->). apply IHm in H.
      cbn [forallb snd]. rewrite Ev, H. reflexivity.
    + injection H as <- <-. cbn [forallb snd]. rewrite Ev. reflexivity.
Qed.

Lemma JSON_parse_ParsedValue (text : jsstring) (v : value) :
  JSON_parse text = Normal v -> is_ParsedValue v = true.
Proof.
  unfold JSON_parse.
  destruct (parse_value (parse_fuel text) text) as [v' r|msg|] eqn:E;
    [|discriminate|discriminate].
  destruct (skip_ws r); [|discriminate]. intros H. injection H as <-.
  eapply (proj1 (parse_ParsedValue _)). eassumption.
Qed.

(** A text that starts with a bracket parses to an object or an array,
    never to a string. *)
Lemma JSON_parse_bracket (text : jsstring) (v : value) :
  looks_like_json text = true -> JSON_parse text = Normal v ->
  match v with VObject _ | VArray _ => True | _ => False end.
Proof.
  unfold looks_like_json, JSON_parse, parse_fuel. intros Hl.
  replace (2 * length text + 2)%nat with (S (2 * length text + 1)) by lia.
  rewrite parse_value_S.
  destruct text as [|c t]; [discriminate|].
  assert (Hc : c = 123%N \/ c = 91%N).
  { apply orb_true_iff in Hl as [Hl|Hl]; apply andb_true_iff in Hl as [Hl _];
      change (startsWith (c :: t) (utf16 "{")) with ((123 =? c)%N && true) in Hl;
      change (startsWith (c :: t) (utf16 "[")) with ((91 =? c)%N && true) in Hl;
      apply andb_true_iff in Hl as [Hl _];
      apply N.eqb_eq in Hl; auto. }
  destruct Hc as [-> | ->]; rewrite skip_ws_stop by reflexivity.
  - change (123 =? 123)%N with true. cbv iota.
    destruct (closes 125%N t) as [r|].
    + destruct (skip_ws r); [|discriminate]. intros H. injection H as <-. exact I.
    + destruct (parse_members _ t) as [ms r| |]; cbn [pmap]; try discriminate.
      destruct (skip_ws r); [|discriminate]. intros H. injection H as <-.
      exact I.
  - change (91 =? 123)%N with false. change (91 =? 91)%N with true. cbv iota.
    destruct (closes 93%N t) as [r|].
    + destruct (skip_ws r); [|discriminate]. intros H. injection H as <-. exact I.
    + destruct (parse_elements _ t) as [es r| |]; cbn [pmap]; try discriminate.
      destruct (skip_ws r); [|discriminate]. intros H. injection H as <-.
      exact I.
Qed.


(* ================================================================== *)
(** * [parseJson] and [formatJson] as functions of their arguments *)
(* ================================================================== *)

Lemma truthy_false (s : jsstring) : truthy s = false <-> s = [].
Proof. destruct s; simpl; split; congruence. Qed.

Lemma truthy_true (s : jsstring) : truthy s = true <-> s <> [].
Proof. destruct s; simpl; split; congruence. Qed.

Lemma logged_nil (w : World) : logged w [] = w.
Proof. destruct w. unfold logged. cbn. rewrite app_nil_r. reflexivity. Qed.

Lemma logged_logged (w : World) (a b : list call) :
  logged (logged w a) b = logged w (a ++ b).
Proof. unfold logged. cbn. rewrite app_assoc. reflexivity. Qed.

Lemma call_JSON_parse_run (text : jsstring) (w : World) :
  call_JSON_parse text w = (JSON_parse text, logged w [CallParse text]).
Proof. reflexivity. Qed.

Lemma call_JSON_stringify_run (v : value) (space : option number) (w : World) :
  call_JSON_stringify v space w
  = (JSON_stringify v space, logged w [CallStringify v space]).
Proof. reflexivity. Qed.

Lemma parseJson_empty (text : jsstring) (w : World) :
  trim text = [] -> parseJson text w = (Normal VNull, w).
Proof.
  intros H. unfold parseJson, try_catch. rewrite H. reflexivity.
Qed.

Lemma parseJson_throw (text : jsstring) (err : thrown) (w : World) :
  trim text <> [] -> JSON_parse (trim text) = Throw err ->
  parseJson text w = (Throw (rethrown err), logged w [CallParse (trim text)]).
Proof.
  intros Hne H. apply truthy_true in Hne.
  unfold parseJson, try_catch, bind. rewrite Hne. cbn [negb].
  rewrite call_JSON_parse_run, H.
  destruct err as [[| | |] message|v]; reflexivity.
Qed.

Lemma parseJson_value (text : jsstring) (outer : value) (w : World) :
  trim text <> [] -> JSON_parse (trim text) = Normal outer ->
  parseJson text w
  = (Normal (spec_recover outer),
     logged w (CallParse (trim text) :: recovery_calls outer)).
Proof.
  intros Hne H. apply truthy_true in Hne.
  unfold parseJson, try_catch, bind. rewrite Hne. cbn [negb].
  rewrite call_JSON_parse_run, H.
  destruct outer as [| |b|n|z|str|l|l]; try reflexivity.
  cbn [spec_recover recovery_calls].
  destruct (looks_like_json (trim str)); [|reflexivity].
  rewrite call_JSON_parse_run, logged_logged.
  destruct (JSON_parse (trim str)); reflexivity.
Qed.

(** The code's Normalizer is the specification's. *)
Lemma parseJson_result (text : jsstring) (w : World) :
  fst (parseJson text w) = spec_normalize text.
Proof.
  unfold spec_normalize. destruct (trim text) as [|c t] eqn:E.
  - rewrite parseJson_empty by assumption. reflexivity.
  - destruct (JSON_parse (c :: t)) as [outer|err] eqn:P.
    + rewrite (parseJson_value text outer); rewrite E; [reflexivity|discriminate|assumption].
    + rewrite (parseJson_throw text err); rewrite E; [|discriminate|assumption].
      destruct err as [[| | |] message|v]; reflexivity.
Qed.

(** [parseJson] leaves the cells alone. *)
Lemma parseJson_react (text : jsstring) (w : World) :
  react (snd (parseJson text w)) = react w.
Proof.
  destruct (trim text) as [|c t] eqn:E.
  - rewrite parseJson_empty by assumption. reflexivity.
  - destruct (JSON_parse (c :: t)) as [outer|err] eqn:P.
    + rewrite (parseJson_value text outer); rewrite E; [reflexivity|discriminate|assumption].
    + rewrite (parseJson_throw text err); rewrite E; [reflexivity|discriminate|assumption].
Qed.

Lemma normalize_spec (raw : jsstring) : normalize raw = spec_normalize raw.
Proof. apply parseJson_result. Qed.

(** What [spec_recover] returns is stable: recovering it again changes
    nothing, because a bracketed text never parses to a string. *)
Lemma spec_recover_idempotent (outer : value) :
  spec_recover (spec_recover outer) = spec_recover outer.
Proof.
  destruct outer as [| |b|n|z|str|l|l]; try reflexivity.
  cbn [spec_recover].
  destruct (looks_like_json (trim str)) eqn:L.
  - destruct (JSON_parse (trim str)) as [inner|err] eqn:P.
    + pose proof (JSON_parse_bracket _ _ L P) as B.
      destruct inner; try contradiction; reflexivity.
    + cbn [spec_recover]. rewrite L, P. reflexivity.
  - cbn [spec_recover]. rewrite L. reflexivity.
Qed.

(** A successfully normalized value is a ParsedValue. *)
Lemma spec_recover_ParsedValue (outer : value) :
  is_ParsedValue outer = true -> is_ParsedValue (spec_recover outer) = true.
Proof.
  intros H. destruct outer as [| |b|n|z|str|l|l]; try exact H.
  cbn [spec_recover]. destruct (looks_like_json (trim str)); [|exact H].
  destruct (JSON_parse (trim str)) as [inner|err] eqn:P; [|exact H].
  eapply JSON_parse_ParsedValue. eassumption.
Qed.

Lemma spec_normalize_ParsedValue (raw : jsstring) (v : value) :
  spec_normalize raw = Normal v -> is_ParsedValue v = true.
Proof.
  unfold spec_normalize. destruct (trim raw) as [|c t].
  - intros H. injection H as <-. reflexivity.
  - destruct (JSON_parse (c :: t)) as [outer|err] eqn:P.
    + intros H. injection H as <-. apply spec_recover_ParsedValue.
      eapply JSON_parse_ParsedValue. eassumption.
    + destruct err as [[| | |] message|v']; discriminate.
Qed.

(** A normalized value is a fixed point of the recovery step. *)
Lemma spec_normalize_recovered (raw : jsstring) (v : value) :
  spec_normalize raw = Normal v -> spec_recover v = v.
Proof.
  unfold spec_normalize. destruct (trim raw) as [|c t].
  - intros H. injection H as <-. reflexivity.
  - destruct (JSON_parse (c :: t)) as [outer|err] eqn:P.
    + intros H. injection H as <-. apply spec_recover_idempotent.
    + destruct err as [[| | |] message|v']; discriminate.
Qed.

(** [parseJson] is a function of its argument: same result, same calls,
    whatever the world. *)
Lemma parseJson_run (text : jsstring) (w : World) :
  parseJson text w
  = (fst (parseJson_outcome text), logged w (snd (parseJson_outcome text))).
Proof.
  unfold parseJson_outcome, run_result, run_calls. cbn [fst snd].
  destruct (trim text) as [|c t] eqn:E.
  - rewrite !parseJson_empty by assumption. cbn. rewrite logged_nil.
    reflexivity.
  - destruct (JSON_parse (c :: t)) as [outer|err] eqn:P.
    + rewrite !(parseJson_value text outer);
        rewrite ?E; try discriminate; try assumption. reflexivity.
    + rewrite !(parseJson_throw text err);
        rewrite ?E; try discriminate; try assumption. reflexivity.
Qed.

Lemma parseJson_outcome_result (text : jsstring) :
  fst (parseJson_outcome text) = spec_normalize text.
Proof. apply parseJson_result. Qed.

(** [formatJson], run. *)
Lemma formatJson_run (text : jsstring) (opts : FormatOptions) (w : World) :
  formatJson text opts w = (Normal tt, formatJson_world text opts w).
Proof.
  unfold formatJson, formatJson_world, try_catch, bind at 1 2.
  cbn [setError modify fst snd]. rewrite parseJson_run.
  destruct (parseJson_outcome text) as [[parsed|err] cs]; cbn [fst snd].
  - unfold format, space_of. destruct (minify opts).
    + unfold bind. rewrite call_JSON_stringify_run.
      destruct (JSON_stringify parsed None); cbn; rewrite <- app_assoc;
        reflexivity.
    + unfold bind. rewrite call_JSON_stringify_run.
      destruct (JSON_stringify parsed (Some (indent opts))); cbn;
        rewrite <- app_assoc; reflexivity.
  - destruct err; reflexivity.
Qed.


(* ================================================================== *)
(** * The handlers, run *)
(* ================================================================== *)

Lemma handleInputChange_run (newInput : jsstring) (w : World) :
  handleInputChange newInput w = (Normal tt, handleInputChange_world newInput w).
Proof.
  unfold handleInputChange, handleInputChange_world, bind at 1 2.
  cbn [read setInput modify fst snd].
  destruct (truthy (trim newInput)).
  - rewrite formatJson_run. reflexivity.
  - reflexivity.
Qed.

Lemma handleFormat_run (w : World) :
  handleFormat w
  = (Normal tt,
     if truthy (trim (input (react w)))
     then formatJson_world (input (react w)) (options (react w)) w
     else w).
Proof.
  unfold handleFormat, bind. cbn [read fst snd].
  destruct (truthy (trim (input (react w)))).
  - rewrite formatJson_run. reflexivity.
  - reflexivity.
Qed.

Lemma handleOptionsChange_run (newOptions : option number * option bool)
    (w : World) :
  let updatedOptions :=
    {| indent := match fst newOptions with
                 | Some i => i
                 | None => indent (options (react w))
                 end;
       minify := match snd newOptions with
                 | Some b => b
                 | None => minify (options (react w))
                 end |} in
  let w1 := {| react := with_options updatedOptions (react w);
               calls := calls w |} in
  handleOptionsChange newOptions w
  = (Normal tt,
     if truthy (trim (input (react w)))
     then formatJson_world (input (react w)) updatedOptions w1
     else w1).
Proof.
  unfold handleOptionsChange, bind. cbn [read setOptions modify fst snd].
  destruct (truthy (trim (input (react w)))).
  - rewrite formatJson_run. reflexivity.
  - reflexivity.
Qed.

(** After [formatJson] an error and a non-empty output never coexist. *)
Lemma formatJson_world_error (text : jsstring) (opts : FormatOptions) (w : World) :
  error (react (formatJson_world text opts w)) <> None ->
  output (react (formatJson_world text opts w)) = Some [].
Proof.
  unfold formatJson_world.
  destruct (parseJson_outcome text) as [[parsed|err] cs].
  - destruct (format parsed opts); cbn; congruence.
  - reflexivity.
Qed.

Lemma formatJson_world_input (text : jsstring) (opts : FormatOptions) (w : World) :
  input (react (formatJson_world text opts w)) = input (react w).
Proof.
  unfold formatJson_world.
  destruct (parseJson_outcome text) as [[parsed|err] cs];
    [destruct (format parsed opts)|]; reflexivity.
Qed.

(** The invariant behind the empty-input case: while the input is blank
    the output is empty and there is no error. *)
Lemma reachable_blank (st : State) :
  reachable st -> trim (input st) = [] ->
  output st = Some [] /\ error st = None.
Proof.
  induction 1 as [|st ev Hst IH].
  - intros _. split; reflexivity.
  - unfold run_state. destruct ev as [newInput| | |newOptions]; cbn [handle].
    + rewrite handleInputChange_run. cbn [snd].
      unfold handleInputChange_world. cbn [fresh react calls].
      destruct (truthy (trim newInput)) eqn:T.
      * rewrite formatJson_world_input. cbn [react with_input input].
        intros E. apply truthy_true in T. contradiction.
      * intros _. split; reflexivity.
    + rewrite handleFormat_run. cbn [snd fresh react].
      destruct (truthy (trim (input st))) eqn:T.
      * rewrite formatJson_world_input. cbn [react].
        intros E. apply truthy_true in T. contradiction.
      * exact IH.
    + intros _. split; reflexivity.
    + rewrite handleOptionsChange_run. cbn [snd fresh react calls].
      destruct (truthy (trim (input st))) eqn:T.
      * rewrite formatJson_world_input. cbn [react with_options input].
        intros E. apply truthy_true in T. contradiction.
      * cbn [react with_options input output error]. exact IH.
Qed.


(* ================================================================== *)
(** * The claims *)
(* ================================================================== *)

(** C1 -- double-encoding recovery.  When the primary parse of the trimmed
    input yields a string, that string is trimmed; if the trimmed string
    starts with an opening brace and ends with a closing brace, or starts
    with an opening bracket and ends with a closing bracket, [JSON.parse] is
    called a second time, on the trimmed string.  If the second parse
    succeeds [parseJson] returns its result, which is never a string and is
    not unwrapped again (two calls to the parser in all); if it fails the
    failure is swallowed and the outer, untrimmed string is returned.  When
    the heuristic does not match, or the primary parse yields anything but
    a string, the primary result is returned after that single call. *)
Theorem parseJson_double_encoding_recovery
    (text : jsstring) (outer : value) (w : World) :
  trim text <> [] -> JSON_parse (trim text) = Normal outer ->
  match outer with
  | VString str =>
      let trimmedString := trim str in
      if looks_like_json trimmedString then
        match JSON_parse trimmedString with
        | Normal inner =>
            parseJson text w
            = (Normal inner,
               logged w [CallParse (trim text); CallParse trimmedString])
            /\ (forall s, inner <> VString s)
        | Throw _ =>
            parseJson text w
            = (Normal (VString str),
               logged w [CallParse (trim text); CallParse trimmedString])
        end
      else
        parseJson text w
        = (Normal (VString str), logged w [CallParse (trim text)])
  | _ => parseJson text w = (Normal outer, logged w [CallParse (trim text)])
  end.
Proof.
  intros Hne H. rewrite (parseJson_value text outer w Hne H).
  destruct outer as [| |b|n|z|str|l|l]; try reflexivity.
  cbn [spec_recover recovery_calls].
  destruct (looks_like_json (trim str)) eqn:L; [|reflexivity].
  destruct (JSON_parse (trim str)) as [inner|err] eqn:P; [|reflexivity].
  split; [reflexivity|].
  intros s ->. exact (JSON_parse_bracket _ _ L P).
Qed.

Lemma parseJson_double_encoding_recovery_witness :
  trim (quoted "[1]") <> []
  /\ JSON_parse (trim (quoted "[1]")) = Normal (VString (utf16 "[1]"))
  /\ parseJson (quoted "[1]") (fresh initial_state)
     = (Normal (VArray [VNumber (Number_of_Z 1)]),
        logged (fresh initial_state)
          [CallParse (quoted "[1]"); CallParse (utf16 "[1]")]).
Proof.
  pose proof (parseJson_double_encoding_recovery
                (quoted "[1]") (VString (utf16 "[1]")) (fresh initial_state)
                ltac:(vm_compute; discriminate)
                ltac:(vm_compute; reflexivity)) as H.
  split; [vm_compute; discriminate|].
  split; [vm_compute; reflexivity|].
  vm_compute in H |- *. exact (proj1 H).
Defined.

(** C3 -- syntax errors.  When the parse of step 2 throws a SyntaxError
    with message [msg], [parseJson] throws an error whose message is
    [msg] prefixed with "Invalid JSON: "; [formatJson] then stores that
    message in [error], stores the empty string in [output] whatever the
    output was before, and never calls [JSON.stringify] (the only call it
    makes is the parse).  And whatever the input, after [formatJson] an
    error and a non-empty output never coexist. *)
Theorem formatJson_syntax_error :
  (forall (text msg : jsstring) (opts : FormatOptions) (w : World),
      trim text <> [] ->
      JSON_parse (trim text) = Throw (ErrorObject SyntaxErrorClass msg) ->
      fst (parseJson text w)
      = Throw (ErrorObject ErrorClass (utf16 "Invalid JSON: " ++ msg))
      /\ fst (formatJson text opts w) = Normal tt
      /\ error (react (snd (formatJson text opts w)))
         = Some (utf16 "Invalid JSON: " ++ msg)
      /\ output (react (snd (formatJson text opts w))) = Some []
      /\ calls (snd (formatJson text opts w))
         = calls w ++ [CallParse (trim text)]
      /\ isValid (react (snd (formatJson text opts w))) = false)
  /\ (forall (text : jsstring) (opts : FormatOptions) (w : World),
         error (react (snd (formatJson text opts w))) <> None ->
         output (react (snd (formatJson text opts w))) = Some []).
Proof.
  split.
  - intros text msg opts w Hne H.
    pose proof (parseJson_throw text _ (fresh initial_state) Hne H) as P0.
    rewrite (parseJson_throw text _ w Hne H), formatJson_run.
    cbn [fst snd]. unfold formatJson_world, parseJson_outcome, run_result,
      run_calls. rewrite P0. cbn. repeat split; reflexivity.
  - intros text opts w. rewrite formatJson_run. cbn [snd].
    apply formatJson_world_error.
Qed.

Lemma formatJson_syntax_error_witness :
  let text := utf16 "{" ++ quoted "a" ++ utf16 ":}" in
  let opts := {| indent := Number_of_Z 2; minify := false |} in
  let w := {| react := with_output (Some (utf16 "stale")) initial_state;
              calls := [] |} in
  trim text <> []
  /\ JSON_parse (trim text) = Throw (ErrorObject SyntaxErrorClass msg_token)
  /\ error (react (snd (formatJson text opts w)))
     = Some (utf16 "Invalid JSON: Unexpected token in JSON")
  /\ output (react (snd (formatJson text opts w))) = Some [].
Proof.
  intros text opts w.
  pose proof (proj1 formatJson_syntax_error text msg_token opts w
                ltac:(vm_compute; discriminate)
                ltac:(vm_compute; reflexivity)) as (_ & _ & He & Ho & _).
  split; [vm_compute; discriminate|].
  split; [vm_compute; reflexivity|].
  split; [exact He|exact Ho].
Defined.

(** C4 -- blank input.  For an input made of white space only (or empty)
    [parseJson] returns [null] without calling the parser; the input
    handler raises nothing, calls neither built-in, and leaves an empty
    output and no error; and in every state the component can reach, a
    blank input goes with an empty output and no error. *)
Theorem blank_input (text : jsstring) :
  forallb is_js_whitespace text = true ->
  (forall w, parseJson text w = (Normal VNull, w))
  /\ (forall w,
         fst (handleInputChange text w) = Normal tt
         /\ output (react (snd (handleInputChange text w))) = Some []
         /\ error (react (snd (handleInputChange text w))) = None
         /\ calls (snd (handleInputChange text w)) = calls w)
  /\ (forall st, reachable st -> input st = text ->
         output st = Some [] /\ error st = None).
Proof.
  intros H. apply trim_whitespace in H. split; [|split].
  - intros w. apply parseJson_empty. exact H.
  - intros w. rewrite handleInputChange_run. cbn [fst snd].
    unfold handleInputChange_world. rewrite H. cbn.
    repeat split; reflexivity.
  - intros st Hst E. apply (reachable_blank st Hst). rewrite E. exact H.
Qed.

Lemma blank_input_witness :
  forallb is_js_whitespace [32; 9; 10; 13; 160]%N = true
  /\ parseJson [32; 9; 10; 13; 160]%N (fresh initial_state)
     = (Normal VNull, fresh initial_state)
  /\ output (react (snd (handleInputChange [32; 9; 10; 13; 160]%N
                           (fresh initial_state)))) = Some [].
Proof.
  pose proof (blank_input [32; 9; 10; 13; 160]%N ltac:(reflexivity))
    as (Hp & Hh & _).
  split; [reflexivity|].
  split; [apply Hp|apply (Hh (fresh initial_state))].
Defined.

(** What [formatJson] does after a successful [parseJson]. *)
Lemma format_never_fails_aux (text : jsstring) (v : value) (w : World)
    (H : fst (parseJson text w) = Normal v) (opts : FormatOptions) :
  is_ParsedValue v = true
  /\ format v opts
     = Normal (Some (text_of [] (gap_of_space (space_of opts)) v))
  /\ error (react (snd (formatJson text opts w))) = None
  /\ output (react (snd (formatJson text opts w)))
     = Some (text_of [] (gap_of_space (space_of opts)) v).
Proof.
  rewrite parseJson_result in H.
  pose proof (spec_normalize_ParsedValue _ _ H) as Hv.
  assert (F : format v opts
              = Normal (Some (text_of [] (gap_of_space (space_of opts)) v))).
  { unfold format, space_of, JSON_stringify.
    destruct (minify opts); apply SerializeJSONProperty_ParsedValue; exact Hv. }
  split; [exact Hv|]. split; [exact F|].
  rewrite formatJson_run. cbn [snd]. unfold formatJson_world.
  rewrite <- parseJson_outcome_result in H.
  destruct (parseJson_outcome text) as [r cs]. cbn [fst] in H. subst r.
  rewrite F. split; reflexivity.
Qed.



(** C9 -- determinism and purity.  [parseJson] returns the same result
    from any two worlds and writes no cell; [formatJson] called twice with
    the same text and options leaves the same output and the same error and
    makes the same calls, whatever the cells held before. *)
Theorem pipeline_deterministic
    (text : jsstring) (opts : FormatOptions) (w1 w2 : World) :
  fst (parseJson text w1) = fst (parseJson text w2)
  /\ react (snd (parseJson text w1)) = react w1
  /\ fst (formatJson text opts w1) = fst (formatJson text opts w2)
  /\ output (react (snd (formatJson text opts w1)))
     = output (react (snd (formatJson text opts w2)))
  /\ error (react (snd (formatJson text opts w1)))
     = error (react (snd (formatJson text opts w2)))
  /\ exists cs, calls (snd (formatJson text opts w1)) = calls w1 ++ cs
                /\ calls (snd (formatJson text opts w2)) = calls w2 ++ cs.
Proof.
  split; [rewrite !parseJson_result; reflexivity|].
  split; [apply parseJson_react|].
  rewrite !formatJson_run. cbn [fst snd]. unfold formatJson_world.
  destruct (parseJson_outcome text) as [[parsed|err] cs].
  - destruct (format parsed opts); repeat split; eexists; split; reflexivity.
  - repeat split. eexists; split; reflexivity.
Qed.

(** C10 -- minify ignores the indent.  With [minify] set, the Formatter
    returns the same text for any two indent widths, and [formatJson]
    behaves identically. *)
Theorem minify_ignores_indent (i j : number) :
  (forall v : value,
      format v {| indent := i; minify := true |}
      = format v {| indent := j; minify := true |})
  /\ (forall (text : jsstring) (w : World),
         formatJson text {| indent := i; minify := true |} w
         = formatJson text {| indent := j; minify := true |} w).
Proof.
  split; [reflexivity|]. intros text w. rewrite !formatJson_run. reflexivity.
Qed.


(* ================================================================== *)
(** * The characters of a serialized number *)
(* ================================================================== *)

Lemma is_digit_digit_char (z : Z) : is_digit (digit_char (z mod 10)) = true.
Proof.
  unfold is_digit, digit_char.
  pose proof (Z.mod_pos_bound z 10 ltac:(lia)) as B.
  apply andb_true_iff. split; apply N.leb_le; lia.
Qed.

Lemma forallb_digits_of (k : nat) :
  forall z acc, forallb is_digit acc = true ->
  forallb is_digit (digits_of k z acc) = true.
Proof.
  induction k as [|k IH]; intros z acc H; [exact H|].
  cbn [digits_of]. apply IH. cbn [forallb].
  rewrite is_digit_digit_char, H. reflexivity.
Qed.

Lemma forallb_firstn_skipn {A} (p : A -> bool) (n : nat) (l : list A) :
  forallb p l = true ->
  forallb p (firstn n l) = true /\ forallb p (skipn n l) = true.
Proof.
  intros H. rewrite <- (firstn_skipn n l), forallb_app in H.
  apply andb_true_iff in H. exact H.
Qed.

Lemma forallb_zeros (n : Z) : forallb is_digit (zeros n) = true.
Proof.
  unfold zeros. induction (Z.to_nat n) as [|k IH]; [reflexivity|].
  cbn [repeat forallb]. rewrite IH. reflexivity.
Qed.

Lemma forallb_Z_toString (z : Z) : forallb is_number_char (Z_toString z) = true.
Proof.
  unfold Z_toString. destruct (z <? 0).
  - cbn [forallb]. rewrite digits_are_number_chars; [reflexivity|].
    apply forallb_digits_of. reflexivity.
  - apply digits_are_number_chars. apply forallb_digits_of. reflexivity.
Qed.

Lemma forallb_format_decimal (k : nat) (s n : Z) :
  forallb is_number_char (format_decimal k s n) = true.
Proof.
  unfold format_decimal.
  assert (Hds : forallb is_digit (digits_of k s []) = true)
    by (apply forallb_digits_of; reflexivity).
  pose proof (digits_are_number_chars _ Hds) as Hc.
  destruct ((Z.of_nat k <=? n) && (n <=? 21)).
  { rewrite forallb_app, Hc, (digits_are_number_chars _ (forallb_zeros _)).
    reflexivity. }
  destruct ((0 <? n) && (n <=? 21)).
  { destruct (forallb_firstn_skipn is_number_char (Z.to_nat n) _ Hc) as [H1 H2].
    rewrite forallb_app. cbn [forallb]. rewrite H1, H2. reflexivity. }
  destruct ((-6 <? n) && (n <=? 0)).
  { cbn [forallb]. rewrite forallb_app, Hc,
      (digits_are_number_chars _ (forallb_zeros _)). reflexivity. }
  assert (He : forall c, is_number_char c = true ->
               forallb is_number_char (c :: Z_toString (Z.abs (n - 1))) = true).
  { intros c E. cbn [forallb]. rewrite E, forallb_Z_toString. reflexivity. }
  assert (Hex : forallb is_number_char
                  ((if n - 1 <? 0 then 45%N else 43%N)
                     :: Z_toString (Z.abs (n - 1))) = true)
    by (apply He; destruct (n - 1 <? 0); reflexivity).
  destruct (digits_of k s []) as [|d [|d' rest]]; [reflexivity| |].
  - cbn [forallb] in *. apply andb_true_iff in Hc as [-> _].
    apply andb_true_iff in Hex as [-> ->]. reflexivity.
  - cbn [forallb] in Hc. apply andb_true_iff in Hc as [Hd Hc].
    change (forallb is_number_char
              (d :: 46%N :: (d' :: rest)
                 ++ 101%N :: (if n - 1 <? 0 then 45%N else 43%N)
                 :: Z_toString (Z.abs (n - 1))) = true).
    cbn [forallb]. rewrite Hd, forallb_app. cbn [forallb] in *.
    rewrite Hc. apply andb_true_iff in Hex as [-> ->]. reflexivity.
Qed.

(** A finite number is written with the characters of numbers only. *)
Lemma Number_toString_chars (n : number) :
  is_finite n = true -> forallb is_number_char (Number_toString n) = true.
Proof.
  destruct n as [s|s| |s m e]; try discriminate; intros _.
  - reflexivity.
  - unfold Number_toString, positive_toString.
    destruct (scale2 (Z.pos m) 1 (- e)) as [p q].
    destruct (shortest_digits 16 _ p q (decimal_exponent p q) 1)
      as [[k s'] n'].
    rewrite forallb_app, forallb_format_decimal.
    destruct s; reflexivity.
Qed.


(* ================================================================== *)
(** * Minified text has no white space outside string literals *)
(* ================================================================== *)

Lemma compact_nil : compact [].
Proof. exists []. split; reflexivity. Qed.

Lemma compact_app (a b : jsstring) : compact a -> compact b -> compact (a ++ b).
Proof.
  intros (ta & Ha & Ea) (tb & Hb & Eb). exists (ta ++ tb). split.
  - rewrite forallb_app, Ha, Hb. reflexivity.
  - intros r. rewrite <- !app_assoc, Ea, Eb. reflexivity.
Qed.

Lemma compact_plain (s : jsstring) :
  forallb (fun c => negb (c =? 34)%N && negb (is_json_ws c)) s = true ->
  compact s.
Proof.
  intros H. exists s. split.
  - rewrite forallb_forall in *. intros c Hc. specialize (H c Hc).
    apply andb_true_iff in H as [_ H]. exact H.
  - intros r. induction s as [|c s IH]; [reflexivity|].
    cbn [forallb] in H. apply andb_true_iff in H as [Hc H].
    apply andb_true_iff in Hc as [Hc _]. apply negb_true_iff in Hc.
    cbn [app outside_strings]. rewrite Hc, IH by assumption. reflexivity.
Qed.

Lemma compact_number_chars (s : jsstring) :
  forallb is_number_char s = true -> compact s.
Proof.
  intros H. apply compact_plain. rewrite forallb_forall in *.
  intros c Hc. specialize (H c Hc).
  pose proof (number_char_range c H) as R.
  apply andb_true_iff. split; apply negb_true_iff.
  - apply N.eqb_neq. lia.
  - destruct (is_json_ws c) eqn:E; [|reflexivity].
    apply json_ws_not_number_char in E. congruence.
Qed.

Lemma outside_literal_unit (c : code_unit) (t : jsstring) :
  c <> 34%N -> c <> 92%N ->
  outside_strings true false (c :: t) = outside_strings true false t.
Proof.
  intros H1 H2. cbn [outside_strings].
  apply N.eqb_neq in H1. apply N.eqb_neq in H2. rewrite H1, H2. reflexivity.
Qed.

Lemma hex_char_plain (d : N) :
  (d < 16)%N -> hex_char d <> 34%N /\ hex_char d <> 92%N.
Proof.
  intros H. unfold hex_char. destruct (d <? 10)%N eqn:E; bool_to_prop; lia.
Qed.

Lemma outside_UnicodeEscape (c : code_unit) (t : jsstring) :
  outside_strings true false (UnicodeEscape c ++ t)
  = outside_strings true false t.
Proof.
  unfold UnicodeEscape. cbn [app].
  change (outside_strings true false (92%N :: 117%N :: ?x))
    with (outside_strings true false x).
  assert (B : forall x, (x mod 16 < 16)%N) by (intros x; apply N.mod_lt; discriminate).
  rewrite !outside_literal_unit; try apply hex_char_plain; try apply B.
  reflexivity.
Qed.

Lemma outside_escape_unit (c : code_unit) (t : jsstring) :
  outside_strings true false (escape_unit c ++ t)
  = outside_strings true false t.
Proof.
  unfold escape_unit.
  destruct (c =? 8)%N; [reflexivity|].
  destruct (c =? 9)%N; [reflexivity|].
  destruct (c =? 10)%N; [reflexivity|].
  destruct (c =? 12)%N; [reflexivity|].
  destruct (c =? 13)%N; [reflexivity|].
  destruct (c =? 34)%N eqn:E34; [reflexivity|].
  destruct (c =? 92)%N eqn:E92; [reflexivity|].
  destruct (c <? 32)%N; [apply outside_UnicodeEscape|].
  bool_to_prop. apply outside_literal_unit; assumption.
Qed.

Lemma outside_quote_units_bounded (n : nat) :
  forall s r, (length s <= n)%nat ->
  outside_strings true false (quote_units s ++ 34%N :: r)
  = outside_strings false false r.
Proof.
  induction n as [|n IH]; intros s r Hn.
  - destruct s; [reflexivity|simpl in Hn; lia].
  - destruct s as [|c t]; [reflexivity|].
    simpl in Hn. cbn [quote_units].
    destruct (is_high_surrogate c) eqn:Hh.
    + unfold is_high_surrogate in Hh. bool_to_prop.
      destruct t as [|d t'].
      * rewrite outside_UnicodeEscape. reflexivity.
      * destruct (is_low_surrogate d) eqn:Hl.
        -- unfold is_low_surrogate in Hl. bool_to_prop. cbn [app].
           rewrite !outside_literal_unit by lia.
           apply IH. simpl in Hn. lia.
        -- rewrite <- app_assoc, outside_UnicodeEscape. apply IH. lia.
    + destruct (is_low_surrogate c).
      * rewrite <- app_assoc, outside_UnicodeEscape. apply IH. lia.
      * rewrite <- app_assoc, outside_escape_unit. apply IH. lia.
Qed.

Lemma compact_QuoteJSONString (s : jsstring) : compact (QuoteJSONString s).
Proof.
  exists []. split; [reflexivity|]. intros r.
  unfold QuoteJSONString. cbn [app outside_strings].
  change (34 =? 34)%N with true. cbv iota.
  rewrite <- app_assoc. cbn [app].
  apply (outside_quote_units_bounded (length s)). lia.
Qed.

Lemma compact_join (sep : jsstring) (parts : list jsstring) :
  compact sep -> Forall compact parts -> compact (join sep parts).
Proof.
  intros Hsep. induction 1 as [|p ps Hp Hps IH]; [apply compact_nil|].
  destruct ps as [|q ps]; [exact Hp|].
  rewrite join_cons2. apply compact_app; [exact Hp|].
  apply compact_app; assumption.
Qed.

Lemma compact_wrap_partial (o c : code_unit) (sb ind : jsstring)
    (parts : list jsstring) :
  compact [o] -> compact [c] -> Forall compact parts ->
  compact (wrap_partial o c sb ind [] parts).
Proof.
  intros Ho Hc Hparts. unfold wrap_partial.
  destruct parts as [|p ps].
  - apply (compact_app [o] [c]); assumption.
  - change (compact ([o] ++ join [44%N] (p :: ps) ++ [c])).
    apply compact_app; [exact Ho|]. apply compact_app; [|exact Hc].
    apply compact_join; [|exact Hparts].
    apply compact_plain. reflexivity.
Qed.

(** The minified text of a ParsedValue is compact. *)
Lemma compact_text_of (v : value) :
  is_ParsedValue v = true -> forall i, compact (text_of i [] v).
Proof.
  induction v as [| |b|n|z|s|l IH|l IH] using value_induction;
    intros Hv i; try discriminate.
  - apply compact_plain. reflexivity.
  - destruct b; apply compact_plain; reflexivity.
  - unfold text_of. cbn [SerializeJSONProperty].
    destruct (is_finite n) eqn:F.
    + apply compact_number_chars. apply Number_toString_chars. exact F.
    + apply compact_plain. reflexivity.
  - apply compact_QuoteJSONString.
  - cbn [is_ParsedValue] in Hv. rewrite text_of_array by assumption.
    apply compact_wrap_partial; try (apply compact_plain; reflexivity).
    apply Forall_map. rewrite Forall_forall in *.
    rewrite forallb_forall in Hv. intros e He. apply IH; auto.
  - rewrite is_ParsedValue_object in Hv. apply andb_true_iff in Hv as [_ Hv].
    rewrite text_of_object by assumption.
    apply compact_wrap_partial; try (apply compact_plain; reflexivity).
    apply Forall_map. rewrite Forall_forall in *.
    rewrite forallb_forall in Hv. intros m Hm.
    unfold member_text. apply compact_app; [apply compact_QuoteJSONString|].
    apply (compact_app [58%N]); [apply compact_plain; reflexivity|].
    apply IH; auto.
Qed.

Lemma compact_no_ws (s : jsstring) :
  compact s ->
  forallb (fun c => negb (is_json_ws c)) (outside_strings false false s) = true.
Proof.
  intros (t & Ht & E). specialize (E []). rewrite app_nil_r in E.
  rewrite E, app_nil_r. exact Ht.
Qed.


(* ================================================================== *)
(** * A wider indent makes a longer text *)
(* ================================================================== *)

Lemma length_join_map_le {A} (f1 f2 : A -> jsstring) (sep1 sep2 : jsstring)
    (l : list A) :
  (forall x, In x l -> (length (f1 x) <= length (f2 x))%nat) ->
  (length sep1 <= length sep2)%nat ->
  (length (join sep1 (map f1 l)) <= length (join sep2 (map f2 l)))%nat.
Proof.
  intros Hf Hsep. induction l as [|x [|y l] IH].
  - cbn. lia.
  - cbn [map join]. apply Hf. left. reflexivity.
  - rewrite (map_cons f1 x), (map_cons f1 y), (map_cons f2 x), (map_cons f2 y),
      !join_cons2, <- (map_cons f1 y), <- (map_cons f2 y), !length_app.
    pose proof (Hf x (or_introl eq_refl)).
    assert (length (join sep1 (map f1 (y :: l)))
            <= length (join sep2 (map f2 (y :: l))))%nat.
    { apply IH. intros z Hz. apply Hf. right. exact Hz. }
    lia.
Qed.

Lemma length_wrap_partial_gap (o c x : code_unit) (sb ind g : jsstring)
    (parts : list jsstring) :
  parts <> [] ->
  length (wrap_partial o c sb ind (x :: g) parts)
  = (4 + length ind + length (join (44%N :: 10%N :: ind) parts)
     + length sb)%nat.
Proof.
  intros H. unfold wrap_partial. destruct parts as [|p ps]; [congruence|].
  cbn [length]. rewrite !length_app. cbn [length].
  rewrite length_app. cbn [length]. lia.
Qed.

Lemma length_member_text_gap (x y : code_unit) (g1 g2 k t1 t2 : jsstring) :
  (length t1 <= length t2)%nat ->
  (length (member_text (x :: g1) k t1) <= length (member_text (y :: g2) k t2))%nat.
Proof.
  intros H. unfold member_text. rewrite !length_app. cbn [length].
  rewrite !length_app. lia.
Qed.

Lemma length_text_of_mono (v : value) :
  is_ParsedValue v = true ->
  forall i1 i2 g1 g2,
    (length i1 <= length i2)%nat -> (length g1 <= length g2)%nat ->
    g1 <> [] -> g2 <> [] ->
    (length (text_of i1 g1 v) <= length (text_of i2 g2 v))%nat.
Proof.
  induction v as [| |b|n|z|s|l IH|l IH] using value_induction;
    intros Hv i1 i2 g1 g2 Hi Hg Hg1 Hg2; try discriminate;
    try (apply Nat.le_refl).
  - cbn [is_ParsedValue] in Hv. rewrite !text_of_array by assumption.
    destruct g1 as [|x1 g1]; [congruence|].
    destruct g2 as [|x2 g2]; [congruence|].
    destruct l as [|e l]; [apply Nat.le_refl|].
    rewrite !length_wrap_partial_gap by (cbn [map]; discriminate).
    assert (Hind : (length (i1 ++ x1 :: g1) <= length (i2 ++ x2 :: g2))%nat)
      by (rewrite !length_app; lia).
    assert (length (join (44%N :: 10%N :: i1 ++ x1 :: g1)
                      (map (text_of (i1 ++ x1 :: g1) (x1 :: g1)) (e :: l)))
            <= length (join (44%N :: 10%N :: i2 ++ x2 :: g2)
                         (map (text_of (i2 ++ x2 :: g2) (x2 :: g2)) (e :: l))))%nat.
    { apply length_join_map_le; [|cbn [length]; lia].
      intros y Hy. rewrite Forall_forall in IH. rewrite forallb_forall in Hv.
      apply IH; auto; discriminate. }
    lia.
  - rewrite is_ParsedValue_object in Hv. apply andb_true_iff in Hv as [_ Hv].
    rewrite !text_of_object by assumption.
    destruct g1 as [|x1 g1]; [congruence|].
    destruct g2 as [|x2 g2]; [congruence|].
    destruct l as [|e l]; [apply Nat.le_refl|].
    rewrite !length_wrap_partial_gap by (cbn [map]; discriminate).
    assert (Hind : (length (i1 ++ x1 :: g1) <= length (i2 ++ x2 :: g2))%nat)
      by (rewrite !length_app; lia).
    assert (length (join (44%N :: 10%N :: i1 ++ x1 :: g1)
                      (map (fun m => member_text (x1 :: g1) (fst m)
                                       (text_of (i1 ++ x1 :: g1) (x1 :: g1) (snd m)))
                           (e :: l)))
            <= length (join (44%N :: 10%N :: i2 ++ x2 :: g2)
                         (map (fun m => member_text (x2 :: g2) (fst m)
                                          (text_of (i2 ++ x2 :: g2) (x2 :: g2) (snd m)))
                              (e :: l))))%nat.
    { apply length_join_map_le; [|cbn [length]; lia].
      intros y Hy. rewrite Forall_forall in IH. rewrite forallb_forall in Hv.
      apply length_member_text_gap. apply IH; auto; discriminate. }
    lia.
Qed.

(** A non-empty array or object takes strictly more characters with a
    strictly wider gap. *)
Lemma length_text_of_strict (v : value) (g1 g2 : jsstring) :
  is_ParsedValue v = true -> nonempty_structure v = true ->
  g1 <> [] -> (length g1 < length g2)%nat ->
  (length (text_of [] g1 v) < length (text_of [] g2 v))%nat.
Proof.
  intros Hv Hne Hg1 Hg.
  destruct g1 as [|x1 g1]; [congruence|].
  destruct g2 as [|x2 g2]; [cbn in Hg; lia|].
  destruct v as [| |b|n|z|s|l|l]; try discriminate.
  - destruct l as [|e l]; [discriminate|].
    cbn [is_ParsedValue] in Hv. rewrite !text_of_array by assumption.
    rewrite !length_wrap_partial_gap by (cbn [map]; discriminate).
    cbn [app].
    assert (length (join (44%N :: 10%N :: x1 :: g1)
                      (map (text_of (x1 :: g1) (x1 :: g1)) (e :: l)))
            <= length (join (44%N :: 10%N :: x2 :: g2)
                         (map (text_of (x2 :: g2) (x2 :: g2)) (e :: l))))%nat.
    { apply length_join_map_le; [|cbn [length] in *; lia].
      intros y Hy. rewrite forallb_forall in Hv.
      apply length_text_of_mono; auto; try discriminate; lia. }
    lia.
  - destruct l as [|e l]; [discriminate|].
    rewrite is_ParsedValue_object in Hv. apply andb_true_iff in Hv as [_ Hv].
    rewrite !text_of_object by assumption.
    rewrite !length_wrap_partial_gap by (cbn [map]; discriminate).
    cbn [app].
    assert (length (join (44%N :: 10%N :: x1 :: g1)
                      (map (fun m => member_text (x1 :: g1) (fst m)
                                       (text_of (x1 :: g1) (x1 :: g1) (snd m)))
                           (e :: l)))
            <= length (join (44%N :: 10%N :: x2 :: g2)
                         (map (fun m => member_text (x2 :: g2) (fst m)
                                          (text_of (x2 :: g2) (x2 :: g2) (snd m)))
                              (e :: l))))%nat.
    { apply length_join_map_le; [|cbn [length] in *; lia].
      intros y Hy. rewrite forallb_forall in Hv.
      apply length_member_text_gap.
      apply length_text_of_mono; auto; try discriminate; lia. }
    lia.
Qed.


(* ================================================================== *)
(** * The indented text is the specification's pretty-printing *)
(* ================================================================== *)

Lemma spec_pretty_object (n d : nat) (props : list (jsstring * value)) :
  spec_pretty n d (VObject props)
  = pretty_block n d 123%N 125%N
      (map (fun m => pretty_line n d
                       (QuoteJSONString (fst m) ++ utf16 ": "
                          ++ spec_pretty n (S d) (snd m))) props).
Proof.
  cbn [spec_pretty]. f_equal.
  induction props as [|[k e] l IH]; [reflexivity|].
  rewrite map_cons, <- IH. reflexivity.
Qed.

Lemma spaces_succ_level (n d : nat) :
  spaces (n * d) ++ spaces n = spaces (n * S d).
Proof.
  unfold spaces. rewrite <- repeat_app. f_equal. lia.
Qed.

Lemma join_indent (ind : jsstring) (parts : list jsstring) :
  parts <> [] ->
  ind ++ join (44%N :: 10%N :: ind) parts
  = join [44%N; 10%N] (map (fun p => ind ++ p) parts).
Proof.
  induction parts as [|p [|q ps] IH]; intros H; [congruence|reflexivity|].
  rewrite (map_cons _ p), (map_cons _ q), !join_cons2.
  rewrite <- (map_cons (fun p => ind ++ p) q), <- IH by discriminate.
  repeat first [rewrite <- app_assoc | progress cbn [app]]. reflexivity.
Qed.

Lemma wrap_partial_pretty_block (n d : nat) (o c : code_unit)
    (parts : list jsstring) :
  n <> O ->
  wrap_partial o c (spaces (n * d)) (spaces (n * S d)) (spaces n) parts
  = pretty_block n d o c (map (pretty_line n d) parts).
Proof.
  intros Hn. unfold wrap_partial, pretty_block.
  destruct parts as [|p ps]; [reflexivity|].
  destruct n as [|n]; [congruence|].
  change (spaces (S n)) with (32%N :: spaces n).
  pose proof (join_indent (spaces (S n * S d)) (p :: ps) ltac:(discriminate))
    as J.
  cbn [map] in *. unfold pretty_line. rewrite <- J.
  repeat first [rewrite <- app_assoc | progress cbn [app]]. reflexivity.
Qed.

(** With a gap of [n] spaces, at nesting level [d], the serializer writes
    what the specification describes. *)
Lemma text_of_spec_pretty (v : value) :
  is_ParsedValue v = true ->
  forall n d, n <> O ->
  text_of (spaces (n * d)) (spaces n) v = spec_pretty n d v.
Proof.
  induction v as [| |b|n0|z|s|l IH|l IH] using value_induction;
    intros Hv n d Hn; try discriminate; try reflexivity.
  - cbn [is_ParsedValue] in Hv. rewrite text_of_array by assumption.
    rewrite spaces_succ_level, wrap_partial_pretty_block by assumption.
    cbn [spec_pretty]. f_equal. rewrite map_map. apply map_ext_in.
    intros e He. f_equal. rewrite Forall_forall in IH.
    rewrite forallb_forall in Hv. apply IH; auto.
  - rewrite is_ParsedValue_object in Hv. apply andb_true_iff in Hv as [_ Hv].
    rewrite text_of_object by assumption.
    rewrite spaces_succ_level, wrap_partial_pretty_block by assumption.
    rewrite spec_pretty_object. f_equal. rewrite map_map. apply map_ext_in.
    intros m Hm. f_equal. unfold member_text.
    destruct n as [|n]; [congruence|].
    change (spaces (S n)) with (32%N :: spaces n). cbv iota.
    change (utf16 ": ") with [58%N; 32%N]. cbn [app]. do 3 f_equal.
    rewrite Forall_forall in IH. rewrite forallb_forall in Hv.
    apply (IH m Hm (Hv m Hm) (S n) (S d)). discriminate.
Qed.


(* ================================================================== *)
(** * The parser: fuel is irrelevant, what follows a value is too *)
(* ================================================================== *)

Lemma pmap_not_fuel {A B} (f : A -> B) (x : presult A) :
  pmap f x <> POutOfFuel -> x <> POutOfFuel.
Proof. intros H E. apply H. rewrite E. reflexivity. Qed.

(** One more unit of fuel changes nothing once there was enough. *)
Lemma parse_fuel_step (f : nat) :
  (forall s, parse_value f s <> POutOfFuel ->
             parse_value (S f) s = parse_value f s)
  /\ (forall s, parse_elements f s <> POutOfFuel ->
                parse_elements (S f) s = parse_elements f s)
  /\ (forall s, parse_members f s <> POutOfFuel ->
                parse_members (S f) s = parse_members f s).
Proof.
  induction f as [|f (IHv & IHe & IHm)];
    [repeat split; intros s H; exfalso; apply H; reflexivity|].
  repeat split.
  - intros s. rewrite (parse_value_S (S f)), (parse_value_S f).
    destruct (skip_ws s) as [|c t]; [reflexivity|].
    destruct (c =? 123)%N.
    { destruct (closes 125%N t); [reflexivity|]. intros H.
      apply pmap_not_fuel in H. rewrite IHm by assumption. reflexivity. }
    destruct (c =? 91)%N; [|reflexivity].
    destruct (closes 93%N t); [reflexivity|]. intros H.
    apply pmap_not_fuel in H. rewrite IHe by assumption. reflexivity.
  - intros s. rewrite (parse_elements_S (S f)), (parse_elements_S f).
    intros H.
    assert (Hv : parse_value f s <> POutOfFuel).
    { intros E. apply H. rewrite E. reflexivity. }
    rewrite IHv by assumption.
    destruct (parse_value f s) as [v r| |]; try reflexivity.
    destruct (skip_ws r) as [|c r']; [reflexivity|].
    destruct (c =? 44)%N; [|reflexivity].
    apply pmap_not_fuel in H. rewrite IHe by assumption. reflexivity.
  - intros s. rewrite (parse_members_S (S f)), (parse_members_S f).
    destruct (skip_ws s) as [|q t]; [reflexivity|].
    destruct (q =? 34)%N; [|reflexivity].
    destruct (parse_string_body t) as [k r1| |]; try reflexivity.
    destruct (skip_ws r1) as [|colon r2]; [reflexivity|].
    destruct (colon =? 58)%N; [|reflexivity].
    intros H.
    assert (Hv : parse_value f r2 <> POutOfFuel).
    { intros E. apply H. rewrite E. reflexivity. }
    rewrite IHv by assumption.
    destruct (parse_value f r2) as [v r3| |]; try reflexivity.
    destruct (skip_ws r3) as [|c r4]; [reflexivity|].
    destruct (c =? 44)%N; [|reflexivity].
    apply pmap_not_fuel in H. rewrite IHm by assumption. reflexivity.
Qed.

Lemma parse_value_fuel_mono (f f' : nat) (s : jsstring) :
  (f <= f')%nat -> parse_value f s <> POutOfFuel ->
  parse_value f' s = parse_value f s.
Proof.
  induction 1 as [|f' Hle IH]; intros H; [reflexivity|].
  rewrite <- (IH H). apply (proj1 (parse_fuel_step f')).
  rewrite (IH H). exact H.
Qed.

(** Any two amounts of fuel that suffice give the same result. *)
Lemma parse_value_fuel_irrelevant (f1 f2 : nat) (s : jsstring) :
  parse_value f1 s <> POutOfFuel -> parse_value f2 s <> POutOfFuel ->
  parse_value f1 s = parse_value f2 s.
Proof.
  intros H1 H2. destruct (Nat.le_ge_cases f1 f2) as [L|L].
  - symmetry. apply parse_value_fuel_mono; assumption.
  - apply parse_value_fuel_mono; assumption.
Qed.

Lemma skip_ws_split (s : jsstring) :
  exists w, s = w ++ skip_ws s /\ forallb is_json_ws w = true.
Proof.
  induction s as [|c s (w & E & H)]; [exists []; auto|].
  cbn [skip_ws]. destruct (is_json_ws c) eqn:Hc.
  - exists (c :: w). cbn [app forallb]. rewrite Hc, H.
    split; [f_equal; exact E|reflexivity].
  - exists []. auto.
Qed.

Lemma skip_ws_head (s : jsstring) (c : code_unit) (t : jsstring) :
  skip_ws s = c :: t -> is_json_ws c = false.
Proof.
  induction s as [|d s IH]; [discriminate|]. cbn [skip_ws].
  destruct (is_json_ws d) eqn:Hd; [exact IH|].
  intros H. injection H as <- <-. exact Hd.
Qed.

Lemma skip_ws_nil (s : jsstring) :
  skip_ws s = [] -> forallb is_json_ws s = true.
Proof.
  induction s as [|d s IH]; [reflexivity|]. cbn [skip_ws forallb].
  destruct (is_json_ws d); [exact IH|discriminate].
Qed.

Lemma last_app_nonempty {A} (a b : list A) (d : A) :
  b <> [] -> last (a ++ b) d = last b d.
Proof.
  intros H. destruct (exists_last H) as (b' & x & ->).
  rewrite app_assoc, !last_last. reflexivity.
Qed.

Lemma last_cons_nonempty {A} (c : A) (t : list A) (d : A) :
  t <> [] -> last (c :: t) d = last t d.
Proof. intros H. apply (last_app_nonempty [c] t d H). Qed.

Lemma startsWith_spec (p s : jsstring) :
  startsWith s p = true -> s = p ++ skipn (length p) s.
Proof.
  revert s; induction p as [|a p IH]; intros s H; [reflexivity|].
  destruct s as [|b s]; [discriminate|]. cbn [startsWith] in H.
  apply andb_true_iff in H as [Hab H]. apply N.eqb_eq in Hab. subst b.
  cbn [length skipn app]. f_equal. apply IH. exact H.
Qed.

Lemma expect_prefix (word : jsstring) (v v' : value) (s r : jsstring) :
  expect word v s = POk v' r ->
  v' = v /\ s = word ++ r
  /\ forall r', expect word v (word ++ r') = POk v r'.
Proof.
  unfold expect. destruct (startsWith s word) eqn:E; [|destruct s; discriminate].
  intros H. injection H as <- <-. split; [reflexivity|].
  split; [apply startsWith_spec; exact E|].
  intros r'.
  assert (S : startsWith (word ++ r') word = true).
  { clear. induction word as [|a p IH]; [reflexivity|].
    cbn [app startsWith]. rewrite N.eqb_refl, IH. reflexivity. }
  rewrite S. f_equal. clear. induction word; [reflexivity|assumption].
Qed.

Lemma parse_string_body_prefix_bounded (n : nat) :
  forall s k r, (length s <= n)%nat ->
  parse_string_body s = POk k r ->
  exists pre, s = pre ++ r /\ last pre 0%N = 34%N /\ pre <> []
              /\ forall r', parse_string_body (pre ++ r') = POk k r'.
Proof.
  induction n as [|n IH]; intros s k r Hn H.
  - destruct s; [discriminate|simpl in Hn; lia].
  - destruct s as [|c s]; [discriminate|].
    pose proof H as H0. cbn [parse_string_body] in H. cbn [length] in Hn.
    destruct (c =? 34)%N eqn:E34.
    { injection H as <- <-. apply N.eqb_eq in E34. subst c.
      exists [34%N]. repeat split; try discriminate. }
    destruct (c =? 92)%N eqn:E92.
    + destruct s as [|e s]; [discriminate|]. cbn [length] in Hn.
      destruct (e =? 117)%N eqn:E117.
      * destruct s as [|h1 [|h2 [|h3 [|h4 s]]]]; try discriminate.
        destruct (hex4 h1 h2 h3 h4) as [u|] eqn:Eh; [|discriminate].
        apply pmap_ok_inv in H as (a & H & ->).
        apply IH in H as (pre & -> & Hl & Hne & Hr);
          [|cbn [length] in Hn; lia].
        exists (c :: e :: h1 :: h2 :: h3 :: h4 :: pre).
        split; [reflexivity|]. split.
        { change (c :: e :: h1 :: h2 :: h3 :: h4 :: pre)
            with ([c; e; h1; h2; h3; h4] ++ pre).
          rewrite last_app_nonempty by assumption. exact Hl. }
        split; [discriminate|]. intros r'.
        cbn [app parse_string_body]. rewrite E34, E92, E117, Eh, Hr.
        reflexivity.
      * destruct (simple_escape e) as [u|] eqn:Ee; [|discriminate].
        apply pmap_ok_inv in H as (a & H & ->).
        apply IH in H as (pre & -> & Hl & Hne & Hr); [|lia].
        exists (c :: e :: pre). split; [reflexivity|]. split.
        { change (c :: e :: pre) with ([c; e] ++ pre).
          rewrite last_app_nonempty by assumption. exact Hl. }
        split; [discriminate|]. intros r'.
        cbn [app parse_string_body]. rewrite E34, E92, E117, Ee, Hr.
        reflexivity.
    + destruct (c <? 32)%N eqn:E32; [discriminate|].
      apply pmap_ok_inv in H as (a & H & ->).
      apply IH in H as (pre & -> & Hl & Hne & Hr); [|lia].
      exists (c :: pre). split; [reflexivity|]. split.
      { rewrite last_cons_nonempty by assumption. exact Hl. }
      split; [discriminate|]. intros r'.
      cbn [app parse_string_body]. rewrite E34, E92, E32, Hr. reflexivity.
Qed.

Lemma parse_string_body_prefix (s k r : jsstring) :
  parse_string_body s = POk k r ->
  exists pre, s = pre ++ r /\ last pre 0%N = 34%N /\ pre <> []
              /\ forall r', parse_string_body (pre ++ r') = POk k r'.
Proof. apply (parse_string_body_prefix_bounded (length s)). lia. Qed.

Lemma closes_prefix (closing : code_unit) (s r : jsstring) :
  closes closing s = Some r ->
  exists w, s = w ++ closing :: r /\ forallb is_json_ws w = true.
Proof.
  unfold closes. destruct (skip_ws_split s) as (w & E & Hw).
  destruct (skip_ws s) as [|c t]; [discriminate|].
  destruct (c =? closing)%N eqn:Ec; [|discriminate].
  intros H. injection H as <-. apply N.eqb_eq in Ec. subst c. eauto.
Qed.

Lemma skip_ws_app_cons (a : jsstring) (c : code_unit) (t x : jsstring) :
  skip_ws a = c :: t -> skip_ws (a ++ x) = c :: t ++ x.
Proof.
  intros H. destruct (skip_ws_split a) as (w & E & Hw). rewrite H in E.
  rewrite E at 1. rewrite <- app_assoc, skip_ws_app by assumption.
  cbn [app]. apply skip_ws_stop. eapply skip_ws_head. eassumption.
Qed.

Lemma closes_app (closing : code_unit) (pre : jsstring) (c0 : code_unit)
    (t0 x y : jsstring) :
  skip_ws pre = c0 :: t0 ->
  closes closing (pre ++ x) = None -> closes closing (pre ++ y) = None.
Proof.
  intros H. unfold closes.
  rewrite !(skip_ws_app_cons pre c0 t0 _ H).
  destruct (c0 =? closing)%N; [discriminate|reflexivity].
Qed.


(** Evaluate the comparisons between literal code units in the goal. *)
Ltac eval_units :=
  repeat match goal with
  | |- context [(N.pos ?a =? N.pos ?b)%N] =>
      let v := eval vm_compute in (N.pos a =? N.pos b)%N in
      match v with true => idtac | false => idtac end;
      change (N.pos a =? N.pos b)%N with v
  end;
  cbv iota.

Lemma value_text_intro (c : code_unit) (t : jsstring) :
  is_value_start c = true -> is_value_end (last (c :: t) 0%N) = true ->
  value_text (c :: t).
Proof. intros H1 H2. exists c, t. auto. Qed.

(** The parser reads a prefix of its input and does not depend on what
    comes after it (a number only asks that no number character follows). *)
Lemma parse_prefix (f : nat) :
  (forall s v r, parse_value f s = POk v r ->
     exists pre, skip_ws s = pre ++ r /\ value_text pre
       /\ forall r', follow_ok r' -> parse_value f (pre ++ r') = POk v r')
  /\ (forall s l r, parse_elements f s = POk l r ->
     exists pre, s = pre ++ r /\ (exists c0 t0, skip_ws pre = c0 :: t0)
       /\ last pre 0%N = 93%N
       /\ forall r', parse_elements f (pre ++ r') = POk l r')
  /\ (forall s l r, parse_members f s = POk l r ->
     exists pre, s = pre ++ r /\ (exists c0 t0, skip_ws pre = c0 :: t0)
       /\ last pre 0%N = 125%N
       /\ forall r', parse_members f (pre ++ r') = POk l r').
Proof.
  induction f as [|f (IHv & IHe & IHm)]; [repeat split; discriminate|].
  split; [|split].
  - (* parse_value *)
    intros s v r H. rewrite parse_value_S in H.
    destruct (skip_ws s) as [|c t] eqn:Es; [discriminate|].
    destruct (c =? 123)%N eqn:E1.
    { apply N.eqb_eq in E1. subst c.
      destruct (closes 125%N t) as [r0|] eqn:Ec.
      - injection H as <- <-. apply closes_prefix in Ec as (w & -> & Hw).
        exists (123%N :: w ++ [125%N]). split.
        { cbn [app]. rewrite <- app_assoc. reflexivity. }
        split.
        { apply value_text_intro; [reflexivity|].
          change (123%N :: w ++ [125%N]) with ((123%N :: w) ++ [125%N]).
          rewrite last_last. reflexivity. }
        intros r' _. rewrite parse_value_S. cbn [app].
        rewrite skip_ws_stop by reflexivity. eval_units.
        unfold closes. rewrite <- app_assoc, skip_ws_app by assumption.
        cbn [app]. rewrite skip_ws_stop by reflexivity. eval_units.
        reflexivity.
      - apply pmap_ok_inv in H as (ms & H & ->).
        apply IHm in H as (pre & -> & (c0 & t0 & Hs) & Hl & Hr).
        assert (Hne : pre <> []) by (intros ->; discriminate).
        exists (123%N :: pre). split; [reflexivity|]. split.
        { apply value_text_intro; [reflexivity|].
          rewrite last_cons_nonempty, Hl by assumption. reflexivity. }
        intros r' _. rewrite parse_value_S. cbn [app].
        rewrite skip_ws_stop by reflexivity. eval_units.
        rewrite (closes_app _ _ _ _ _ r' Hs Ec), Hr. reflexivity. }
    destruct (c =? 91)%N eqn:E2.
    { apply N.eqb_eq in E2. subst c.
      destruct (closes 93%N t) as [r0|] eqn:Ec.
      - injection H as <- <-. apply closes_prefix in Ec as (w & -> & Hw).
        exists (91%N :: w ++ [93%N]). split.
        { cbn [app]. rewrite <- app_assoc. reflexivity. }
        split.
        { apply value_text_intro; [reflexivity|].
          change (91%N :: w ++ [93%N]) with ((91%N :: w) ++ [93%N]).
          rewrite last_last. reflexivity. }
        intros r' _. rewrite parse_value_S. cbn [app].
        rewrite skip_ws_stop by reflexivity. eval_units.
        unfold closes. rewrite <- app_assoc, skip_ws_app by assumption.
        cbn [app]. rewrite skip_ws_stop by reflexivity. eval_units.
        reflexivity.
      - apply pmap_ok_inv in H as (es & H & ->).
        apply IHe in H as (pre & -> & (c0 & t0 & Hs) & Hl & Hr).
        assert (Hne : pre <> []) by (intros ->; discriminate).
        exists (91%N :: pre). split; [reflexivity|]. split.
        { apply value_text_intro; [reflexivity|].
          rewrite last_cons_nonempty, Hl by assumption. reflexivity. }
        intros r' _. rewrite parse_value_S. cbn [app].
        rewrite skip_ws_stop by reflexivity. eval_units.
        rewrite (closes_app _ _ _ _ _ r' Hs Ec), Hr. reflexivity. }
    destruct (c =? 34)%N eqn:E3.
    { apply N.eqb_eq in E3. subst c.
      apply pmap_ok_inv in H as (k & H & ->).
      apply parse_string_body_prefix in H as (pre & -> & Hl & Hne & Hr).
      exists (34%N :: pre). split; [reflexivity|]. split.
      { apply value_text_intro; [reflexivity|].
        rewrite last_cons_nonempty, Hl by assumption. reflexivity. }
      intros r' _. rewrite parse_value_S. cbn [app].
      rewrite skip_ws_stop by reflexivity. eval_units.
      rewrite Hr. reflexivity. }
    destruct (c =? 116)%N eqn:E4.
    { apply N.eqb_eq in E4. subst c.
      apply expect_prefix in H as (-> & -> & Hr).
      exists (116%N :: utf16 "rue"). split; [reflexivity|]. split.
      { apply value_text_intro; reflexivity. }
      intros r' _. rewrite parse_value_S.
      change ((116%N :: utf16 "rue") ++ r') with (116%N :: utf16 "rue" ++ r').
      rewrite skip_ws_stop by reflexivity. eval_units. apply Hr. }
    destruct (c =? 102)%N eqn:E5.
    { apply N.eqb_eq in E5. subst c.
      apply expect_prefix in H as (-> & -> & Hr).
      exists (102%N :: utf16 "alse"). split; [reflexivity|]. split.
      { apply value_text_intro; reflexivity. }
      intros r' _. rewrite parse_value_S.
      change ((102%N :: utf16 "alse") ++ r') with (102%N :: utf16 "alse" ++ r').
      rewrite skip_ws_stop by reflexivity. eval_units. apply Hr. }
    destruct (c =? 110)%N eqn:E6.
    { apply N.eqb_eq in E6. subst c.
      apply expect_prefix in H as (-> & -> & Hr).
      exists (110%N :: utf16 "ull"). split; [reflexivity|]. split.
      { apply value_text_intro; reflexivity. }
      intros r' _. rewrite parse_value_S.
      change ((110%N :: utf16 "ull") ++ r') with (110%N :: utf16 "ull" ++ r').
      rewrite skip_ws_stop by reflexivity. eval_units. apply Hr. }
    destruct ((c =? 45)%N || is_digit c); [|discriminate].
    destruct (span is_number_char (c :: t)) as [lit r0] eqn:Esp.
    destruct (number_of_literal lit) as [n|] eqn:En; [|discriminate].
    injection H as <- <-. apply span_spec in Esp as (Esp & _ & _).
    exists lit. split; [exact Esp|]. split.
    { destruct (number_of_literal_shape _ _ En) as ((c' & t' & -> & Hc') & _ & Hl).
      apply value_text_intro.
      - unfold is_value_start. destruct Hc' as [->|Hc']; [reflexivity|].
        rewrite Hc', !orb_true_r. reflexivity.
      - unfold is_value_end. rewrite Hl, !orb_true_r. reflexivity. }
    intros r' Hr'. apply parse_value_number; assumption.
  - (* parse_elements *)
    intros s l r H. rewrite parse_elements_S in H.
    destruct (parse_value f s) as [v r1| |] eqn:Ev; try discriminate.
    apply IHv in Ev as (prev & Esk & (cv & tv & -> & Hcv & Hlv) & Hrv).
    destruct (skip_ws_split s) as (w & Es & Hw). rewrite Esk in Es.
    destruct (skip_ws r1) as [|c r2] eqn:E1; [discriminate|].
    destruct (skip_ws_split r1) as (w1 & Er1 & Hw1). rewrite E1 in Er1.
    assert (Hsk : forall x, skip_ws (w ++ (cv :: tv) ++ x) = cv :: tv ++ x).
    { intros x. rewrite skip_ws_app by assumption. cbn [app].
      apply skip_ws_stop. apply value_start_not_ws. exact Hcv. }
    destruct (c =? 44)%N eqn:E44.
    + apply N.eqb_eq in E44. subst c.
      apply pmap_ok_inv in H as (l' & H & ->).
      apply IHe in H as (pree & -> & Hse & Hle & Hre).
      assert (Hne : pree <> []).
      { destruct Hse as (c0 & t0 & Hse). intros ->. discriminate. }
      exists (w ++ (cv :: tv) ++ w1 ++ 44%N :: pree). split.
      { subst s r1. repeat first [rewrite <- app_assoc | progress cbn [app]].
        reflexivity. }
      split.
      { exists cv, (tv ++ w1 ++ 44%N :: pree). apply Hsk. }
      split.
      { rewrite !app_assoc.
        change (((w ++ cv :: tv) ++ w1) ++ 44%N :: pree)
          with (((w ++ cv :: tv) ++ w1) ++ [44%N] ++ pree).
        rewrite !app_assoc, last_app_nonempty by assumption. exact Hle. }
      intros r'. rewrite parse_elements_S.
      repeat first [rewrite <- app_assoc | progress cbn [app]].
      rewrite parse_value_skip_ws by assumption.
      change (cv :: tv ++ w1 ++ 44%N :: pree ++ r')
        with ((cv :: tv) ++ w1 ++ 44%N :: pree ++ r').
      rewrite Hrv by (apply follow_ok_ws; [assumption|reflexivity]).
      rewrite skip_ws_app, skip_ws_stop by (assumption || reflexivity).
      eval_units. rewrite Hre. reflexivity.
    + destruct (c =? 93)%N eqn:E93; [|discriminate].
      apply N.eqb_eq in E93. subst c. injection H as <- <-.
      exists (w ++ (cv :: tv) ++ w1 ++ [93%N]). split.
      { subst s r1. repeat first [rewrite <- app_assoc | progress cbn [app]].
        reflexivity. }
      split.
      { exists cv, (tv ++ w1 ++ [93%N]). apply Hsk. }
      split.
      { rewrite !app_assoc. apply last_last. }
      intros r'. rewrite parse_elements_S.
      repeat first [rewrite <- app_assoc | progress cbn [app]].
      rewrite parse_value_skip_ws by assumption.
      change (cv :: tv ++ w1 ++ 93%N :: r')
        with ((cv :: tv) ++ w1 ++ 93%N :: r').
      rewrite Hrv by (apply follow_ok_ws; [assumption|reflexivity]).
      rewrite skip_ws_app, skip_ws_stop by (assumption || reflexivity).
      eval_units. reflexivity.
  - (* parse_members *)
    intros s l r H. rewrite parse_members_S in H.
    destruct (skip_ws s) as [|q t] eqn:Es; [discriminate|].
    destruct (skip_ws_split s) as (w & Es' & Hw). rewrite Es in Es'.
    destruct (q =? 34)%N eqn:E34; [|discriminate].
    apply N.eqb_eq in E34. subst q.
    destruct (parse_string_body t) as [k r1| |] eqn:Ek; try discriminate.
    apply parse_string_body_prefix in Ek as (prek & -> & _ & _ & Hrk).
    destruct (skip_ws r1) as [|colon r2] eqn:E1; [discriminate|].
    destruct (skip_ws_split r1) as (w1 & Er1 & Hw1). rewrite E1 in Er1.
    destruct (colon =? 58)%N eqn:E58; [|discriminate].
    apply N.eqb_eq in E58. subst colon.
    destruct (parse_value f r2) as [v r3| |] eqn:Ev; try discriminate.
    apply IHv in Ev as (prev & Esk & (cv & tv & -> & Hcv & Hlv) & Hrv).
    destruct (skip_ws_split r2) as (w2 & Er2 & Hw2). rewrite Esk in Er2.
    destruct (skip_ws r3) as [|c r4] eqn:E3; [discriminate|].
    destruct (skip_ws_split r3) as (w3 & Er3 & Hw3). rewrite E3 in Er3.
    assert (Hsk : forall x, skip_ws (w ++ 34%N :: x) = 34%N :: x).
    { intros x. rewrite skip_ws_app by assumption.
      apply skip_ws_stop. reflexivity. }
    destruct (c =? 44)%N eqn:E44.
    + apply N.eqb_eq in E44. subst c.
      apply pmap_ok_inv in H as (l' & H & ->).
      apply IHm in H as (prem & -> & Hsm & Hlm & Hrm).
      assert (Hne : prem <> []).
      { destruct Hsm as (c0 & t0 & Hsm). intros ->. discriminate. }
      exists (w ++ 34%N :: prek ++ w1 ++ 58%N :: w2 ++ (cv :: tv)
                ++ w3 ++ 44%N :: prem).
      split.
      { subst s r1 r2 r3.
        repeat first [rewrite <- app_assoc | progress cbn [app]].
        reflexivity. }
      split; [eexists _, _; apply Hsk|]. split.
      { replace (w ++ 34%N :: prek ++ w1 ++ 58%N :: w2 ++ (cv :: tv)
                   ++ w3 ++ 44%N :: prem)
          with ((w ++ 34%N :: prek ++ w1 ++ 58%N :: w2 ++ (cv :: tv)
                   ++ w3 ++ [44%N]) ++ prem)
          by (repeat first [rewrite <- app_assoc | progress cbn [app]];
              reflexivity).
        rewrite last_app_nonempty by assumption. exact Hlm. }
      intros r'. rewrite parse_members_S.
      repeat first [rewrite <- app_assoc | progress cbn [app]].
      rewrite Hsk. eval_units. rewrite Hrk.
      rewrite skip_ws_app, skip_ws_stop by (assumption || reflexivity).
      eval_units. rewrite parse_value_skip_ws by assumption.
      change (cv :: tv ++ w3 ++ 44%N :: prem ++ r')
        with ((cv :: tv) ++ w3 ++ 44%N :: prem ++ r').
      rewrite Hrv by (apply follow_ok_ws; [assumption|reflexivity]).
      rewrite skip_ws_app, skip_ws_stop by (assumption || reflexivity).
      eval_units. rewrite Hrm. reflexivity.
    + destruct (c =? 125)%N eqn:E125; [|discriminate].
      apply N.eqb_eq in E125. subst c. injection H as <- <-.
      exists (w ++ 34%N :: prek ++ w1 ++ 58%N :: w2 ++ (cv :: tv)
                ++ w3 ++ [125%N]).
      split.
      { subst s r1 r2 r3.
        repeat first [rewrite <- app_assoc | progress cbn [app]].
        reflexivity. }
      split; [eexists _, _; apply Hsk|]. split.
      { replace (w ++ 34%N :: prek ++ w1 ++ 58%N :: w2 ++ (cv :: tv)
                   ++ w3 ++ [125%N])
          with ((w ++ 34%N :: prek ++ w1 ++ 58%N :: w2 ++ (cv :: tv) ++ w3)
                  ++ [125%N])
          by (repeat first [rewrite <- app_assoc | progress cbn [app]];
              reflexivity).
        apply last_last. }
      intros r'. rewrite parse_members_S.
      repeat first [rewrite <- app_assoc | progress cbn [app]].
      rewrite Hsk. eval_units. rewrite Hrk.
      rewrite skip_ws_app, skip_ws_stop by (assumption || reflexivity).
      eval_units. rewrite parse_value_skip_ws by assumption.
      change (cv :: tv ++ w3 ++ 125%N :: r')
        with ((cv :: tv) ++ w3 ++ 125%N :: r').
      rewrite Hrv by (apply follow_ok_ws; [assumption|reflexivity]).
      rewrite skip_ws_app, skip_ws_stop by (assumption || reflexivity).
      eval_units. reflexivity.
Qed.


Lemma trimStart_app_whitespace (w x : jsstring) :
  forallb is_js_whitespace w = true -> trimStart (w ++ x) = trimStart x.
Proof.
  induction w as [|c w IH]; [reflexivity|]. cbn [forallb app trimStart].
  intros H. apply andb_true_iff in H as [-> H]. auto.
Qed.

Lemma json_ws_all_js_whitespace (w : jsstring) :
  forallb is_json_ws w = true -> forallb is_js_whitespace w = true.
Proof.
  intros H. rewrite forallb_forall in *. intros c Hc.
  apply json_ws_is_js_whitespace. auto.
Qed.

Lemma forallb_rev {A} (p : A -> bool) (l : list A) :
  forallb p l = true -> forallb p (rev l) = true.
Proof.
  intros H. rewrite forallb_forall in *. intros x Hx.
  apply H. apply in_rev. exact Hx.
Qed.

(** Trimming a text made of white space, one value's text and white space
    leaves the value's text. *)
Lemma trim_value_text (w pre r : jsstring) :
  forallb is_js_whitespace w = true -> forallb is_js_whitespace r = true ->
  value_text pre -> trim (w ++ pre ++ r) = pre.
Proof.
  intros Hw Hr (c & t & E & Hc & Hl).
  apply value_start_not_js_whitespace in Hc.
  apply value_end_not_js_whitespace in Hl.
  unfold trim. rewrite trimStart_app_whitespace by assumption.
  rewrite E at 1. cbn [app]. rewrite trimStart_stop by assumption.
  change (c :: t ++ r) with ((c :: t) ++ r). rewrite <- E.
  unfold trimEnd. rewrite rev_app_distr.
  rewrite trimStart_app_whitespace by (apply forallb_rev; assumption).
  assert (Hne : pre <> []) by (rewrite E; discriminate).
  destruct (exists_last Hne) as (pre' & z & E').
  rewrite E' in Hl |- *. rewrite last_last in Hl.
  rewrite rev_app_distr. cbn [rev app].
  rewrite trimStart_stop by assumption.
  change (z :: rev pre') with ([z] ++ rev pre').
  rewrite rev_app_distr, rev_involutive. reflexivity.
Qed.

(** A text that is valid JSON stays so, with the same value, once
    trimmed. *)
Lemma JSON_parse_trim (s : jsstring) (v : value) :
  JSON_parse s = Normal v -> trim s <> [] /\ JSON_parse (trim s) = Normal v.
Proof.
  unfold JSON_parse at 1.
  destruct (parse_value (parse_fuel s) s) as [v' r| |] eqn:E;
    [|discriminate|discriminate].
  destruct (skip_ws r) eqn:Er; [|discriminate]. intros H. injection H as ->.
  apply skip_ws_nil in Er.
  apply (proj1 (parse_prefix _)) in E as (pre & Es & Hpre & Hre).
  destruct (skip_ws_split s) as (w & Es' & Hw). rewrite Es in Es'.
  assert (T : trim s = pre).
  { rewrite Es'. apply trim_value_text;
      auto using json_ws_all_js_whitespace. }
  rewrite T. split.
  { destruct Hpre as (c & t & -> & _). discriminate. }
  specialize (Hre [] I). rewrite app_nil_r in Hre.
  unfold JSON_parse.
  rewrite (parse_value_fuel_irrelevant (parse_fuel pre) (parse_fuel s) pre).
  - rewrite Hre. reflexivity.
  - apply (proj1 (parse_fuel_enough _)). unfold parse_fuel. lia.
  - rewrite Hre. discriminate.
Qed.


(* ================================================================== *)
(** * Round trips through the Formatter *)
(* ================================================================== *)

Lemma gap_of_two : gap_of_space (Some (Number_of_Z 2)) = spaces 2.
Proof. vm_compute. reflexivity. Qed.

Lemma gap_of_four : gap_of_space (Some (Number_of_Z 4)) = spaces 4.
Proof. vm_compute. reflexivity. Qed.

Lemma forallb_spaces (n : nat) : forallb is_json_ws (spaces n) = true.
Proof. apply forallb_repeat_space. Qed.

Lemma forallb_gap_of_space (space : option number) :
  forallb is_json_ws (gap_of_space space) = true.
Proof. destruct space; [apply forallb_repeat_space|reflexivity]. Qed.

(** The Formatter on a ParsedValue. *)
Lemma format_ParsedValue (v : value) (opts : FormatOptions) :
  is_ParsedValue v = true ->
  format v opts = Normal (Some (text_of [] (gap_of_space (space_of opts)) v)).
Proof.
  intros Hv. unfold format, space_of, JSON_stringify.
  destruct (minify opts); apply SerializeJSONProperty_ParsedValue; exact Hv.
Qed.

(** Normalizing the serialization of a value gives the value back, when
    its numbers read back and the recovery step leaves it alone. *)
Lemma normalize_text_of (v : value) (i g : jsstring) :
  is_ParsedValue v = true -> reads_back v = true -> spec_recover v = v ->
  forallb is_json_ws i = true -> forallb is_json_ws g = true ->
  normalize (text_of i g v) = Normal v.
Proof.
  intros Hv Hr Hrec Hi Hg. rewrite normalize_spec. unfold spec_normalize.
  rewrite trim_text_of by assumption.
  destruct (text_of_ends v Hv Hr i g) as (c & t & E & _).
  pose proof (JSON_parse_text_of v i g Hv Hr Hi Hg) as P.
  rewrite E in *. rewrite P, Hrec. reflexivity.
Qed.

Lemma normalize_valid (s : jsstring) (v0 : value) :
  JSON_parse s = Normal v0 -> normalize s = Normal (spec_recover v0).
Proof.
  intros H. apply JSON_parse_trim in H as [Hne H].
  rewrite normalize_spec. unfold spec_normalize.
  destruct (trim s) as [|c t]; [congruence|]. rewrite H. reflexivity.
Qed.




(** The other number that does not read back: negative zero is written 0,
    which reads as positive zero. *)
Example negative_zero_written_as_zero :
  normalize (utf16 "-0") = Normal (VNumber (S754_zero true))
  /\ format (VNumber (S754_zero true))
       {| indent := Number_of_Z 2; minify := false |}
     = Normal (Some (utf16 "0"))
  /\ normalize (utf16 "0") = Normal (VNumber (S754_zero false)).
Proof. repeat split; vm_compute; reflexivity. Qed.







Lemma plain_keys_own_property_order (ms : list (jsstring * value)) :
  plain_keys ms = true -> own_property_order ms = true.
Proof.
  unfold own_property_order. destruct ms as [|[k v] r]; [reflexivity|].
  intros H. rewrite ordered_from_cons. destruct (array_index k) eqn:E.
  - cbn [plain_keys] in H. rewrite E in H. discriminate.
  - exact H.
Qed.





(* ================================================================== *)
(** * Further properties of the component *)
(* ================================================================== *)

Lemma length_digits_of (k : nat) :
  forall z acc, length (digits_of k z acc) = (k + length acc)%nat.
Proof.
  induction k as [|k IH]; intros z acc; [reflexivity|].
  cbn [digits_of]. rewrite IH. cbn [length]. lia.
Qed.

Lemma shortest_digits_at_least (fuel : nat) :
  forall x p q n k, (k <= fst (fst (shortest_digits fuel x p q n k)))%nat.
Proof.
  induction fuel as [|fuel IH]; intros x p q n k; cbn [shortest_digits];
    destruct (digits_candidate x p q n k) as [[s n']|]; cbn [fst]; try lia.
  specialize (IH x p q n (S k)). lia.
Qed.

Lemma format_decimal_nonempty (k : nat) (s n : Z) :
  (1 <= k)%nat -> format_decimal k s n <> [].
Proof.
  intros Hk. unfold format_decimal.
  pose proof (length_digits_of k s []) as L. cbn [length] in L.
  destruct (digits_of k s []) as [|d ds] eqn:E; [cbn in L; lia|].
  destruct ((Z.of_nat k <=? n) && (n <=? 21)); [discriminate|].
  destruct ((0 <? n) && (n <=? 21)).
  { destruct (Z.to_nat n); cbn; discriminate. }
  destruct ((-6 <? n) && (n <=? 0)); [discriminate|].
  destruct ds; discriminate.
Qed.

Lemma Number_toString_nonempty (n : number) : Number_toString n <> [].
Proof.
  destruct n as [s|s| |s m e]; try discriminate.
  - destruct s; discriminate.
  - unfold Number_toString, positive_toString.
    destruct (scale2 (Z.pos m) 1 (- e)) as [p q].
    pose proof (shortest_digits_at_least 16 (S754_finite false m e) p q
                  (decimal_exponent p q) 1) as K.
    destruct (shortest_digits 16 _ p q (decimal_exponent p q) 1)
      as [[k s'] n'].
    cbn [fst] in K. pose proof (format_decimal_nonempty k s' n' K).
    destruct s; [discriminate|]. cbn [app]. assumption.
Qed.

(** The text of a ParsedValue is never empty. *)
Lemma text_of_nonempty (v : value) (i g : jsstring) :
  is_ParsedValue v = true -> text_of i g v <> [].
Proof.
  intros Hv. destruct v as [| |b|n|z|s|l|l]; try discriminate.
  - destruct b; discriminate.
  - unfold text_of. cbn [SerializeJSONProperty].
    destruct (is_finite n); [apply Number_toString_nonempty|discriminate].
  - cbn [is_ParsedValue] in Hv. rewrite text_of_array by assumption.
    destruct (wrap_partial_shape 91 93 i (i ++ g) g (map (text_of (i ++ g) g) l))
      as [mid ->]. discriminate.
  - rewrite is_ParsedValue_object in Hv. apply andb_true_iff in Hv as [_ Hv].
    rewrite text_of_object by assumption.
    destruct (wrap_partial_shape 123 125 i (i ++ g) g
                (map (fun m => member_text g (fst m)
                                 (text_of (i ++ g) g (snd m))) l))
      as [mid ->]. discriminate.
Qed.

(** [parseJson] returns a ParsedValue or reports a syntax error of the
    first parse; nothing else. *)
Lemma spec_normalize_cases (text : jsstring) :
  (exists v, spec_normalize text = Normal v /\ is_ParsedValue v = true)
  \/ (exists msg,
        trim text <> []
        /\ JSON_parse (trim text) = Throw (ErrorObject SyntaxErrorClass msg)
        /\ spec_normalize text
           = Throw (ErrorObject ErrorClass (utf16 "Invalid JSON: " ++ msg))).
Proof.
  destruct (spec_normalize text) as [v|err] eqn:E.
  - left. exists v. split; [reflexivity|].
    eapply spec_normalize_ParsedValue. eassumption.
  - right. unfold spec_normalize in E.
    destruct (trim text) as [|c t] eqn:T; [discriminate|].
    destruct (JSON_parse_total (c :: t)) as [[v P]|[msg P]];
      rewrite P in E; [discriminate|].
    injection E as <-. exists msg. repeat split; [discriminate|exact P].
Qed.

(** X1 -- the only failure of [parseJson].  For every text, [parseJson]
    either returns a ParsedValue or throws an Error whose message is
    "Invalid JSON: " followed by the diagnostic of the first
    [JSON.parse]; the rethrow of other errors (line 94) is never reached,
    and a failure of the second, speculative parse is never reported. *)
Theorem parseJson_returns_or_reports (text : jsstring) (w : World) :
  (exists v, fst (parseJson text w) = Normal v /\ is_ParsedValue v = true)
  \/ (exists msg,
        trim text <> []
        /\ JSON_parse (trim text) = Throw (ErrorObject SyntaxErrorClass msg)
        /\ fst (parseJson text w)
           = Throw (ErrorObject ErrorClass (utf16 "Invalid JSON: " ++ msg))).
Proof. rewrite parseJson_result. apply spec_normalize_cases. Qed.

(** The output and error of [formatJson] do not depend on the world. *)
Lemma formatJson_world_shown (text : jsstring) (opts : FormatOptions) (w : World) :
  (output (react (formatJson_world text opts w)),
   error (react (formatJson_world text opts w))) = shown text opts.
Proof.
  unfold shown, run_state. rewrite formatJson_run. cbn [snd].
  unfold formatJson_world.
  destruct (parseJson_outcome text) as [[parsed|err] cs];
    [destruct (format parsed opts)|]; reflexivity.
Qed.

Lemma formatJson_world_options (text : jsstring) (opts : FormatOptions) (w : World) :
  options (react (formatJson_world text opts w)) = options (react w).
Proof.
  unfold formatJson_world.
  destruct (parseJson_outcome text) as [[parsed|err] cs];
    [destruct (format parsed opts)|]; reflexivity.
Qed.

Lemma formatJson_world_copied (text : jsstring) (opts : FormatOptions) (w : World) :
  copied (react (formatJson_world text opts w)) = copied (react w).
Proof.
  unfold formatJson_world.
  destruct (parseJson_outcome text) as [[parsed|err] cs];
    [destruct (format parsed opts)|]; reflexivity.
Qed.

(** What [shown] is, by cases on the Normalizer. *)
Lemma shown_cases (text : jsstring) (opts : FormatOptions) :
  (exists v,
      spec_normalize text = Normal v /\ is_ParsedValue v = true
      /\ shown text opts
         = (Some (text_of [] (gap_of_space (space_of opts)) v), None))
  \/ (exists msg,
        spec_normalize text
        = Throw (ErrorObject ErrorClass (utf16 "Invalid JSON: " ++ msg))
        /\ shown text opts
           = (Some [], Some (utf16 "Invalid JSON: " ++ msg))).
Proof.
  rewrite <- (formatJson_world_shown text opts (fresh initial_state)).
  unfold formatJson_world.
  pose proof (parseJson_outcome_result text) as R.
  destruct (spec_normalize_cases text) as [(v & N & Hv)|(msg & _ & _ & N)];
    rewrite N in R; destruct (parseJson_outcome text) as [r cs];
    cbn [fst] in R; subst r.
  - left. exists v. split; [exact N|]. split; [exact Hv|].
    rewrite (format_ParsedValue v opts Hv). reflexivity.
  - right. exists msg. split; [exact N|reflexivity].
Qed.


(** In every reachable state the panes hold what the current input and
    options call for. *)
Lemma reachable_expected_display (st : State) :
  reachable st -> (output st, error st) = expected_display st.
Proof.
  induction 1 as [|st ev Hst IH]; [reflexivity|].
  unfold run_state, expected_display.
  destruct ev as [newInput| | |newOptions]; cbn [handle].
  - rewrite handleInputChange_run. cbn [snd fresh react calls].
    unfold handleInputChange_world. cbn [react calls].
    destruct (truthy (trim newInput)) eqn:T.
    + rewrite formatJson_world_input, formatJson_world_options,
        formatJson_world_shown. cbn [react with_input input options].
      rewrite T. reflexivity.
    + cbn [react with_error with_output with_input input output error].
      rewrite T. reflexivity.
  - rewrite handleFormat_run. cbn [snd fresh react].
    destruct (truthy (trim (input st))) eqn:T.
    + rewrite formatJson_world_input, formatJson_world_options,
        formatJson_world_shown. cbn [fresh react]. rewrite T. reflexivity.
    + cbn [fresh react]. rewrite IH. unfold expected_display.
      rewrite T. reflexivity.
  - reflexivity.
  - rewrite handleOptionsChange_run. cbn [snd fresh react calls].
    destruct (truthy (trim (input st))) eqn:T.
    + rewrite formatJson_world_input, formatJson_world_options,
        formatJson_world_shown. cbn [react with_options input options].
      rewrite T. reflexivity.
    + cbn [react with_options input output error options].
      rewrite T, IH. unfold expected_display. rewrite T. reflexivity.
Qed.

(** X3 -- the panes are never stale.  In every state the component can
    reach through its handlers, the output and the error are those of the
    current input under the current options: empty and absent for a blank
    input, what [formatJson] computes otherwise.  In particular the output
    cell always holds a string, never [undefined]. *)
Theorem display_never_stale (st : State) :
  reachable st ->
  (output st, error st) = expected_display st
  /\ exists out, output st = Some out.
Proof.
  intros H. pose proof (reachable_expected_display st H) as E.
  split; [exact E|]. unfold expected_display in E.
  destruct (truthy (trim (input st))).
  - destruct (shown_cases (input st) (options st))
      as [(v & _ & _ & S)|(msg & _ & S)]; rewrite S in E;
      injection E as -> _; eauto.
  - injection E as -> _. eauto.
Qed.

Lemma display_never_stale_witness :
  let st := run_state (handle (OptionsChange (None, Some true)))
              (run_state (handle (InputChange (utf16 "[1, 2]")))
                 initial_state) in
  reachable st
  /\ (output st, error st) = (Some (utf16 "[1,2]"), None).
Proof.
  intros st.
  assert (R : reachable st)
    by (apply reachable_step, reachable_step, reachable_initial).
  split; [exact R|].
  rewrite (proj1 (display_never_stale st R)). vm_compute. reflexivity.
Defined.

Lemma State_eta (st : State) :
  {| input := input st; output := output st; error := error st;
     copied := copied st; options := options st |} = st.
Proof. destruct st. reflexivity. Qed.

Lemma formatJson_world_react (text : jsstring) (opts : FormatOptions) (w : World) :
  react (formatJson_world text opts w)
  = {| input := input (react w);
       output := fst (shown text opts);
       error := snd (shown text opts);
       copied := copied (react w);
       options := options (react w) |}.
Proof.
  rewrite <- (formatJson_world_shown text opts w). cbn [fst snd].
  rewrite <- (formatJson_world_input text opts w),
    <- (formatJson_world_copied text opts w),
    <- (formatJson_world_options text opts w).
  symmetry. apply State_eta.
Qed.




Lemma shown_normalized (text : jsstring) (v : value) (opts : FormatOptions) :
  spec_normalize text = Normal v ->
  shown text opts = (Some (text_of [] (gap_of_space (space_of opts)) v), None).
Proof.
  intros N. destruct (shown_cases text opts) as [(v' & N' & _ & S)|(msg & N' & _)].
  - rewrite N in N'. injection N' as <-. exact S.
  - rewrite N in N'. discriminate.
Qed.



Lemma trimEnd_app_whitespace (x r : jsstring) :
  forallb is_js_whitespace r = true -> trimEnd (x ++ r) = trimEnd x.
Proof.
  intros H. unfold trimEnd. rewrite rev_app_distr.
  rewrite trimStart_app_whitespace by (apply forallb_rev; exact H).
  reflexivity.
Qed.

Lemma trimStart_app_stop (s r : jsstring) :
  trimStart s <> [] -> trimStart (s ++ r) = trimStart s ++ r.
Proof.
  induction s as [|c s IH]; cbn [app trimStart]; [congruence|].
  destruct (is_js_whitespace c); [exact IH|reflexivity].
Qed.

(** White space around a text does not survive [trim]. *)
Lemma trim_surrounding (w s r : jsstring) :
  forallb is_js_whitespace w = true -> forallb is_js_whitespace r = true ->
  trim (w ++ s ++ r) = trim s.
Proof.
  intros Hw Hr. unfold trim. rewrite trimStart_app_whitespace by assumption.
  destruct (trimStart s) as [|c t] eqn:E.
  - apply trimStart_nil_whitespace in E.
    rewrite trimStart_app_whitespace by assumption.
    rewrite (trimStart_whitespace r Hr). reflexivity.
  - rewrite trimStart_app_stop by (rewrite E; discriminate).
    rewrite E. apply trimEnd_app_whitespace. exact Hr.
Qed.

Lemma parseJson_trim_eq (t1 t2 : jsstring) :
  trim t1 = trim t2 -> parseJson t1 = parseJson t2.
Proof. intros H. unfold parseJson. rewrite H. reflexivity. Qed.

(** X6 -- white space around the input is ignored.  Any white space that
    [trim] strips (the JSON blanks, but also no-break space, byte order
    mark, vertical tab, line separator ...) before and after the input
    changes neither what [parseJson] returns, nor the calls it makes, nor
    what is shown. *)
Theorem surrounding_whitespace_ignored (w s r : jsstring) :
  forallb is_js_whitespace w = true -> forallb is_js_whitespace r = true ->
  parseJson (w ++ s ++ r) = parseJson s
  /\ forall opts, shown (w ++ s ++ r) opts = shown s opts.
Proof.
  intros Hw Hr.
  assert (P : parseJson (w ++ s ++ r) = parseJson s)
    by (apply parseJson_trim_eq, trim_surrounding; assumption).
  split; [exact P|]. intros opts.
  unfold shown, run_state, formatJson. rewrite P. reflexivity.
Qed.

Lemma surrounding_whitespace_ignored_witness :
  forallb is_js_whitespace [0xFEFF; 0xA0; 9]%N = true
  /\ forallb is_js_whitespace [0x2028; 10; 0xB]%N = true
  /\ shown ([0xFEFF; 0xA0; 9]%N ++ utf16 "[true]" ++ [0x2028; 10; 0xB]%N)
       {| indent := Number_of_Z 2; minify := true |}
     = shown (utf16 "[true]") {| indent := Number_of_Z 2; minify := true |}.
Proof.
  split; [reflexivity|]. split; [reflexivity|].
  apply (surrounding_whitespace_ignored
           [0xFEFF; 0xA0; 9]%N (utf16 "[true]") [0x2028; 10; 0xB]%N);
    reflexivity.
Defined.

Lemma JSON_parse_QuoteJSONString (s : jsstring) :
  JSON_parse (QuoteJSONString s) = Normal (VString s).
Proof.
  unfold JSON_parse, parse_fuel.
  replace (2 * length (QuoteJSONString s) + 2)%nat
    with (S (2 * length (QuoteJSONString s) + 1)) by lia.
  rewrite <- (app_nil_r (QuoteJSONString s)) at 2.
  rewrite parse_value_string. reflexivity.
Qed.

Lemma trim_QuoteJSONString (s : jsstring) :
  trim (QuoteJSONString s) = QuoteJSONString s.
Proof. apply trim_fixed; reflexivity. Qed.

Lemma endsWith_last (t : jsstring) (c x : code_unit) :
  endsWith (t ++ [c]) [x] = (x =? c)%N.
Proof.
  unfold endsWith. rewrite rev_app_distr. cbn. apply andb_true_r.
Qed.

Lemma looks_like_json_wrap (o c : code_unit) (mid : jsstring) :
  (o = 123%N /\ c = 125%N) \/ (o = 91%N /\ c = 93%N) ->
  looks_like_json (o :: mid ++ [c]) = true.
Proof.
  unfold looks_like_json.
  change (utf16 "}") with [125%N]. change (utf16 "]") with [93%N].
  change (o :: mid ++ [c]) with ((o :: mid) ++ [c]).
  rewrite !endsWith_last.
  intros [[-> ->]|[-> ->]]; reflexivity.
Qed.

Lemma looks_like_json_head (c : code_unit) (t : jsstring) :
  c <> 123%N -> c <> 91%N -> looks_like_json (c :: t) = false.
Proof.
  intros H1 H2. unfold looks_like_json.
  change (startsWith (c :: t) (utf16 "{")) with ((123 =? c)%N && true).
  change (startsWith (c :: t) (utf16 "[")) with ((91 =? c)%N && true).
  replace (123 =? c)%N with false by (symmetry; apply N.eqb_neq; congruence).
  replace (91 =? c)%N with false by (symmetry; apply N.eqb_neq; congruence).
  reflexivity.
Qed.

(** The text of a scalar starts with neither a brace nor a bracket. *)
Lemma scalar_text_head (v : value) (i g : jsstring) :
  is_ParsedValue v = true -> reads_back v = true -> is_structure v = false ->
  exists c t, text_of i g v = c :: t /\ c <> 123%N /\ c <> 91%N.
Proof.
  intros Hv Hr Hs. destruct v as [| |b|n|z|s|l|l]; try discriminate.
  - exists 110%N, (utf16 "ull"). repeat split; discriminate.
  - destruct b; [exists 116%N, (utf16 "rue")|exists 102%N, (utf16 "alse")];
      repeat split; discriminate.
  - cbn [reads_back] in Hr. apply number_reads_back_spec in Hr as [Hf Hn].
    rewrite text_of_number by assumption.
    apply number_of_literal_shape in Hn as ((c & r & E & Hc) & _ & _).
    exists c, r. split; [exact E|].
    destruct Hc as [->|Hc]; [split; discriminate|].
    unfold is_digit in Hc. bool_to_prop. split; lia.
  - exists 34%N, (quote_units s ++ [34%N]). repeat split; discriminate.
Qed.

Lemma structure_text_looks_like_json (v : value) (i g : jsstring) :
  is_ParsedValue v = true -> is_structure v = true ->
  looks_like_json (text_of i g v) = true.
Proof.
  intros Hv Hs. destruct v as [| |b|n|z|s|l|l]; try discriminate.
  - cbn [is_ParsedValue] in Hv. rewrite text_of_array by assumption.
    destruct (wrap_partial_shape 91 93 i (i ++ g) g (map (text_of (i ++ g) g) l))
      as [mid ->]. apply looks_like_json_wrap. auto.
  - rewrite is_ParsedValue_object in Hv. apply andb_true_iff in Hv as [_ Hv].
    rewrite text_of_object by assumption.
    destruct (wrap_partial_shape 123 125 i (i ++ g) g
                (map (fun m => member_text g (fst m)
                                 (text_of (i ++ g) g (snd m))) l))
      as [mid ->]. apply looks_like_json_wrap. auto.
Qed.

(** X7 -- what the recovery recovers.  Take the serialization of a
    ParsedValue whose numbers read back and serialize it once more, as a
    string (double encoding).  If the value is an array or an object,
    [normalize] gives the value itself back; if it is a scalar (null, a
    boolean, a number, a string) the recovery does not apply and
    [normalize] gives the string holding the first serialization. *)
Theorem double_encoding_recovers_structures (v : value) (i g : jsstring) :
  is_ParsedValue v = true -> reads_back v = true ->
  forallb is_json_ws i = true -> forallb is_json_ws g = true ->
  normalize (QuoteJSONString (text_of i g v))
  = Normal (if is_structure v then v else VString (text_of i g v)).
Proof.
  intros Hv Hr Hi Hg. rewrite normalize_spec. unfold spec_normalize.
  rewrite trim_QuoteJSONString.
  pose proof (JSON_parse_QuoteJSONString (text_of i g v)) as P.
  unfold QuoteJSONString in *. rewrite P. f_equal.
  cbn [spec_recover]. rewrite trim_text_of by assumption.
  destruct (is_structure v) eqn:Hs.
  - rewrite structure_text_looks_like_json by assumption.
    rewrite JSON_parse_text_of by assumption. reflexivity.
  - destruct (scalar_text_head v i g Hv Hr Hs) as (c & t & E & H1 & H2).
    rewrite E, looks_like_json_head by assumption. reflexivity.
Qed.

Lemma double_encoding_recovers_structures_witness :
  let v := VObject [(utf16 "a", VNumber (Number_of_Z 1))] in
  is_ParsedValue v = true /\ reads_back v = true
  /\ normalize (QuoteJSONString (text_of [] [] v)) = Normal v
  /\ normalize (QuoteJSONString (text_of [] [] (VNumber (Number_of_Z 7))))
     = Normal (VString (utf16 "7")).
Proof.
  intros v.
  assert (Hv : is_ParsedValue v = true) by (vm_compute; reflexivity).
  assert (Hr : reads_back v = true) by (vm_compute; reflexivity).
  split; [exact Hv|]. split; [exact Hr|]. split.
  - exact (double_encoding_recovers_structures v [] [] Hv Hr eq_refl eq_refl).
  - exact (double_encoding_recovers_structures (VNumber (Number_of_Z 7)) [] []
             eq_refl ltac:(vm_compute; reflexivity) eq_refl eq_refl).
Defined.

(* ------------------------------------------------------------------ *)

Section Characters.
(** A class of characters that holds all printable ones. *)
Variable Q : code_unit -> bool.
Hypothesis Q_printable : forall c, printable c = true -> Q c = true.

Lemma Q_forallb_printable (s : jsstring) :
  forallb printable s = true -> forallb Q s = true.
Proof.
  intros H. rewrite forallb_forall in *. intros c Hc. auto.
Qed.

Lemma printable_hex_char (d : N) : printable (hex_char d) = true.
Proof.
  unfold printable, hex_char. destruct (d <? 10)%N; apply N.leb_le; lia.
Qed.

Lemma printable_escape_unit (c : code_unit) :
  forallb printable (escape_unit c) = true.
Proof.
  unfold escape_unit.
  repeat match goal with
  | |- forallb _ (if (c =? ?k)%N then _ else _) = _ =>
      destruct (c =? k)%N; [reflexivity|]
  end.
  destruct (c <? 32)%N eqn:E.
  - unfold UnicodeEscape. cbn [forallb]. rewrite !printable_hex_char.
    reflexivity.
  - cbn [forallb]. unfold printable. apply N.ltb_ge in E.
    apply andb_true_iff. split; [apply N.leb_le; exact E|reflexivity].
Qed.

Lemma printable_UnicodeEscape (c : code_unit) :
  forallb printable (UnicodeEscape c) = true.
Proof.
  unfold UnicodeEscape. cbn [forallb]. rewrite !printable_hex_char.
  reflexivity.
Qed.

Lemma printable_quote_units_bounded (n : nat) :
  forall s, (length s <= n)%nat -> forallb printable (quote_units s) = true.
Proof.
  induction n as [|n IH]; intros s Hn.
  - destruct s; [reflexivity|simpl in Hn; lia].
  - destruct s as [|c t]; [reflexivity|]. simpl in Hn. cbn [quote_units].
    destruct (is_high_surrogate c) eqn:Hh.
    + unfold is_high_surrogate in Hh. bool_to_prop.
      destruct t as [|d t'].
      * apply printable_UnicodeEscape.
      * destruct (is_low_surrogate d) eqn:Hl.
        -- unfold is_low_surrogate in Hl. bool_to_prop.
           cbn [forallb]. rewrite IH by (simpl in Hn; lia).
           unfold printable.
           replace (32 <=? c)%N with true by (symmetry; apply N.leb_le; lia).
           replace (32 <=? d)%N with true by (symmetry; apply N.leb_le; lia).
           reflexivity.
        -- rewrite forallb_app, printable_UnicodeEscape, IH by lia.
           reflexivity.
    + destruct (is_low_surrogate c).
      * rewrite forallb_app, printable_UnicodeEscape, IH by lia. reflexivity.
      * rewrite forallb_app, printable_escape_unit, IH by lia. reflexivity.
Qed.

Lemma printable_QuoteJSONString (s : jsstring) :
  forallb printable (QuoteJSONString s) = true.
Proof.
  unfold QuoteJSONString. cbn [forallb].
  rewrite forallb_app, (printable_quote_units_bounded (length s)) by lia.
  reflexivity.
Qed.

Lemma Q_join (sep : jsstring) (parts : list jsstring) :
  forallb Q sep = true -> Forall (fun p => forallb Q p = true) parts ->
  forallb Q (join sep parts) = true.
Proof.
  intros Hsep. induction 1 as [|p ps Hp Hps IH]; [reflexivity|].
  destruct ps as [|q ps]; [exact Hp|].
  rewrite join_cons2, !forallb_app, Hp, Hsep, IH. reflexivity.
Qed.

Lemma Q_wrap_partial (o c : code_unit) (sb ind g : jsstring)
    (parts : list jsstring) :
  printable o = true -> printable c = true ->
  (g <> [] -> Q 10%N = true) ->
  forallb Q sb = true -> forallb Q ind = true ->
  Forall (fun p => forallb Q p = true) parts ->
  forallb Q (wrap_partial o c sb ind g parts) = true.
Proof.
  intros Ho Hc Hnl Hsb Hind Hparts. unfold wrap_partial.
  apply Q_printable in Ho, Hc.
  destruct parts as [|p ps]; [cbn; rewrite Ho, Hc; reflexivity|].
  destruct g as [|x g].
  - cbn [forallb]. rewrite forallb_app, Ho. cbn [forallb]. rewrite Hc.
    rewrite Q_join; [reflexivity| |assumption].
    cbn. rewrite Q_printable; reflexivity.
  - assert (H10 : Q 10%N = true) by (apply Hnl; discriminate).
    cbn [forallb]. rewrite !forallb_app. cbn [forallb].
    rewrite forallb_app. cbn [forallb].
    rewrite Ho, Hc, H10, Hsb, Hind. cbn [andb].
    rewrite Q_join; [reflexivity| |assumption].
    cbn [forallb]. rewrite H10, Hind, Q_printable; reflexivity.
Qed.

Lemma Q_text_of (v : value) :
  is_ParsedValue v = true ->
  forall i g, (g <> [] -> Q 10%N = true) ->
  forallb Q i = true -> forallb Q g = true ->
  forallb Q (text_of i g v) = true.
Proof.
  induction v as [| |b|n|z|s|l IH|l IH] using value_induction;
    intros Hv i g Hnl Hi Hg; try discriminate.
  - apply Q_forallb_printable. reflexivity.
  - apply Q_forallb_printable. destruct b; reflexivity.
  - apply Q_forallb_printable. unfold text_of. cbn [SerializeJSONProperty].
    destruct (is_finite n) eqn:F; [|reflexivity].
    pose proof (Number_toString_chars n F) as H.
    rewrite forallb_forall in *. intros c Hc. specialize (H c Hc).
    apply number_char_range in H. unfold printable. apply N.leb_le. lia.
  - apply Q_forallb_printable. apply printable_QuoteJSONString.
  - cbn [is_ParsedValue] in Hv. rewrite text_of_array by assumption.
    assert (Hig : forallb Q (i ++ g) = true)
      by (rewrite forallb_app, Hi, Hg; reflexivity).
    apply Q_wrap_partial; try assumption; try reflexivity.
    apply Forall_map. rewrite Forall_forall in *.
    rewrite forallb_forall in Hv. intros e He. apply IH; auto.
  - rewrite is_ParsedValue_object in Hv. apply andb_true_iff in Hv as [_ Hv].
    rewrite text_of_object by assumption.
    assert (Hig : forallb Q (i ++ g) = true)
      by (rewrite forallb_app, Hi, Hg; reflexivity).
    apply Q_wrap_partial; try assumption; try reflexivity.
    apply Forall_map. rewrite Forall_forall in *.
    rewrite forallb_forall in Hv. intros m Hm.
    unfold member_text. rewrite forallb_app.
    rewrite (Q_forallb_printable _ (printable_QuoteJSONString (fst m))).
    cbn [forallb andb]. rewrite (Q_printable 58%N eq_refl), forallb_app.
    rewrite (IH m Hm) by auto.
    destruct g; cbn [forallb]; rewrite ?(Q_printable 32%N eq_refl);
      reflexivity.
Qed.
End Characters.




(* ------------------------------------------------------------------ *)

(** The cells after each event of the pipeline. *)
Lemma handle_run_state (ev : ui_event) (st : State) :
  run_state (handle ev) st
  = match ev with
    | InputChange s =>
        if truthy (trim s)
        then {| input := s; output := fst (shown s (options st));
                error := snd (shown s (options st));
                copied := copied st; options := options st |}
        else {| input := s; output := Some []; error := None;
                copied := copied st; options := options st |}
    | Format =>
        if truthy (trim (input st))
        then {| input := input st;
                output := fst (shown (input st) (options st));
                error := snd (shown (input st) (options st));
                copied := copied st; options := options st |}
        else st
    | Clear =>
        {| input := []; output := Some []; error := None;
           copied := copied st; options := options st |}
    | OptionsChange o =>
        let u := {| indent := match fst o with
                              | Some i => i
                              | None => indent (options st)
                              end;
                    minify := match snd o with
                              | Some b => b
                              | None => minify (options st)
                              end |} in
        if truthy (trim (input st))
        then {| input := input st; output := fst (shown (input st) u);
                error := snd (shown (input st) u);
                copied := copied st; options := u |}
        else {| input := input st; output := output st; error := error st;
                copied := copied st; options := u |}
    end.
Proof.
  unfold run_state. destruct ev as [s| | |o]; cbn [handle].
  - rewrite handleInputChange_run. cbn [snd].
    unfold handleInputChange_world. cbn [fresh react calls].
    destruct (truthy (trim s)); [|reflexivity].
    rewrite formatJson_world_react. reflexivity.
  - rewrite handleFormat_run. cbn [snd fresh react].
    destruct (truthy (trim (input st))); [|reflexivity].
    rewrite formatJson_world_react. reflexivity.
  - reflexivity.
  - rewrite handleOptionsChange_run. cbn [snd fresh react calls].
    destruct (truthy (trim (input st))); [|reflexivity].
    rewrite formatJson_world_react. reflexivity.
Qed.

Lemma handle_copied (ev : ui_event) (st : State) :
  copied (run_state (handle ev) st) = copied st.
Proof.
  rewrite handle_run_state. destruct ev as [s| | |o]; cbn zeta;
    repeat match goal with |- context [if ?b then _ else _] => destruct b end;
    reflexivity.
Qed.

(** The output pane follows the input through every event of the
    pipeline, whatever the error cell holds. *)
Lemma handle_output (ev : ui_event) (st : State) :
  output st = fst (expected_display st) ->
  output (run_state (handle ev) st)
  = fst (expected_display (run_state (handle ev) st)).
Proof.
  intros IH. rewrite handle_run_state. unfold expected_display in *.
  destruct ev as [s| | |o]; cbn zeta.
  - destruct (truthy (trim s)) eqn:T; cbn [input output options];
      rewrite T; reflexivity.
  - destruct (truthy (trim (input st))) eqn:T; cbn [input output options];
      rewrite T; [reflexivity|]. try rewrite T in IH. exact IH.
  - reflexivity.
  - destruct (truthy (trim (input st))) eqn:T; cbn [input output options];
      rewrite T; [reflexivity|]. try rewrite T in IH. exact IH.
Qed.

Lemma handle_error (ev : ui_event) (st : State) (msg : option jsstring) :
  error st = snd (expected_display st) \/ error st = msg ->
  error (run_state (handle ev) st)
  = snd (expected_display (run_state (handle ev) st))
  \/ error (run_state (handle ev) st) = msg.
Proof.
  intros IH. rewrite handle_run_state. unfold expected_display in *.
  destruct ev as [s| | |o]; cbn zeta.
  - left. destruct (truthy (trim s)) eqn:T; cbn [input error options];
      rewrite T; reflexivity.
  - destruct (truthy (trim (input st))) eqn:T; cbn [input error options];
      [left; rewrite T; reflexivity|]. try rewrite T in IH. rewrite T. exact IH.
  - left. reflexivity.
  - destruct (truthy (trim (input st))) eqn:T; cbn [input error options];
      rewrite T; [left; reflexivity|]. try rewrite T in IH. exact IH.
Qed.

Lemma handleCopy_view (p : Page) : view (handleCopy p) = view p.
Proof.
  unfold handleCopy. destruct (output (view p)) as [[|c t]|]; reflexivity.
Qed.

Lemma handleDownload_view (p : Page) : view (handleDownload p) = view p.
Proof.
  unfold handleDownload. destruct (output (view p)) as [[|c t]|]; reflexivity.
Qed.

Lemma page_step_output (ev : page_event) (p p' : Page) :
  page_step ev p = Some p' ->
  (exists e, ev = Ui e /\ view p' = run_state (handle e) (view p))
  \/ (input (view p') = input (view p) /\ output (view p') = output (view p)
      /\ options (view p') = options (view p)).
Proof.
  destruct ev as [e| |ok| |]; cbn [page_step]; intros H.
  - injection H as <-. left. eauto.
  - injection H as <-. right. rewrite handleCopy_view. auto.
  - destruct (awaiting p); [discriminate|]. injection H as <-. right.
    destruct ok; auto.
  - destruct (timers p); [discriminate|]. injection H as <-. right. auto.
  - injection H as <-. right. rewrite handleDownload_view. auto.
Qed.

Lemma page_output (p : Page) :
  page_reachable p -> output (view p) = fst (expected_display (view p)).
Proof.
  induction 1 as [|p ev p' Hp IH Hs]; [reflexivity|].
  destruct (page_step_output ev p p' Hs) as [(e & -> & ->)|(Hi & Ho & Hopt)].
  - apply handle_output. exact IH.
  - rewrite Ho, IH. unfold expected_display. rewrite Hi, Hopt. reflexivity.
Qed.

(** X9 -- the output pane with the copy and download buttons in play.
    In every state of the page, whatever clicks, clipboard results and
    timers came in between, the output is the one the current input and
    options call for; the error is the one they call for, or the message
    left by a failed copy. *)
Theorem page_display (p : Page) :
  page_reachable p ->
  output (view p) = fst (expected_display (view p))
  /\ (error (view p) = snd (expected_display (view p))
      \/ error (view p) = Some (utf16 "Failed to copy to clipboard")).
Proof.
  intros H. split; [apply page_output; exact H|].
  induction H as [|p ev p' Hp IH Hs]; [left; reflexivity|].
  destruct ev as [e| |ok| |]; cbn [page_step] in Hs.
  - injection Hs as <-. cbn [view]. apply handle_error. exact IH.
  - injection Hs as <-. rewrite handleCopy_view. exact IH.
  - destruct (awaiting p); [discriminate|]. injection Hs as <-.
    destruct ok; [exact IH|right; reflexivity].
  - destruct (timers p); [discriminate|]. injection Hs as <-. exact IH.
  - injection Hs as <-. rewrite handleDownload_view. exact IH.
Qed.

Lemma page_display_witness :
  let p := {| view := with_error (Some (utf16 "Failed to copy to clipboard"))
                        (run_state (handle (InputChange (utf16 "[1]")))
                           initial_state);
              awaiting := 0; timers := 0;
              effects := [ClipboardWrite [91; 10; 32; 32; 49; 10; 93]%N] |} in
  page_reachable p
  /\ output (view p) = Some [91; 10; 32; 32; 49; 10; 93]%N
  /\ error (view p) = Some (utf16 "Failed to copy to clipboard").
Proof.
  intros p.
  assert (R : page_reachable p).
  { apply (page_reachable_step
             {| view := run_state (handle (InputChange (utf16 "[1]")))
                          initial_state;
                awaiting := 1; timers := 0;
                effects := [ClipboardWrite [91; 10; 32; 32; 49; 10; 93]%N] |}
             (ClipboardSettled false)); [|reflexivity].
    apply (page_reachable_step
             {| view := run_state (handle (InputChange (utf16 "[1]")))
                          initial_state;
                awaiting := 0; timers := 0; effects := [] |}
             CopyClick); [|vm_compute; reflexivity].
    apply (page_reachable_step initial_page (Ui (InputChange (utf16 "[1]"))));
      [apply page_reachable_initial|reflexivity]. }
  split; [exact R|]. split.
  - rewrite (proj1 (page_display p R)). vm_compute. reflexivity.
  - reflexivity.
Defined.

(** A non-empty output is the serialization of the value the input
    normalizes to. *)
Lemma page_output_text (p : Page) (c : code_unit) (t : jsstring) :
  page_reachable p -> output (view p) = Some (c :: t) ->
  truthy (trim (input (view p))) = true
  /\ exists v,
       normalize (input (view p)) = Normal v /\ is_ParsedValue v = true
       /\ c :: t = text_of [] (gap_of_space (space_of (options (view p)))) v.
Proof.
  intros H Ho. pose proof (page_output p H) as E. rewrite Ho in E.
  unfold expected_display in E.
  destruct (truthy (trim (input (view p)))); [|discriminate].
  split; [reflexivity|].
  destruct (shown_cases (input (view p)) (options (view p)))
    as [(v & N & Hv & S)|(msg & _ & S)]; rewrite S in E; cbn [fst] in E.
  - exists v. rewrite normalize_spec. injection E as E. auto.
  - discriminate.
Qed.

(** X10 -- what leaves the page.  Every text ever handed to the clipboard
    or offered as a download is non-empty and is the serialization, under
    some options, of the value some input normalized to: never an error
    message, never the text of a rejected input.  A download is always
    named formatted.json. *)
Theorem exported_text_is_formatted_output (p : Page) :
  page_reachable p ->
  Forall (fun e =>
            (exists text opts v,
                normalize text = Normal v /\ is_ParsedValue v = true
                /\ effect_text e = text_of [] (gap_of_space (space_of opts)) v
                /\ effect_text e <> [])
            /\ match e with
               | FileDownload name _ => name = utf16 "formatted.json"
               | ClipboardWrite _ => True
               end)
         (effects p).
Proof.
  induction 1 as [|p ev p' Hp IH Hs]; [constructor|].
  destruct ev as [e| |ok| |]; cbn [page_step] in Hs.
  - injection Hs as <-. exact IH.
  - injection Hs as <-. unfold handleCopy.
    destruct (output (view p)) as [[|c t]|] eqn:Ho; try exact IH.
    cbn [effects]. apply Forall_app. split; [exact IH|].
    constructor; [|constructor].
    destruct (page_output_text p c t Hp Ho) as (_ & v & N & Hv & E).
    split; [|exact I]. exists (input (view p)), (options (view p)), v.
    cbn [effect_text]. repeat split; try assumption. discriminate.
  - destruct (awaiting p); [discriminate|]. injection Hs as <-.
    destruct ok; exact IH.
  - destruct (timers p); [discriminate|]. injection Hs as <-. exact IH.
  - injection Hs as <-. unfold handleDownload.
    destruct (output (view p)) as [[|c t]|] eqn:Ho; try exact IH.
    cbn [effects]. apply Forall_app. split; [exact IH|].
    constructor; [|constructor].
    destruct (page_output_text p c t Hp Ho) as (_ & v & N & Hv & E).
    split; [|reflexivity]. exists (input (view p)), (options (view p)), v.
    cbn [effect_text]. repeat split; try assumption. discriminate.
Qed.

Lemma page_run_reachable (evs : list page_event) :
  forall p p', page_reachable p -> page_run evs p = Some p' ->
  page_reachable p'.
Proof.
  induction evs as [|ev evs IH]; intros p p' Hp H; cbn [page_run] in H.
  - injection H as <-. exact Hp.
  - destruct (page_step ev p) as [p1|] eqn:E; [|discriminate].
    apply (IH p1); [|exact H]. eapply page_reachable_step; eassumption.
Qed.

Lemma exported_text_is_formatted_output_witness :
  match page_run [Ui (InputChange (utf16 "{oops")); CopyClick; DownloadClick;
                  Ui (InputChange (utf16 "[1]")); DownloadClick;
                  Ui (OptionsChange (None, Some true)); CopyClick]
                 initial_page with
  | Some p =>
      page_reachable p
      /\ Forall (fun e => effect_text e <> []) (effects p)
      /\ effects p
         = [FileDownload (utf16 "formatted.json") [91; 10; 32; 32; 49; 10; 93]%N;
            ClipboardWrite (utf16 "[1]")]
  | None => False
  end.
Proof.
  destruct (page_run _ initial_page) as [p|] eqn:E;
    [|vm_compute in E; discriminate].
  pose proof (page_run_reachable _ _ _ page_reachable_initial E) as R.
  split; [exact R|]. split.
  - eapply Forall_impl; [|exact (exported_text_is_formatted_output p R)].
    cbv beta. intros e ((text & opts & v & _ & _ & _ & Hne) & _). exact Hne.
  - clear R. vm_compute in E. injection E as <-. reflexivity.
Defined.

(** X11 -- the copied mark.  The mark is only ever set by a fulfilled
    clipboard write, and whenever it is set a timer that clears it is
    still to run; no event of the pipeline touches it. *)
Theorem copied_mark_has_timer (p : Page) :
  page_reachable p ->
  (copied (view p) = true -> (0 < timers p)%nat)
  /\ (awaiting p + timers p
      <= length (filter (fun e => match e with
                                  | ClipboardWrite _ => true
                                  | FileDownload _ _ => false
                                  end) (effects p)))%nat.
Proof.
  induction 1 as [|p ev p' Hp [IH1 IH2] Hs]; [split; [discriminate|cbn; lia]|].
  destruct ev as [e| |ok| |]; cbn [page_step] in Hs.
  - injection Hs as <-. cbn [view timers awaiting effects].
    rewrite handle_copied. auto.
  - injection Hs as <-. unfold handleCopy.
    destruct (output (view p)) as [[|c t]|]; auto.
    cbn [view timers awaiting effects]. split; [exact IH1|].
    rewrite filter_app, length_app. cbn. lia.
  - destruct (awaiting p) eqn:A; [discriminate|]. injection Hs as <-.
    destruct ok; cbn [handleCopy_settled view timers awaiting effects
                      with_copied with_error copied]; split;
      try (intros; lia); try lia. exact IH1.
  - destruct (timers p) eqn:T; [discriminate|]. injection Hs as <-.
    cbn [handleCopy_timeout view timers awaiting effects with_copied copied].
    split; [discriminate|lia].
  - injection Hs as <-. unfold handleDownload.
    destruct (output (view p)) as [[|c t]|]; auto.
    cbn [view timers awaiting effects]. split; [exact IH1|].
    rewrite filter_app, length_app. cbn. lia.
Qed.

Lemma copied_mark_has_timer_witness :
  match page_run [Ui (InputChange (utf16 "true")); CopyClick;
                  ClipboardSettled true; Ui Clear] initial_page with
  | Some p => page_reachable p /\ copied (view p) = true /\ (0 < timers p)%nat
  | None => False
  end.
Proof.
  destruct (page_run _ initial_page) as [p|] eqn:E;
    [|vm_compute in E; discriminate].
  pose proof (page_run_reachable _ _ _ page_reachable_initial E) as R.
  assert (C : copied (view p) = true)
    by (clear R; vm_compute in E; injection E as <-; reflexivity).
  split; [exact R|]. split; [exact C|].
  exact (proj1 (copied_mark_has_timer p R) C).
Defined.

(** X12 -- a failed copy.  From any state of the page with a non-empty
    output, a click on the copy button whose clipboard write is rejected
    leaves the output in place but sets the error, so the alert is shown
    and [isValid] no longer holds although the input is valid; the Format
    button then clears the error and shows the same output again. *)
Theorem failed_copy_until_format (p : Page) (c : code_unit) (t : jsstring) :
  page_reachable p -> output (view p) = Some (c :: t) ->
  exists p1 p2 p3,
    page_step CopyClick p = Some p1
    /\ page_step (ClipboardSettled false) p1 = Some p2
    /\ page_step (Ui Format) p2 = Some p3
    /\ output (view p2) = Some (c :: t)
    /\ error (view p2) = Some (utf16 "Failed to copy to clipboard")
    /\ isValid (view p2) = false
    /\ output (view p3) = Some (c :: t)
    /\ error (view p3) = None
    /\ isValid (view p3) = true.
Proof.
  intros H Ho.
  destruct (page_output_text p c t H Ho) as (T & v & N & Hv & E).
  rewrite normalize_spec in N.
  pose proof (shown_normalized _ _ (options (view p)) N) as S.
  rewrite <- E in S.
  eexists _, _, _. split; [reflexivity|].
  cbn [page_step]. unfold handleCopy. rewrite Ho. cbn [awaiting].
  split; [reflexivity|]. split; [reflexivity|].
  cbn [handleCopy_settled view with_error output error].
  rewrite handle_run_state. cbn [input options with_error].
  rewrite T, S. cbn [fst snd output error isValid]. rewrite Ho.
  repeat split.
Qed.

Lemma failed_copy_until_format_witness :
  let p := {| view := run_state (handle (InputChange (utf16 "[1]")))
                       initial_state;
              awaiting := 0; timers := 0; effects := [] |} in
  page_reachable p
  /\ output (view p) = Some [91; 10; 32; 32; 49; 10; 93]%N
  /\ exists p3,
       page_run [CopyClick; ClipboardSettled false; Ui Format] p = Some p3
       /\ error (view p3) = None.
Proof.
  intros p.
  assert (R : page_reachable p).
  { apply (page_reachable_step initial_page (Ui (InputChange (utf16 "[1]"))));
      [apply page_reachable_initial|reflexivity]. }
  assert (Ho : output (view p) = Some [91; 10; 32; 32; 49; 10; 93]%N)
    by (vm_compute; reflexivity).
  split; [exact R|]. split; [exact Ho|].
  destruct (failed_copy_until_format p _ _ R Ho)
    as (p1 & p2 & p3 & S1 & S2 & S3 & _ & _ & _ & _ & He & _).
  exists p3. cbn [page_run]. rewrite S1, S2, S3. auto.
Defined.


(* ------------------------------------------------------------------ *)

Lemma members_size_le_length (ms : list (jsstring * value)) :
  forallb (fun m => is_ParsedValue (snd m)) ms = true ->
  forallb (fun m => reads_back (snd m)) ms = true ->
  (list_sum (map (fun m => size (snd m)) ms)
   <= list_sum (map (@length _)
        (map (fun m => member_text [] (fst m) (text_of [] [] (snd m))) ms)))%nat.
Proof.
  induction ms as [|[k e] l IH]; intros Hv Hr; [cbn; lia|].
  cbn [forallb snd] in Hv, Hr. apply andb_true_iff in Hv as [Hve Hv].
  apply andb_true_iff in Hr as [Hre Hr].
  rewrite !map_cons, !list_sum_cons. cbn [fst snd].
  specialize (IH Hv Hr).
  pose proof (size_le_length e Hve Hre [] []).
  pose proof (length_member_text [] k (text_of [] [] e)). lia.
Qed.

(** The parser on an object literal: the members are put into the object
    one after the other with [CreateDataProperty]. *)
Lemma parse_object_literal (ms : list (jsstring * value)) (f : nat)
    (rest : jsstring) :
  forallb (fun m => is_ParsedValue (snd m)) ms = true ->
  forallb (fun m => reads_back (snd m)) ms = true ->
  (2 * list_sum (map (fun m => size (snd m)) ms) <= f)%nat ->
  parse_value (S f) (object_literal ms ++ rest)
  = POk (VObject (build_object ms)) rest.
Proof.
  intros Hv Hr Hfuel. unfold object_literal.
  destruct ms as [|[k e] l'].
  - reflexivity.
  - assert (Hreads : Forall (fun m => reads [] [] (snd m)) ((k, e) :: l')).
    { rewrite Forall_forall. rewrite forallb_forall in Hv, Hr.
      intros x Hx. apply (parse_text_of (snd x)); auto. }
    cbn [map fst snd].
    destruct (wrap_partial_layout 123 125 [] [] []
                (member_text [] k (text_of [] [] e))
                (map (fun m => member_text [] (fst m)
                                 (text_of [] [] (snd m))) l')
                eq_refl eq_refl)
      as (w & w' & Hw & Hw' & ->).
    rewrite parse_value_S, skip_ws_stop by reflexivity.
    change (123 =? 123)%N with true. cbv iota.
    assert (Hc : closes 125%N
                   (w ++ join (44%N :: w)
                           (member_text [] k (text_of [] [] e)
                              :: map (fun m => member_text [] (fst m)
                                                 (text_of [] [] (snd m))) l')
                      ++ w' ++ 125%N :: rest) = None).
    { destruct (join_head (44%N :: w)
                  (member_text [] k (text_of [] [] e))
                  (map (fun m => member_text [] (fst m)
                                   (text_of [] [] (snd m))) l')
                  34%N (quote_units k ++ [34%N] ++ 58%N
                          :: [] ++ text_of [] [] e)) as [t' ->].
      { unfold member_text, QuoteJSONString. cbn [app].
        rewrite <- app_assoc. reflexivity. }
      cbn [app]. apply closes_none; [assumption|reflexivity|discriminate]. }
    rewrite Hc.
    change (member_text [] k (text_of [] [] e)
              :: map (fun m => member_text [] (fst m)
                                 (text_of [] [] (snd m))) l')
      with (map (fun m => member_text [] (fst m) (text_of [] [] (snd m)))
                ((k, e) :: l')).
    rewrite (parse_members_join [] [] w w' [] Hw Hw' ((k, e) :: l') Hreads);
      [reflexivity|discriminate|assumption|assumption].
Qed.

Lemma JSON_parse_object_literal (ms : list (jsstring * value)) :
  forallb (fun m => is_ParsedValue (snd m)) ms = true ->
  forallb (fun m => reads_back (snd m)) ms = true ->
  JSON_parse (object_literal ms) = Normal (VObject (build_object ms)).
Proof.
  intros Hv Hr. unfold JSON_parse, parse_fuel.
  pose proof (members_size_le_length ms Hv Hr) as Hsize.
  pose proof (length_wrap_partial 123 125 [] [] []
                (map (fun m => member_text [] (fst m) (text_of [] [] (snd m)))
                     ms)) as Hlen.
  fold (object_literal ms) in Hlen.
  replace (2 * length (object_literal ms) + 2)%nat
    with (S (2 * length (object_literal ms) + 1)) by lia.
  pose proof (parse_object_literal ms (2 * length (object_literal ms) + 1) []
                Hv Hr ltac:(lia)) as H.
  rewrite app_nil_r in H. rewrite H. reflexivity.
Qed.

Lemma has_key_In (k : jsstring) (o : list (jsstring * value)) :
  has_key k o = true <-> In k (map fst o).
Proof.
  induction o as [|[k' v] r IH]; cbn [has_key map fst In].
  - split; [discriminate|contradiction].
  - rewrite orb_true_iff, IH, jsstring_eqb_eq. split; intros [H|H]; auto.
Qed.

Lemma plain_keys_NoDup (o : list (jsstring * value)) :
  plain_keys o = true ->
  NoDup (map fst o) /\ forall k, In k (map fst o) -> array_index k = None.
Proof.
  induction o as [|[k v] r IH]; cbn [plain_keys map fst].
  - intros _. split; [constructor|contradiction].
  - destruct (array_index k) eqn:A; [discriminate|]. intros H.
    apply andb_true_iff in H as [Hk Hr]. destruct (IH Hr) as [N P].
    split.
    + constructor; [|exact N]. intros Hin. apply has_key_In in Hin.
      rewrite Hin in Hk. discriminate.
    + intros k' [<-|Hin]; auto.
Qed.

Lemma ordered_from_NoDup (o : list (jsstring * value)) :
  forall lo, ordered_from lo o = true ->
  NoDup (map fst o)
  /\ forall k i, In k (map fst o) -> array_index k = Some i -> lo <= i.
Proof.
  induction o as [|[k v] r IH]; intros lo H.
  - split; [constructor|contradiction].
  - rewrite ordered_from_cons in H. destruct (array_index k) as [i|] eqn:A.
    + apply andb_true_iff in H as [Hlo Hr]. apply Z.leb_le in Hlo.
      destruct (IH _ Hr) as [N B]. cbn [map fst]. split.
      * constructor; [|exact N]. intros Hin.
        specialize (B k i Hin A). lia.
      * intros k' i' [<-|Hin] A'.
        -- rewrite A in A'. injection A' as <-. exact Hlo.
        -- specialize (B k' i' Hin A'). lia.
    + destruct (plain_keys_NoDup _ H) as [N P]. split; [exact N|].
      intros k' i' Hin A'. rewrite (P k' Hin) in A'. discriminate.
Qed.

Lemma get_property_none (k : jsstring) (o : list (jsstring * value)) :
  has_key k o = false -> get_property k o = None.
Proof.
  induction o as [|[k' v] r IH]; [reflexivity|]. cbn [has_key get_property].
  destruct (jsstring_eqb k k'); [discriminate|exact IH].
Qed.

Lemma get_property_replace_value (k k0 : jsstring) (v : value)
    (o : list (jsstring * value)) :
  has_key k o = true ->
  get_property k0 (replace_value k v o)
  = if jsstring_eqb k0 k then Some v else get_property k0 o.
Proof.
  induction o as [|[k' v'] r IH]; [discriminate|].
  cbn [has_key replace_value]. destruct (jsstring_eqb k k') eqn:E.
  - intros _. apply jsstring_eqb_eq in E. subst k'. cbn [get_property].
    destruct (jsstring_eqb k0 k); reflexivity.
  - cbn [orb]. intros H. cbn [get_property]. rewrite (IH H).
    destruct (jsstring_eqb k0 k') eqn:E1; [|reflexivity].
    apply jsstring_eqb_eq in E1. subst k'.
    rewrite jsstring_eqb_sym, E. reflexivity.
Qed.

Lemma get_property_insert_index (i : Z) (k k0 : jsstring) (v : value)
    (o : list (jsstring * value)) :
  has_key k o = false ->
  get_property k0 (insert_index i k v o)
  = if jsstring_eqb k0 k then Some v else get_property k0 o.
Proof.
  induction o as [|[k' v'] r IH]; [reflexivity|].
  cbn [has_key insert_index]. intros H. apply orb_false_iff in H as [E H].
  destruct (array_index k') as [j|]; [destruct (j <? i)|]; try reflexivity.
  cbn [get_property]. rewrite (IH H).
  destruct (jsstring_eqb k0 k') eqn:E1; [|reflexivity].
  apply jsstring_eqb_eq in E1. subst k'.
  rewrite jsstring_eqb_sym, E. reflexivity.
Qed.

Lemma get_property_snoc (k k0 : jsstring) (v : value)
    (o : list (jsstring * value)) :
  has_key k o = false ->
  get_property k0 (o ++ [(k, v)])
  = if jsstring_eqb k0 k then Some v else get_property k0 o.
Proof.
  induction o as [|[k' v'] r IH]; [reflexivity|].
  cbn [has_key app get_property]. intros H.
  apply orb_false_iff in H as [E H]. rewrite (IH H).
  destruct (jsstring_eqb k0 k') eqn:E1; [|reflexivity].
  apply jsstring_eqb_eq in E1. subst k'.
  rewrite jsstring_eqb_sym, E. reflexivity.
Qed.

Lemma get_property_CreateDataProperty (o : list (jsstring * value))
    (k k0 : jsstring) (v : value) :
  get_property k0 (CreateDataProperty o k v)
  = if jsstring_eqb k0 k then Some v else get_property k0 o.
Proof.
  unfold CreateDataProperty. destruct (has_key k o) eqn:H.
  - apply get_property_replace_value. exact H.
  - destruct (array_index k).
    + apply get_property_insert_index. exact H.
    + apply get_property_snoc. exact H.
Qed.

(** In the object built from a list of members each key has the value of
    its last occurrence. *)
Lemma get_property_build_object (ms : list (jsstring * value)) (k : jsstring) :
  get_property k (build_object ms) = get_property k (rev ms).
Proof.
  induction ms as [|[k' v] ms IH] using rev_ind; [reflexivity|].
  unfold build_object in *. rewrite fold_left_app. cbn [fold_left fst snd].
  rewrite get_property_CreateDataProperty, rev_app_distr.
  cbn [rev app get_property]. rewrite IH. reflexivity.
Qed.

Lemma object_literal_shape (ms : list (jsstring * value)) :
  exists mid, object_literal ms = 123%N :: mid ++ [125%N].
Proof. apply wrap_partial_shape. Qed.

(** X13 -- repeated and numeric keys of the input.  An object literal
    whose members are written in any order, with keys that may repeat,
    normalizes to the object in which every key occurs once, with the
    value of its last occurrence; the object is the one obtained by
    putting the members in one after the other, so a repeated key keeps
    the place of its first occurrence and array indices come first. *)
Theorem object_literal_normalizes (ms : list (jsstring * value)) :
  forallb (fun m => is_ParsedValue (snd m)) ms = true ->
  forallb (fun m => reads_back (snd m)) ms = true ->
  normalize (object_literal ms) = Normal (VObject (build_object ms))
  /\ NoDup (map fst (build_object ms))
  /\ forall k, get_property k (build_object ms) = get_property k (rev ms).
Proof.
  intros Hv Hr. split; [|split].
  - rewrite normalize_spec. unfold spec_normalize.
    pose proof (JSON_parse_object_literal ms Hv Hr) as P.
    destruct (object_literal_shape ms) as [mid E]. rewrite E in *.
    rewrite trim_fixed by reflexivity. rewrite P. reflexivity.
  - apply (ordered_from_NoDup _ 0).
    apply build_object_own_property_order.
  - apply get_property_build_object.
Qed.

Lemma object_literal_normalizes_witness :
  let one := VNumber (Number_of_Z 1) in
  let two := VNumber (Number_of_Z 2) in
  let three := VNumber (Number_of_Z 3) in
  let ms := [(utf16 "a", one); (utf16 "7", two); (utf16 "a", three)] in
  forallb (fun m => is_ParsedValue (snd m)) ms = true
  /\ forallb (fun m => reads_back (snd m)) ms = true
  /\ object_literal ms = utf16 "{" ++ quoted "a" ++ utf16 ":1," ++ quoted "7"
                           ++ utf16 ":2," ++ quoted "a" ++ utf16 ":3}"
  /\ normalize (object_literal ms)
     = Normal (VObject [(utf16 "7", two); (utf16 "a", three)]).
Proof.
  intros one two three ms.
  assert (Hv : forallb (fun m => is_ParsedValue (snd m)) ms = true)
    by reflexivity.
  assert (Hr : forallb (fun m => reads_back (snd m)) ms = true)
    by (vm_compute; reflexivity).
  split; [exact Hv|]. split; [exact Hr|].
  split; [vm_compute; reflexivity|].
  rewrite (proj1 (object_literal_normalizes ms Hv Hr)).
  vm_compute. reflexivity.
Defined.

(* ------------------------------------------------------------------ *)

Lemma number_literal_trim (lit : jsstring) (n : number) :
  number_of_literal lit = Some n -> trim lit = lit /\ lit <> [].
Proof.
  intros H.
  destruct (number_of_literal_shape _ _ H) as ((c & r & E & Hc) & _ & Hl).
  split; [|subst lit; discriminate].
  apply (trim_ends lit c r E).
  - apply value_start_not_js_whitespace. unfold is_value_start.
    destruct Hc as [->|Hc]; [reflexivity|].
    rewrite Hc, !orb_true_r. reflexivity.
  - apply value_end_not_js_whitespace. unfold is_value_end.
    rewrite Hl, !orb_true_r. reflexivity.
Qed.

Lemma JSON_parse_number_literal (lit : jsstring) (n : number) :
  number_of_literal lit = Some n -> JSON_parse lit = Normal (VNumber n).
Proof.
  intros H. unfold JSON_parse, parse_fuel.
  replace (2 * length lit + 2)%nat with (S (2 * length lit + 1)) by lia.
  pose proof (parse_value_number (2 * length lit + 1) lit [] n H I) as P.
  rewrite app_nil_r in P. rewrite P. reflexivity.
Qed.

Lemma normalize_number_literal (lit : jsstring) (n : number) :
  number_of_literal lit = Some n -> spec_normalize lit = Normal (VNumber n).
Proof.
  intros H. destruct (number_literal_trim lit n H) as [T Hne].
  unfold spec_normalize. rewrite T.
  destruct lit as [|c t]; [congruence|].
  rewrite (JSON_parse_number_literal _ _ H). reflexivity.
Qed.

(** X14 -- how a number is shown.  An input that is one JSON number
    literal is accepted, and what is shown is not the literal but the
    Number it denotes, rewritten by [Number::toString]; when the literal
    is too large for a finite Number the output is null. *)
Theorem number_literal_display (lit : jsstring) (n : number)
    (opts : FormatOptions) :
  number_of_literal lit = Some n ->
  normalize lit = Normal (VNumber n)
  /\ shown lit opts
     = (Some (if is_finite n then Number_toString n else utf16 "null"), None).
Proof.
  intros H. pose proof (normalize_number_literal lit n H) as N.
  split; [rewrite normalize_spec; exact N|].
  rewrite (shown_normalized lit (VNumber n) opts N). f_equal. f_equal.
  unfold text_of. cbn [SerializeJSONProperty].
  destruct (is_finite n); reflexivity.
Qed.

Lemma number_literal_display_witness :
  number_of_literal (utf16 "1e400") = Some (S754_infinity false)
  /\ number_of_literal (utf16 "-0.0") = Some (S754_zero true)
  /\ number_of_literal (utf16 "0.10") = Some (number_of_decimal false 1 (-1))
  /\ shown (utf16 "1e400") {| indent := Number_of_Z 2; minify := false |}
     = (Some (utf16 "null"), None)
  /\ shown (utf16 "-0.0") {| indent := Number_of_Z 2; minify := false |}
     = (Some (utf16 "0"), None)
  /\ shown (utf16 "0.10") {| indent := Number_of_Z 2; minify := false |}
     = (Some (utf16 "0.1"), None).
Proof.
  assert (H1 : number_of_literal (utf16 "1e400") = Some (S754_infinity false))
    by (vm_compute; reflexivity).
  assert (H2 : number_of_literal (utf16 "-0.0") = Some (S754_zero true))
    by (vm_compute; reflexivity).
  assert (H3 : number_of_literal (utf16 "0.10")
               = Some (number_of_decimal false 1 (-1)))
    by (vm_compute; reflexivity).
  split; [exact H1|]. split; [exact H2|]. split; [exact H3|].
  split; [|split].
  - exact (proj2 (number_literal_display _ _ _ H1)).
  - exact (proj2 (number_literal_display _ _ _ H2)).
  - rewrite (proj2 (number_literal_display _ _ _ H3)).
    vm_compute. reflexivity.
Defined.

Lemma round_half_even_lower (p q : Z) : p / q <= round_half_even p q.
Proof.
  unfold round_half_even.
  destruct (2 * (p mod q) <? q); [lia|].
  destruct (q <? 2 * (p mod q)); [lia|].
  destruct (Z.even (p / q)); lia.
Qed.

(** At and above [2^1024] every value rounds to an infinity. *)
Lemma round_to_number_overflow (neg : bool) (p : Z) :
  2 ^ 1024 <= p -> round_to_number neg p 1 = S754_infinity neg.
Proof.
  intros Hp. assert (P0 : 0 < p) by lia.
  assert (L : 1024 <= Z.log2 p).
  { rewrite <- (Z.log2_pow2 1024) by lia. apply Z.log2_le_mono. exact Hp. }
  destruct (Z.log2_spec p P0) as [Lo Hi].
  unfold round_to_number.
  destruct (p <=? 0) eqn:E0; [apply Z.leb_le in E0; lia|].
  assert (B : binade p 1 = Z.log2 p - 52).
  { unfold binade. change (Z.log2 1) with 0. rewrite Z.sub_0_r.
    unfold scale2.
    destruct (0 <=? Z.log2 p - 52) eqn:E1; [|apply Z.leb_gt in E1; lia].
    rewrite Z.mul_1_l, <- Z.pow_add_r by lia.
    replace (52 + (Z.log2 p - 52)) with (Z.log2 p) by lia.
    destruct (p <? 2 ^ Z.log2 p) eqn:E2; [apply Z.ltb_lt in E2; lia|].
    reflexivity. }
  rewrite B. unfold emin. rewrite Z.max_l by lia.
  unfold scale2.
  destruct (0 <=? Z.log2 p - 52) eqn:E1; [|apply Z.leb_gt in E1; lia].
  rewrite Z.mul_1_l.
  pose proof (round_half_even_lower p (2 ^ (Z.log2 p - 52))) as R.
  assert (D : 2 ^ 52 <= p / 2 ^ (Z.log2 p - 52)).
  { apply Z.div_le_lower_bound; [apply Z.pow_pos_nonneg; lia|].
    rewrite <- Z.pow_add_r by lia.
    replace (Z.log2 p - 52 + 52) with (Z.log2 p) by lia. lia. }
  assert (M : 0 < round_half_even p (2 ^ (Z.log2 p - 52))).
  { assert (0 < 2 ^ 52) by (apply Z.pow_pos_nonneg; lia). lia. }
  destruct (round_half_even p (2 ^ (Z.log2 p - 52)) =? 0) eqn:E3;
    [apply Z.eqb_eq in E3; lia|].
  unfold emax.
  destruct (round_half_even p (2 ^ (Z.log2 p - 52)) =? 2 ^ 53).
  - destruct (971 <? Z.log2 p - 52 + 1) eqn:E4; [reflexivity|].
    apply Z.ltb_ge in E4. lia.
  - destruct (971 <? Z.log2 p - 52) eqn:E4; [reflexivity|].
    apply Z.ltb_ge in E4. lia.
Qed.

Lemma span_all (p : code_unit -> bool) (s : jsstring) :
  forallb p s = true -> span p s = (s, []).
Proof.
  intros H. rewrite <- (app_nil_r s) at 1. apply span_app; [exact H|exact I].
Qed.

(** X15 -- integers that overflow.  A literal made of digits only, not
    starting with 0, whose value is [2^1024] or more is valid JSON for
    the component, and what is shown for it is null. *)
Theorem integer_overflow_shown_as_null (d : code_unit) (ds : jsstring)
    (opts : FormatOptions) :
  forallb is_digit (d :: ds) = true -> d <> 48%N ->
  2 ^ 1024 <= digits_value (d :: ds) ->
  normalize (d :: ds) = Normal (VNumber (S754_infinity false))
  /\ shown (d :: ds) opts = (Some (utf16 "null"), None)
  /\ isValid (run_state (formatJson (d :: ds) opts) initial_state) = true.
Proof.
  intros Hd H0 Hv.
  assert (N : number_of_literal (d :: ds) = Some (S754_infinity false)).
  { unfold number_of_literal.
    assert (Hd' := Hd). cbn [forallb] in Hd'.
    apply andb_true_iff in Hd' as [Hd1 _].
    assert (D45 : (d =? 45)%N = false).
    { unfold is_digit in Hd1. bool_to_prop. apply N.eqb_neq. lia. }
    assert (E : match d :: ds with
                | 45%N :: r => (true, r)
                | _ => (false, d :: ds)
                end = (false, d :: ds)).
    { destruct d as [|pd]; [reflexivity|].
      apply N.eqb_neq in D45.
      repeat (destruct pd as [pd|pd|]; try reflexivity); congruence. }
    rewrite E. unfold json_int_part. rewrite (span_all _ _ Hd).
    apply N.eqb_neq in H0. rewrite H0.
    assert (I' : match ds with
                 | [] => Some ([d], @nil N)
                 | _ :: _ => Some (d :: ds, [])
                 end = Some (d :: ds, [])) by (destruct ds; reflexivity).
    rewrite I'. cbn [json_frac_part json_exp_part length].
    rewrite app_nil_r. unfold number_of_decimal.
    change (0 <=? 0 - Z.of_nat 0) with true. cbv iota.
    change (10 ^ (0 - Z.of_nat 0)) with 1. rewrite Z.mul_1_r.
    rewrite round_to_number_overflow by exact Hv. reflexivity. }
  destruct (number_literal_trim _ _ N) as [T _].
  pose proof (normalize_number_literal _ _ N) as S.
  split; [rewrite normalize_spec; exact S|].
  pose proof (shown_normalized _ _ opts S) as Sh.
  split; [exact Sh|].
  unfold shown in Sh. injection Sh as So Se.
  unfold isValid. rewrite So, Se. reflexivity.
Qed.

Lemma integer_overflow_shown_as_null_witness :
  let lit := 50%N :: repeat 48%N 308 in
  forallb is_digit lit = true /\ 50%N <> 48%N
  /\ 2 ^ 1024 <= digits_value lit
  /\ shown lit {| indent := Number_of_Z 2; minify := true |}
     = (Some (utf16 "null"), None).
Proof.
  intros lit.
  assert (Hd : forallb is_digit lit = true) by (vm_compute; reflexivity).
  assert (H0 : 50%N <> 48%N) by discriminate.
  assert (Hv : 2 ^ 1024 <= digits_value lit)
    by (vm_compute; discriminate).
  split; [exact Hd|]. split; [exact H0|]. split; [exact Hv|].
  exact (proj1 (proj2 (integer_overflow_shown_as_null 50%N (repeat 48%N 308)
                         _ Hd H0 Hv))).
Defined.


(* ------------------------------------------------------------------ *)
(** ** Integers *)

Lemma digit_char_spec (d : Z) :
  0 <= d <= 9 -> is_digit (digit_char d) = true
                 /\ digit_value (digit_char d) = d.
Proof.
  intros H. unfold is_digit, digit_value, digit_char. split.
  - apply andb_true_iff. split; apply N.leb_le; lia.
  - lia.
Qed.

Lemma digits_of_app (k : nat) :
  forall z acc, digits_of k z acc = digits_of k z [] ++ acc.
Proof.
  induction k as [|k IH]; intros z acc; [reflexivity|].
  cbn [digits_of]. rewrite (IH _ (_ :: acc)), (IH _ [_]), <- app_assoc.
  reflexivity.
Qed.

Lemma digits_of_S (k : nat) (z : Z) :
  digits_of (S k) z [] = digits_of k (z / 10) [] ++ [digit_char (z mod 10)].
Proof. cbn [digits_of]. apply digits_of_app. Qed.

Lemma digits_value_snoc (ds : jsstring) (c : code_unit) :
  digits_value (ds ++ [c]) = 10 * digits_value ds + digit_value c.
Proof. unfold digits_value. rewrite fold_left_app. reflexivity. Qed.

Lemma digits_value_digits_of (k : nat) :
  forall z, 0 <= z -> digits_value (digits_of k z []) = z mod 10 ^ Z.of_nat k.
Proof.
  induction k as [|k IH]; intros z Hz.
  - cbn. rewrite Z.mod_1_r. reflexivity.
  - rewrite digits_of_S, digits_value_snoc, IH
      by (apply Z.div_pos; lia).
    rewrite (proj2 (digit_char_spec (z mod 10)
                      ltac:(pose proof (Z.mod_pos_bound z 10); lia))).
    replace (10 ^ Z.of_nat (S k)) with (10 * 10 ^ Z.of_nat k)
      by (rewrite Nat2Z.inj_succ, Z.pow_succ_r by lia; reflexivity).
    rewrite Z.rem_mul_r by (try apply Z.pow_pos_nonneg; lia). lia.
Qed.

(** The first of the [S k] digits of [z]. *)
Lemma digits_of_head (k : nat) :
  forall z, exists t,
    digits_of (S k) z [] = digit_char ((z / 10 ^ Z.of_nat k) mod 10) :: t.
Proof.
  induction k as [|k IH]; intros z.
  - exists []. cbn [digits_of]. rewrite Z.pow_0_r, Z.div_1_r. reflexivity.
  - destruct (IH (z / 10)) as [t E]. rewrite digits_of_S, E.
    exists (t ++ [digit_char (z mod 10)]). cbn [app]. f_equal. f_equal.
    rewrite Z.div_div by (try apply Z.pow_pos_nonneg; lia).
    rewrite Nat2Z.inj_succ, Z.pow_succ_r by lia. reflexivity.
Qed.

Lemma count_digits_spec (fuel : nat) :
  forall z, 0 <= z -> Z.log2 z <= Z.of_nat fuel ->
  z < 10 ^ Z.of_nat (count_digits fuel z)
  /\ (0 < z -> 10 ^ (Z.of_nat (count_digits fuel z) - 1) <= z)
  /\ (1 <= count_digits fuel z)%nat.
Proof.
  induction fuel as [|fuel IH]; intros z Hz Hl.
  - assert (z <= 1).
    { destruct (Z.le_gt_cases z 1) as [|G]; [assumption|].
      assert (1 <= Z.log2 z)
        by (apply Z.log2_le_pow2; [lia|change (2 ^ 1) with 2; lia]). lia. }
    cbn. lia.
  - cbn [count_digits]. destruct (z <? 10) eqn:E.
    + apply Z.ltb_lt in E. cbn. lia.
    + apply Z.ltb_ge in E.
      assert (Hq : 0 <= z / 10) by (apply Z.div_pos; lia).
      assert (Hq1 : 1 <= z / 10)
        by (apply Z.div_le_lower_bound; lia).
      assert (Hl' : Z.log2 (z / 10) <= Z.of_nat fuel).
      { assert (z / 10 < 2 ^ Z.log2 z).
        { apply Z.div_lt_upper_bound; [lia|].
          destruct (Z.log2_spec z ltac:(lia)) as [_ Hi].
          rewrite Z.pow_succ_r in Hi by apply Z.log2_nonneg. lia. }
        assert (Z.log2 (z / 10) < Z.log2 z)
          by (apply Z.log2_lt_pow2; lia).
        lia. }
      destruct (IH (z / 10) Hq Hl') as (Hi & Lo & Hn).
      specialize (Lo ltac:(lia)).
      rewrite Nat2Z.inj_succ.
      replace (Z.succ (Z.of_nat (count_digits fuel (z / 10))) - 1)
        with (Z.succ (Z.of_nat (count_digits fuel (z / 10)) - 1)) by lia.
      rewrite !Z.pow_succ_r by lia.
      pose proof (Z.div_mod z 10 ltac:(lia)).
      pose proof (Z.mod_pos_bound z 10 ltac:(lia)).
      repeat split; try lia.
Qed.

Lemma nat_digits_spec (z : Z) :
  0 <= z ->
  z < 10 ^ Z.of_nat (nat_digits z)
  /\ (0 < z -> 10 ^ (Z.of_nat (nat_digits z) - 1) <= z)
  /\ (1 <= nat_digits z)%nat.
Proof.
  intros Hz. apply count_digits_spec; [exact Hz|].
  rewrite Z2Nat.id by apply Z.log2_nonneg. lia.
Qed.

(** The canonical digits of a non-negative integer: all digits, the value
    is the integer, and no leading zero unless it is the single digit. *)
Lemma nat_digits_string (z : Z) :
  0 <= z ->
  exists d ds,
    digits_of (nat_digits z) z [] = d :: ds
    /\ forallb is_digit (d :: ds) = true
    /\ digits_value (d :: ds) = z
    /\ (ds = [] \/ d <> 48%N).
Proof.
  intros Hz. destruct (nat_digits_spec z Hz) as (Hi & Lo & Hn).
  destruct (nat_digits z) as [|k] eqn:E; [lia|].
  destruct (digits_of_head k z) as [t Eh].
  exists (digit_char ((z / 10 ^ Z.of_nat k) mod 10)), t.
  split; [exact Eh|]. rewrite <- Eh. split; [apply forallb_digits_of; reflexivity|]. split.
  - rewrite digits_value_digits_of by exact Hz. apply Z.mod_small. lia.
  - destruct k as [|k]; [left|right].
    + cbn [digits_of] in Eh. injection Eh as _ <-. reflexivity.
    + assert (Hz' : 0 < z).
      { destruct (Z.eq_dec z 0) as [->|]; [|lia].
        cbv in E. discriminate. }
      specialize (Lo Hz').
      replace (Z.of_nat (S (S k)) - 1) with (Z.of_nat (S k)) in Lo by lia.
      assert (P : 0 < 10 ^ Z.of_nat (S k)) by (apply Z.pow_pos_nonneg; lia).
      assert (1 <= z / 10 ^ Z.of_nat (S k))
        by (apply Z.div_le_lower_bound; lia).
      assert (z / 10 ^ Z.of_nat (S k) < 10).
      { apply Z.div_lt_upper_bound; [lia|].
        rewrite (Nat2Z.inj_succ (S k)), Z.pow_succ_r in Hi by lia. lia. }
      rewrite Z.mod_small by lia. unfold digit_char. lia.
Qed.

Lemma sign_split_digit (d : code_unit) (ds : jsstring) :
  is_digit d = true ->
  match d :: ds with
  | 45%N :: r => (true, r)
  | _ => (false, d :: ds)
  end = (false, d :: ds).
Proof.
  intros H. assert (D45 : d <> 45%N).
  { unfold is_digit in H. bool_to_prop. lia. }
  destruct d as [|pd]; [reflexivity|].
  repeat (destruct pd as [pd|pd|]; try reflexivity); congruence.
Qed.

Lemma json_int_part_digits (d : code_unit) (ds : jsstring) :
  forallb is_digit (d :: ds) = true -> ds = [] \/ d <> 48%N ->
  json_int_part (d :: ds) = Some (d :: ds, []).
Proof.
  intros Hd H0. unfold json_int_part.
  rewrite (span_all _ _ Hd). destruct ds as [|d' ds]; [reflexivity|].
  destruct H0 as [H0|H0]; [discriminate|].
  apply N.eqb_neq in H0. rewrite H0. reflexivity.
Qed.

(** The Number a canonical integer literal denotes. *)
Lemma number_of_literal_Z_toString (z : Z) :
  number_of_literal (Z_toString z) = Some (Number_of_Z z).
Proof.
  unfold Z_toString, Number_of_Z. destruct (z <? 0) eqn:Ez.
  - apply Z.ltb_lt in Ez.
    destruct (nat_digits_string (- z) ltac:(lia)) as (d & ds & E & Hd & Hv & H0).
    rewrite E. unfold number_of_literal.
    rewrite (json_int_part_digits d ds Hd H0).
    cbn [json_frac_part json_exp_part length]. rewrite app_nil_r, Hv.
    unfold number_of_decimal. change (0 <=? 0 - Z.of_nat 0) with true.
    cbv iota. change (10 ^ (0 - Z.of_nat 0)) with 1.
    rewrite Z.mul_1_r, Z.abs_neq by lia. reflexivity.
  - apply Z.ltb_ge in Ez.
    destruct (nat_digits_string z Ez) as (d & ds & E & Hd & Hv & H0).
    rewrite E. unfold number_of_literal.
    assert (Hd1 : is_digit d = true)
      by (cbn [forallb] in Hd; apply andb_true_iff in Hd as [Hd _]; exact Hd).
    rewrite (sign_split_digit d ds Hd1).
    rewrite (json_int_part_digits d ds Hd H0).
    cbn [json_frac_part json_exp_part length]. rewrite app_nil_r, Hv.
    unfold number_of_decimal. change (0 <=? 0 - Z.of_nat 0) with true.
    cbv iota. change (10 ^ (0 - Z.of_nat 0)) with 1.
    rewrite Z.mul_1_r, Z.abs_eq by lia. reflexivity.
Qed.

Lemma scale2_down (z d : Z) : d <= 0 -> scale2 z 1 d = (z * 2 ^ (- d), 1).
Proof.
  intros H. unfold scale2. destruct (0 <=? d) eqn:E; [|reflexivity].
  apply Z.leb_le in E. assert (d = 0) by lia. subst d.
  cbn. rewrite Z.mul_1_r. reflexivity.
Qed.

Lemma scale2_up (z d : Z) : 0 <= d -> scale2 z 1 d = (z, 2 ^ d).
Proof.
  intros H. unfold scale2. destruct (0 <=? d) eqn:E.
  - rewrite Z.mul_1_l. reflexivity.
  - apply Z.leb_gt in E. lia.
Qed.

Lemma round_half_even_1 (w : Z) : round_half_even w 1 = w.
Proof.
  unfold round_half_even. rewrite Z.div_1_r, Z.mod_1_r. reflexivity.
Qed.

(** The significand of a positive integer, scaled to 53 bits. *)
Lemma scaled_range (z : Z) :
  0 < z -> Z.log2 z <= 52 ->
  2 ^ 52 <= z * 2 ^ (52 - Z.log2 z) < 2 ^ 53.
Proof.
  intros Hz Hl. destruct (Z.log2_spec z Hz) as [Lo Hi].
  pose proof (Z.log2_nonneg z) as L0.
  assert (P : 0 < 2 ^ (52 - Z.log2 z)) by (apply Z.pow_pos_nonneg; lia).
  replace (2 ^ 52) with (2 ^ Z.log2 z * 2 ^ (52 - Z.log2 z))
    by (rewrite <- Z.pow_add_r by lia; f_equal; lia).
  replace (2 ^ 53) with (2 ^ Z.succ (Z.log2 z) * 2 ^ (52 - Z.log2 z))
    by (rewrite <- Z.pow_add_r by lia; f_equal; lia).
  split; [apply Z.mul_le_mono_nonneg_r; lia|].
  apply Z.mul_lt_mono_pos_r; lia.
Qed.

Lemma binade_integer (p : Z) : 0 < p -> binade p 1 = Z.log2 p - 52.
Proof.
  intros Hp. destruct (Z.log2_spec p Hp) as [Lo Hi].
  pose proof (Z.log2_nonneg p) as L0.
  unfold binade. change (Z.log2 1) with 0. rewrite Z.sub_0_r.
  destruct (Z.le_gt_cases 0 (Z.log2 p - 52)) as [D|D].
  - rewrite scale2_up by exact D.
    rewrite <- Z.pow_add_r by lia.
    replace (52 + (Z.log2 p - 52)) with (Z.log2 p) by lia.
    destruct (p <? 2 ^ Z.log2 p) eqn:E; [apply Z.ltb_lt in E; lia|].
    reflexivity.
  - rewrite scale2_down by lia.
    replace (- (Z.log2 p - 52)) with (52 - Z.log2 p) by lia.
    pose proof (scaled_range p Hp ltac:(lia)) as R. rewrite Z.mul_1_r.
    destruct (p * 2 ^ (52 - Z.log2 p) <? 2 ^ 52) eqn:E;
      [apply Z.ltb_lt in E; lia|].
    reflexivity.
Qed.

(** Integers below [2^53] are Numbers, exactly. *)
Lemma round_to_number_exact (neg : bool) (z : Z) :
  0 < z < 2 ^ 53 ->
  round_to_number neg z 1
  = S754_finite neg (Z.to_pos (z * 2 ^ (52 - Z.log2 z))) (Z.log2 z - 52).
Proof.
  intros [Hz Hi].
  assert (L : Z.log2 z <= 52).
  { assert (Z.log2 z < 53) by (apply Z.log2_lt_pow2; lia). lia. }
  pose proof (Z.log2_nonneg z) as L0.
  pose proof (scaled_range z Hz L) as R.
  unfold round_to_number.
  destruct (z <=? 0) eqn:E0; [apply Z.leb_le in E0; lia|].
  rewrite binade_integer by exact Hz. unfold emin.
  rewrite Z.max_l by lia. rewrite scale2_down by lia.
  replace (- (Z.log2 z - 52)) with (52 - Z.log2 z) by lia.
  rewrite round_half_even_1.
  assert (P52 : 0 < 2 ^ 52) by (apply Z.pow_pos_nonneg; lia).
  destruct (z * 2 ^ (52 - Z.log2 z) =? 0) eqn:E1;
    [apply Z.eqb_eq in E1; lia|].
  destruct (z * 2 ^ (52 - Z.log2 z) =? 2 ^ 53) eqn:E2;
    [apply Z.eqb_eq in E2; lia|].
  unfold emax.
  destruct (971 <? Z.log2 z - 52) eqn:E3; [apply Z.ltb_lt in E3; lia|].
  reflexivity.
Qed.

(** From [2^53] on, the exponent of the Number is positive. *)
Lemma round_to_number_large (neg : bool) (y : Z) (s : bool) (m : positive)
    (e : Z) :
  2 ^ 53 <= y -> round_to_number neg y 1 = S754_finite s m e -> 1 <= e.
Proof.
  intros Hy. assert (P53 : 0 < 2 ^ 53) by (apply Z.pow_pos_nonneg; lia).
  assert (L : 53 <= Z.log2 y) by (apply Z.log2_le_pow2; lia).
  unfold round_to_number.
  destruct (y <=? 0); [discriminate|].
  rewrite binade_integer by lia. unfold emin. rewrite Z.max_l by lia.
  rewrite scale2_up by lia.
  destruct (round_half_even y (2 ^ (Z.log2 y - 52)) =? 0); [discriminate|].
  destruct (round_half_even y (2 ^ (Z.log2 y - 52)) =? 2 ^ 53).
  - destruct (emax <? Z.log2 y - 52 + 1); [discriminate|].
    intros H.
    assert (He : Z.log2 y - 52 + 1 = e)
      by exact (f_equal (fun n => match n with
                                  | S754_finite _ _ e => e
                                  | _ => 0
                                  end) H).
    lia.
  - destruct (emax <? Z.log2 y - 52); [discriminate|].
    intros H.
    assert (He : Z.log2 y - 52 = e)
      by exact (f_equal (fun n => match n with
                                  | S754_finite _ _ e => e
                                  | _ => 0
                                  end) H).
    lia.
Qed.

(** Only the integer itself denotes the Number of an integer below
    [2^53]. *)
Lemma round_to_number_inj (y z : Z) :
  0 <= y -> 0 < z < 2 ^ 53 ->
  round_to_number false y 1 = round_to_number false z 1 -> y = z.
Proof.
  intros Hy Hz. pose proof (round_to_number_exact false z Hz) as Ez.
  rewrite Ez. intros H.
  assert (Lz : Z.log2 z <= 52).
  { assert (Z.log2 z < 53) by (apply Z.log2_lt_pow2; lia). lia. }
  destruct (Z.eq_dec y 0) as [->|Hy0]; [discriminate|].
  destruct (Z.lt_ge_cases y (2 ^ 53)) as [Hlt|Hge].
  - rewrite (round_to_number_exact false y ltac:(lia)) in H.
    assert (He : Z.log2 y - 52 = Z.log2 z - 52)
      by exact (f_equal (fun n => match n with
                                  | S754_finite _ _ e => e
                                  | _ => 0
                                  end) H).
    assert (Hm : Z.to_pos (y * 2 ^ (52 - Z.log2 y))
                 = Z.to_pos (z * 2 ^ (52 - Z.log2 z)))
      by exact (f_equal (fun n => match n with
                                  | S754_finite _ m _ => m
                                  | _ => 1%positive
                                  end) H).
    assert (Ly : Z.log2 y = Z.log2 z) by lia. rewrite Ly in Hm.
    pose proof (scaled_range z ltac:(lia) Lz) as Rz.
    pose proof (scaled_range y ltac:(lia) ltac:(lia)) as Ry.
    rewrite Ly in Ry.
    assert (P52 : 0 < 2 ^ 52) by (apply Z.pow_pos_nonneg; lia).
    apply Z2Pos.inj in Hm; [|lia|lia].
    apply Z.mul_reg_r in Hm; [exact Hm|].
    pose proof (Z.log2_nonneg z).
    assert (0 < 2 ^ (52 - Z.log2 z)) by (apply Z.pow_pos_nonneg; lia). lia.
  - apply (round_to_number_large false y _ _ _ Hge) in H. lia.
Qed.

Section IntegerDigits.
(** A positive integer below [2^53], as the fraction [p / q], with its
    number [n] of decimal digits. *)
Variables z p q n : Z.
Hypothesis z_range : 0 < z < 2 ^ 53.
Hypothesis q_pos : 0 < q.
Hypothesis p_def : p = z * q.

Let x := round_to_number false z 1.

Lemma ok_digits (s t : Z) :
  0 <= s -> 0 <= t ->
  number_eqb (number_of_decimal false s t) x = true -> s * 10 ^ t = z.
Proof.
  intros Hs Ht H. apply number_eqb_eq in H. unfold number_of_decimal in H.
  destruct (0 <=? t) eqn:E; [|apply Z.leb_gt in E; lia].
  apply round_to_number_inj in H; [exact H| |exact z_range].
  apply Z.mul_nonneg_nonneg; [lia|]. apply Z.pow_nonneg. lia.
Qed.

Lemma digits_candidate_sound (k : nat) (s n' : Z) :
  Z.of_nat k <= n ->
  digits_candidate x p q n k = Some (s, n') ->
  s * 10 ^ (n - Z.of_nat k) = z /\ n' = n.
Proof.
  intros Hk. unfold digits_candidate.
  set (t := n - Z.of_nat k). assert (Ht : 0 <= t) by (unfold t; lia).
  assert (P : 0 < 10 ^ t) by (apply Z.pow_pos_nonneg; lia).
  unfold scale10. destruct (0 <=? t) eqn:E; [|apply Z.leb_gt in E; lia].
  assert (Lo : p / (q * 10 ^ t) = z / 10 ^ t).
  { rewrite p_def, (Z.mul_comm z q). apply Z.div_mul_cancel_l; lia. }
  rewrite Lo.
  assert (L0 : 0 <= z / 10 ^ t) by (apply Z.div_pos; lia).
  destruct (number_eqb (number_of_decimal false (z / 10 ^ t + 1) t) x)
    eqn:Ehi.
  { apply ok_digits in Ehi; [|lia|lia].
    pose proof (Z.mul_succ_div_gt z (10 ^ t) P). lia. }
  destruct (number_eqb (number_of_decimal false (z / 10 ^ t) t) x) eqn:Elo;
    [|discriminate].
  apply ok_digits in Elo; [|lia|lia].
  intros H. injection H as <- <-. auto.
Qed.

Lemma digits_candidate_full (k : nat) :
  Z.of_nat k = n -> exists r, digits_candidate x p q n k = Some r.
Proof.
  intros Hk. unfold digits_candidate.
  replace (n - Z.of_nat k) with 0 by lia.
  change (scale10 p q 0) with (p, q * 1). rewrite Z.mul_1_r.
  assert (Lo : p / q = z) by (rewrite p_def; apply Z.div_mul; lia).
  rewrite Lo.
  assert (Ok : number_eqb (number_of_decimal false z 0) x = true).
  { unfold number_of_decimal. change (0 <=? 0) with true. cbv iota.
    change (10 ^ 0) with 1. rewrite Z.mul_1_r. apply number_eqb_refl. }
  rewrite Ok.
  destruct (number_eqb (number_of_decimal false (z + 1) 0) x);
    repeat match goal with
    | |- context [if ?b then _ else _] => destruct b
    end; eauto.
Qed.

Lemma shortest_digits_integer (fuel : nat) :
  forall k : nat,
    Z.of_nat k <= n -> n <= Z.of_nat k + Z.of_nat fuel ->
    exists (k' : nat) (s : Z),
      shortest_digits fuel x p q n k = (k', s, n)
      /\ Z.of_nat k' <= n /\ s * 10 ^ (n - Z.of_nat k') = z.
Proof.
  induction fuel as [|fuel IH]; intros k Hk Hn; cbn [shortest_digits];
    destruct (digits_candidate x p q n k) as [[s n']|] eqn:E.
  - destruct (digits_candidate_sound k s n' Hk E) as [Hs ->]. eauto.
  - destruct (digits_candidate_full k ltac:(lia)) as [r Er]. congruence.
  - destruct (digits_candidate_sound k s n' Hk E) as [Hs ->]. eauto.
  - assert (Z.of_nat k <> n).
    { intros Hkn. destruct (digits_candidate_full k Hkn) as [r Er].
      congruence. }
    apply IH; lia.
Qed.
End IntegerDigits.

Lemma digits_of_zeros (j : nat) (k : nat) (s : Z) :
  digits_of (j + k) (s * 10 ^ Z.of_nat j) []
  = digits_of k s [] ++ repeat 48%N j.
Proof.
  induction j as [|j IH].
  - cbn [Nat.add repeat]. rewrite Z.pow_0_r, Z.mul_1_r, app_nil_r.
    reflexivity.
  - cbn [Nat.add]. rewrite digits_of_S.
    rewrite Nat2Z.inj_succ, Z.pow_succ_r by lia.
    replace (s * (10 * 10 ^ Z.of_nat j)) with (s * 10 ^ Z.of_nat j * 10) by lia.
    rewrite Z.div_mul, Z.mod_mul by lia. rewrite IH.
    change (digit_char 0) with 48%N.
    rewrite <- app_assoc, <- repeat_cons. reflexivity.
Qed.

(** [Number::toString] writes the Number of a positive integer below
    [2^53] as the integer's digits. *)
Lemma positive_toString_integer (z : Z) :
  0 < z < 2 ^ 53 ->
  positive_toString (round_to_number false z 1)
    (Z.to_pos (z * 2 ^ (52 - Z.log2 z))) (Z.log2 z - 52)
  = digits_of (nat_digits z) z [].
Proof.
  intros Hz.
  assert (L : Z.log2 z <= 52).
  { assert (Z.log2 z < 53) by (apply Z.log2_lt_pow2; lia). lia. }
  pose proof (scaled_range z ltac:(lia) L) as R.
  assert (P52 : 0 < 2 ^ 52) by (apply Z.pow_pos_nonneg; lia).
  assert (Q : 0 < 2 ^ (52 - Z.log2 z)) by (apply Z.pow_pos_nonneg; lia).
  unfold positive_toString. rewrite Z2Pos.id by lia.
  replace (- (Z.log2 z - 52)) with (52 - Z.log2 z) by lia.
  rewrite scale2_up by lia.
  destruct (nat_digits_spec z ltac:(lia)) as (Hi & Lo & Hn).
  specialize (Lo ltac:(lia)).
  assert (N : decimal_exponent (z * 2 ^ (52 - Z.log2 z)) (2 ^ (52 - Z.log2 z))
              = Z.of_nat (nat_digits z)).
  { unfold decimal_exponent. rewrite Z.div_mul by lia.
    destruct (2 ^ (52 - Z.log2 z) <=? z * 2 ^ (52 - Z.log2 z)) eqn:E;
      [reflexivity|]. apply Z.leb_gt in E. nia. }
  rewrite N.
  assert (N16 : Z.of_nat (nat_digits z) <= 16).
  { assert (H : 10 ^ (Z.of_nat (nat_digits z) - 1) < 10 ^ 16).
    { eapply Z.le_lt_trans; [exact Lo|].
      eapply Z.lt_trans; [apply Hz|]. reflexivity. }
    apply Z.pow_lt_mono_r_iff in H; lia. }
  destruct (shortest_digits_integer z (z * 2 ^ (52 - Z.log2 z))
              (2 ^ (52 - Z.log2 z)) (Z.of_nat (nat_digits z))
              Hz Q eq_refl 16 1%nat ltac:(lia) ltac:(lia))
    as (k' & s & E & Hk' & Hs).
  rewrite E. unfold format_decimal.
  assert (B : (Z.of_nat k' <=? Z.of_nat (nat_digits z))
              && (Z.of_nat (nat_digits z) <=? 21) = true).
  { apply andb_true_iff. split; apply Z.leb_le; lia. }
  rewrite B. unfold zeros.
  remember (Z.to_nat (Z.of_nat (nat_digits z) - Z.of_nat k')) as j eqn:Ej.
  pose proof (digits_of_zeros j k' s) as D.
  assert (E1 : (j + k')%nat = nat_digits z) by lia.
  assert (E2 : s * 10 ^ Z.of_nat j = z).
  { replace (Z.of_nat j) with (Z.of_nat (nat_digits z) - Z.of_nat k') by lia.
    exact Hs. }
  rewrite E1, E2 in D. symmetry. exact D.
Qed.

(** [Number::toString] on the Number of an integer of absolute value below
    [2^53] gives the integer's canonical decimal rendering. *)
Lemma Number_toString_integer (z : Z) :
  - 2 ^ 53 < z < 2 ^ 53 -> Number_toString (Number_of_Z z) = Z_toString z.
Proof.
  intros Hz. unfold Number_of_Z, Z_toString.
  destruct (Z.eq_dec z 0) as [->|H0]; [reflexivity|].
  destruct (z <? 0) eqn:E.
  - apply Z.ltb_lt in E. rewrite Z.abs_neq by lia.
    rewrite round_to_number_exact by lia. cbn [Number_toString app].
    rewrite <- (round_to_number_exact false) by lia.
    rewrite positive_toString_integer by lia. reflexivity.
  - apply Z.ltb_ge in E. rewrite Z.abs_eq by lia.
    rewrite round_to_number_exact by lia. cbn [Number_toString app].
    rewrite <- (round_to_number_exact false) by lia.
    rewrite positive_toString_integer by lia. reflexivity.
Qed.

Lemma Number_of_Z_finite (z : Z) :
  - 2 ^ 53 < z < 2 ^ 53 -> is_finite (Number_of_Z z) = true.
Proof.
  intros Hz. unfold Number_of_Z.
  destruct (Z.eq_dec z 0) as [->|H0]; [reflexivity|].
  rewrite round_to_number_exact by lia. reflexivity.
Qed.

(** X16 -- integers are kept.  An integer of absolute value below [2^53],
    written without sign or with a minus sign and without leading zeros,
    is shown exactly as written, under any options; the Number it denotes
    reads back from its serialization, so it survives every round trip. *)
Theorem safe_integer_shown_unchanged (z : Z) (opts : FormatOptions) :
  - 2 ^ 53 < z < 2 ^ 53 ->
  normalize (Z_toString z) = Normal (VNumber (Number_of_Z z))
  /\ shown (Z_toString z) opts = (Some (Z_toString z), None)
  /\ reads_back (VNumber (Number_of_Z z)) = true.
Proof.
  intros Hz.
  pose proof (number_of_literal_Z_toString z) as L.
  pose proof (normalize_number_literal _ _ L) as N.
  split; [rewrite normalize_spec; exact N|]. split.
  - rewrite (shown_normalized _ _ opts N).
    rewrite text_of_number by (apply Number_of_Z_finite; exact Hz).
    rewrite Number_toString_integer by exact Hz. reflexivity.
  - cbn [reads_back]. unfold number_reads_back.
    rewrite Number_of_Z_finite by exact Hz.
    rewrite Number_toString_integer, L by exact Hz.
    apply number_eqb_refl.
Qed.

Lemma safe_integer_shown_unchanged_witness :
  - 2 ^ 53 < -9007199254740991 < 2 ^ 53
  /\ Z_toString (-9007199254740991) = utf16 "-9007199254740991"
  /\ shown (utf16 "-9007199254740991")
       {| indent := Number_of_Z 4; minify := false |}
     = (Some (utf16 "-9007199254740991"), None).
Proof.
  assert (H : - 2 ^ 53 < -9007199254740991 < 2 ^ 53) by (cbv; auto).
  assert (E : Z_toString (-9007199254740991) = utf16 "-9007199254740991")
    by (vm_compute; reflexivity).
  split; [exact H|]. split; [exact E|]. rewrite <- E.
  exact (proj1 (proj2 (safe_integer_shown_unchanged _ _ H))).
Defined.

Lemma Number_of_Z_reads_back (z : Z) :
  - 2 ^ 53 < z < 2 ^ 53 -> number_reads_back (Number_of_Z z) = true.
Proof.
  intros Hz. unfold number_reads_back.
  rewrite Number_of_Z_finite by exact Hz.
  rewrite Number_toString_integer, number_of_literal_Z_toString by exact Hz.
  apply number_eqb_refl.
Qed.

Lemma safe_integer_reads_back (n : number) :
  safe_integer n = true -> number_reads_back n = true.
Proof.
  unfold safe_integer. intros H. apply andb_true_iff in H as [E B].
  apply number_eqb_eq in E. apply Z.ltb_lt in B. rewrite <- E.
  apply Number_of_Z_reads_back. lia.
Qed.

Lemma safe_integers_object (props : list (jsstring * value)) :
  safe_integers (VObject props)
  = forallb (fun m => safe_integers (snd m)) props.
Proof.
  cbn [safe_integers].
  induction props as [|[k e] l IH]; [reflexivity|].
  cbn [forallb snd]. rewrite <- IH. reflexivity.
Qed.

Lemma safe_integers_reads_back (v : value) :
  safe_integers v = true -> reads_back v = true.
Proof.
  induction v as [| |b|n|z|s|l IH|l IH] using value_induction;
    intros H; try reflexivity.
  - apply safe_integer_reads_back. exact H.
  - cbn [safe_integers] in H. cbn [reads_back].
    rewrite forallb_forall in *. rewrite Forall_forall in IH. auto.
  - rewrite safe_integers_object in H. rewrite reads_back_object.
    rewrite forallb_forall in *. rewrite Forall_forall in IH. auto.
Qed.




(* ------------------------------------------------------------------ *)

Lemma shown_minify (text : jsstring) (o1 o2 : FormatOptions) :
  minify o1 = true -> minify o2 = true -> shown text o1 = shown text o2.
Proof.
  destruct o1 as [i1 m1], o2 as [i2 m2]. cbn [minify]. intros -> ->.
  unfold shown, run_state. rewrite !formatJson_run. reflexivity.
Qed.



(* ------------------------------------------------------------------ *)

Lemma isWellFormed_app_bounded (n : nat) :
  forall a b, (length a <= n)%nat -> isWellFormed a = true ->
  isWellFormed (a ++ b) = isWellFormed b.
Proof.
  induction n as [|n IH]; intros a b Hn Ha.
  - destruct a; [reflexivity|simpl in Hn; lia].
  - destruct a as [|c t]; [reflexivity|]. simpl in Hn.
    cbn [app isWellFormed] in *.
    destruct (is_high_surrogate c).
    + destruct t as [|d t']; [discriminate|]. cbn [app].
      apply andb_true_iff in Ha as [Hd Ht]. rewrite Hd. cbn [andb].
      apply IH; [simpl in Hn; lia|exact Ht].
    + apply andb_true_iff in Ha as [Hc Ht]. rewrite Hc. cbn [andb].
      apply IH; [lia|exact Ht].
Qed.

Lemma isWellFormed_app (a b : jsstring) :
  isWellFormed a = true -> isWellFormed b = true ->
  isWellFormed (a ++ b) = true.
Proof.
  intros Ha Hb. rewrite (isWellFormed_app_bounded (length a)) by auto.
  exact Hb.
Qed.

Lemma isWellFormed_below (s : jsstring) :
  forallb (fun c => (c <? 0xD800)%N) s = true -> isWellFormed s = true.
Proof.
  induction s as [|c t IH]; [reflexivity|]. cbn [forallb isWellFormed].
  intros H. apply andb_true_iff in H as [Hc Ht]. apply N.ltb_lt in Hc.
  unfold is_high_surrogate, is_low_surrogate.
  replace (0xD800 <=? c)%N with false by (symmetry; apply N.leb_gt; lia).
  replace (0xDC00 <=? c)%N with false by (symmetry; apply N.leb_gt; lia).
  cbn [andb negb]. apply IH. exact Ht.
Qed.

Lemma hex_char_below (d : N) : (d < 16)%N -> (hex_char d <? 0xD800)%N = true.
Proof.
  intros H. unfold hex_char. apply N.ltb_lt. destruct (d <? 10)%N; lia.
Qed.

Lemma isWellFormed_UnicodeEscape (c : code_unit) :
  isWellFormed (UnicodeEscape c) = true.
Proof.
  apply isWellFormed_below. unfold UnicodeEscape. cbn [forallb].
  rewrite !hex_char_below by (apply N.mod_lt; discriminate). reflexivity.
Qed.

Lemma isWellFormed_escape_unit (c : code_unit) :
  is_high_surrogate c = false -> is_low_surrogate c = false ->
  isWellFormed (escape_unit c) = true.
Proof.
  intros Hh Hl. unfold escape_unit.
  repeat match goal with
  | |- isWellFormed (if (c =? ?k)%N then _ else _) = _ =>
      destruct (c =? k)%N; [reflexivity|]
  end.
  destruct (c <? 32)%N; [apply isWellFormed_UnicodeEscape|].
  cbn [isWellFormed]. rewrite Hh, Hl. reflexivity.
Qed.

Lemma isWellFormed_quote_units_bounded (n : nat) :
  forall s, (length s <= n)%nat -> isWellFormed (quote_units s) = true.
Proof.
  induction n as [|n IH]; intros s Hn.
  - destruct s; [reflexivity|simpl in Hn; lia].
  - destruct s as [|c t]; [reflexivity|]. simpl in Hn. cbn [quote_units].
    destruct (is_high_surrogate c) eqn:Hh.
    + destruct t as [|d t'].
      * apply isWellFormed_UnicodeEscape.
      * destruct (is_low_surrogate d) eqn:Hl.
        -- cbn [isWellFormed]. rewrite Hh, Hl. cbn [andb].
           apply IH. simpl in Hn. lia.
        -- apply isWellFormed_app;
             [apply isWellFormed_UnicodeEscape|apply IH; lia].
    + destruct (is_low_surrogate c) eqn:Hl.
      * apply isWellFormed_app;
          [apply isWellFormed_UnicodeEscape|apply IH; lia].
      * apply isWellFormed_app;
          [apply isWellFormed_escape_unit; assumption|apply IH; lia].
Qed.

Lemma isWellFormed_QuoteJSONString (s : jsstring) :
  isWellFormed (QuoteJSONString s) = true.
Proof.
  unfold QuoteJSONString.
  change (34%N :: quote_units s ++ [34%N])
    with ([34%N] ++ quote_units s ++ [34%N]).
  apply isWellFormed_app; [reflexivity|].
  apply isWellFormed_app; [|reflexivity].
  apply (isWellFormed_quote_units_bounded (length s)). lia.
Qed.

Lemma isWellFormed_cons_below (c : code_unit) (s : jsstring) :
  (c < 0xD800)%N -> isWellFormed s = true -> isWellFormed (c :: s) = true.
Proof.
  intros Hc Hs. change (c :: s) with ([c] ++ s).
  apply isWellFormed_app; [|exact Hs].
  apply isWellFormed_below. cbn [forallb].
  apply N.ltb_lt in Hc. rewrite Hc. reflexivity.
Qed.

Lemma isWellFormed_join (sep : jsstring) (parts : list jsstring) :
  isWellFormed sep = true ->
  Forall (fun p => isWellFormed p = true) parts ->
  isWellFormed (join sep parts) = true.
Proof.
  intros Hsep. induction 1 as [|p ps Hp Hps IH]; [reflexivity|].
  destruct ps as [|q ps]; [exact Hp|].
  rewrite join_cons2. auto using isWellFormed_app.
Qed.

Lemma isWellFormed_wrap_partial (o c : code_unit) (sb ind g : jsstring)
    (parts : list jsstring) :
  (o < 0xD800)%N -> (c < 0xD800)%N ->
  isWellFormed sb = true -> isWellFormed ind = true ->
  Forall (fun p => isWellFormed p = true) parts ->
  isWellFormed (wrap_partial o c sb ind g parts) = true.
Proof.
  intros Ho Hc Hsb Hind Hparts. unfold wrap_partial.
  assert (Hclose : isWellFormed [c] = true)
    by (apply isWellFormed_cons_below; auto).
  destruct parts as [|p ps]; [auto using isWellFormed_cons_below|].
  destruct g as [|x g].
  - apply isWellFormed_cons_below; [exact Ho|].
    apply isWellFormed_app; [|exact Hclose].
    apply isWellFormed_join; [reflexivity|exact Hparts].
  - apply isWellFormed_cons_below; [exact Ho|].
    apply isWellFormed_cons_below; [reflexivity|].
    apply isWellFormed_app; [exact Hind|].
    apply isWellFormed_app.
    + apply isWellFormed_join; [|exact Hparts].
      apply isWellFormed_cons_below; [reflexivity|].
      apply isWellFormed_cons_below; [reflexivity|exact Hind].
    + apply isWellFormed_cons_below; [reflexivity|].
      apply isWellFormed_app; assumption.
Qed.

Lemma isWellFormed_text_of (v : value) :
  is_ParsedValue v = true ->
  forall i g, isWellFormed i = true -> isWellFormed g = true ->
  isWellFormed (text_of i g v) = true.
Proof.
  induction v as [| |b|n|z|s|l IH|l IH] using value_induction;
    intros Hv i g Hi Hg; try discriminate.
  - reflexivity.
  - destruct b; reflexivity.
  - unfold text_of. cbn [SerializeJSONProperty].
    destruct (is_finite n) eqn:F; [|reflexivity].
    apply isWellFormed_below.
    pose proof (Number_toString_chars n F) as H.
    rewrite forallb_forall in *. intros c Hc. specialize (H c Hc).
    apply number_char_range in H. apply N.ltb_lt. lia.
  - apply isWellFormed_QuoteJSONString.
  - cbn [is_ParsedValue] in Hv. rewrite text_of_array by assumption.
    assert (Hig : isWellFormed (i ++ g) = true)
      by (apply isWellFormed_app; assumption).
    apply isWellFormed_wrap_partial; try assumption; try reflexivity.
    apply Forall_map. rewrite Forall_forall in *.
    rewrite forallb_forall in Hv. intros e He. apply IH; auto.
  - rewrite is_ParsedValue_object in Hv. apply andb_true_iff in Hv as [_ Hv].
    rewrite text_of_object by assumption.
    assert (Hig : isWellFormed (i ++ g) = true)
      by (apply isWellFormed_app; assumption).
    apply isWellFormed_wrap_partial; try assumption; try reflexivity.
    apply Forall_map. rewrite Forall_forall in *.
    rewrite forallb_forall in Hv. intros m Hm.
    unfold member_text.
    apply isWellFormed_app; [apply isWellFormed_QuoteJSONString|].
    apply isWellFormed_cons_below; [reflexivity|].
    apply isWellFormed_app; [destruct g; reflexivity|].
    apply IH; auto.
Qed.

Lemma isWellFormed_spaces (g : jsstring) :
  forallb is_json_ws g = true -> isWellFormed g = true.
Proof.
  intros H. apply isWellFormed_below. rewrite forallb_forall in *.
  intros c Hc. specialize (H c Hc). unfold is_json_ws in H.
  apply N.ltb_lt. repeat (apply orb_true_iff in H as [H|H]);
    apply N.eqb_eq in H; lia.
Qed.

(** X19 -- the output is well-formed.  Whatever the input, the output
    holds no lone surrogate, even when a string of the input holds one
    (it is written as an escape): what is copied, and what the Blob of the
    download encodes as UTF-8, loses nothing. *)
Theorem output_isWellFormed (text : jsstring) (opts : FormatOptions) :
  exists out,
    fst (shown text opts) = Some out /\ isWellFormed out = true.
Proof.
  destruct (shown_cases text opts) as [(v & _ & Hv & S)|(msg & _ & S)];
    rewrite S; cbn [fst]; eexists; (split; [reflexivity|]).
  - apply isWellFormed_text_of; [exact Hv|reflexivity|].
    apply isWellFormed_spaces, forallb_gap_of_space.
  - reflexivity.
Qed.
